(** * MNIST sparse-convolution example (example/mnist/mnist_qat.py)

    A shallow embedding of the sparse networks of the example, of the
    training / evaluation / calibration loops that drive them, and of the
    parts of the spconv and torch libraries those loops call.

    Numbers that are Python ints (shapes, coordinates, kernel sizes) are [Z];
    floating-point scalars are kept abstract behind the class [Scalar], so
    every statement holds for any interpretation of the arithmetic.

    A module call is a function of the module (with the tensors it owns), its
    input and the random generator, and returns the module with its updated
    buffers, the advanced generator and the output or the Python exception.

    Embedded from the example file: [SubMConvBNReLU], [SparseConvBNReLU],
    [Net], [NetV2], [NetPTQ] (constructors and [forward]), [train] and
    [calibrate].  The dense baseline [NetDense] and the command-line plumbing
    of [main] are left out: [--sparse] is a [store_true] flag whose default is
    [True], so [main] always builds [NetPTQ].  The layers come from two
    libraries: spconv's ([SparseConvTensor], [SubMConv2d], [SparseConv2d],
    [ToDense], [SparseSequential]) are modelled from the specification,
    torch's ([BatchNorm1d], [ReLU], [Linear], [Dropout2d], the quantization
    stubs and observers, [log_softmax], [nll_loss], autocast) after torch's
    documentation. *)

From stdpp Require Import base list numbers list_numbers.
From Stdlib Require Import ZArith Lia.

#[local] Set Warnings "-register-all".

Open Scope Z_scope.

(** ** Scalars *)

(** The element type of a float tensor with the operations the layers use.
    [nonzero] is the test [x != 0] that [to_sparse] applies; [fliteral m e]
    is the decimal literal [m * 10^e] (0.1 is [fliteral 1 (-1)]). *)
Class Scalar := {
  scalar : Type;
  f0 : scalar;
  fadd : scalar → scalar → scalar;
  fsub : scalar → scalar → scalar;
  fmul : scalar → scalar → scalar;
  fdiv : scalar → scalar → scalar;
  fmax : scalar → scalar → scalar;
  fmin : scalar → scalar → scalar;
  fsqrt : scalar → scalar;
  fexp : scalar → scalar;
  flog : scalar → scalar;
  fof_Z : Z → scalar;
  fliteral : Z → Z → scalar;
  nonzero : scalar → bool
}.

(** Integer arithmetic as a (crude) instance, used to run the definitions. *)
Definition ZScalar : Scalar := {|
  scalar := Z;
  f0 := 0;
  fadd := Z.add;
  fsub := Z.sub;
  fmul := Z.mul;
  fdiv := Z.div;
  fmax := Z.max;
  fmin := Z.min;
  fsqrt := Z.sqrt;
  fexp := fun x => Z.abs x + 1;
  flog := Z.log2;
  fof_Z := fun x => x;
  fliteral := fun m e => m * 10 ^ e;
  nonzero := fun x => negb (x =? 0)
|}.

(** ** Errors *)

(** [ShapeMismatch] and [DuplicateCoordinate] are the errors of the sparse
    layers; [TypeError], [ValueError], [RuntimeError] and [AssertionError]
    are the Python exceptions of a bad call, of the torch layers and of
    [assert]. *)
Inductive error :=
| ShapeMismatch
| DuplicateCoordinate
| TypeError
| ValueError
| RuntimeError
| ZeroDivisionError
| AssertionError.

Definition result (A : Type) : Type := error + A.

Definition ok {A} (a : A) : result A := inr a.
Definition raise {A} (e : error) : result A := inl e.

Definition bind {A B} (r : result A) (k : A → result B) : result B :=
  match r with
  | inl e => inl e
  | inr a => k a
  end.

Notation "x <- r ;; k" := (bind r (fun x => k))
  (at level 100, r at next level, right associativity).

(** ** Tensors *)

(** One write of a scatter: entry [p.1] of [acc] becomes [p.2]. *)
Definition put {A} (acc : list A) (p : nat * A) : list A := <[p.1 := p.2]> acc.

Section Tensors.
Context `{Scalar}.

(** A 2-d float tensor of shape [[length rows, cols]]. *)
Record Tensor2 := mkTensor2 {
  t2_rows : list (list scalar);
  t2_cols : Z
}.

(** A channel-last dense batch of shape [[N, H, W, C]], contiguous: site
    [(b, y, x)] is entry [(b * H + y) * W + x] of [d_sites], a vector of [C]
    channels. *)
Record Dense := mkDense {
  d_shape : Z * Z * Z * Z;
  d_sites : list (list scalar)
}.

Definition coord : Type := Z * Z * Z.

(** Modelled from the spec: [SparseConvTensor] (section 3, SparseTensorView):
    features index-aligned with coordinates [(batch_index, y, x)], the dense
    extent [(H, W)] and the number of samples. *)
Record SparseConvTensor := SparseConvTensor_init {
  features : Tensor2;
  indices : list coord;
  spatial_shape : Z * Z;
  batch_size : Z
}.

Definition replace_feature (x : SparseConvTensor) (f : Tensor2) : SparseConvTensor :=
  SparseConvTensor_init f (indices x) (spatial_shape x) (batch_size x).

Definition wf_Tensor2 (t : Tensor2) : Prop :=
  0 ≤ t2_cols t ∧ Forall (λ r, length r = Z.to_nat (t2_cols t)) (t2_rows t).

Definition wf_Dense (d : Dense) : Prop :=
  let '(N, H, W, C) := d_shape d in
  0 ≤ N ∧ 0 ≤ H ∧ 0 ≤ W ∧ 0 ≤ C ∧
  length (d_sites d) = Z.to_nat (N * H * W) ∧
  Forall (λ s, length s = Z.to_nat C) (d_sites d).

Definition ravel (H W : Z) (c : coord) : Z :=
  let '(b, y, x) := c in (b * H + y) * W + x.

Definition unravel (H W : Z) (i : Z) : coord :=
  (i / (H * W), (i / W) mod H, i mod W).

Definition in_range (N H W : Z) (c : coord) : bool :=
  let '(b, y, x) := c in
  (0 <=? b) && (b <? N) && (0 <=? y) && (y <? H) && (0 <=? x) && (x <? W).

(** Modelled from the spec: [SparseConvTensor.from_dense] (spconv's tensor
    class is not part of the example file).  Section 4.1: one coordinate for
    every site of the dense batch whose value differs from the zero sentinel,
    with the site's channel vector as its feature. *)
Fixpoint active_sites (i : Z) (sites : list (list scalar)) : list (Z * list scalar) :=
  match sites with
  | [] => []
  | s :: rest =>
      if existsb nonzero s then (i, s) :: active_sites (i + 1) rest
      else active_sites (i + 1) rest
  end.

Definition from_dense (x : Dense) : SparseConvTensor :=
  let '(N, H, W, C) := d_shape x in
  let act := active_sites 0 (d_sites x) in
  SparseConvTensor_init (mkTensor2 (act.*2) C) (unravel H W <$> act.*1) (H, W) N.

(** The invariant of a sparse view (section 3), as a check. *)
Definition check_view (x : SparseConvTensor) : bool :=
  let '(H, W) := spatial_shape x in
  let N := batch_size x in
  let C := t2_cols (features x) in
  (0 <=? N) && (0 <=? H) && (0 <=? W) && (0 <=? C) &&
  (length (t2_rows (features x)) =? length (indices x))%nat &&
  forallb (λ r, (length r =? Z.to_nat C)%nat) (t2_rows (features x)) &&
  forallb (in_range N H W) (indices x).

Definition scatter (base : list (list scalar)) (H W : Z)
    (idx : list coord) (rows : list (list scalar)) : list (list scalar) :=
  foldl (λ acc p, <[Z.to_nat (ravel H W p.1) := p.2]> acc) base (zip idx rows).

(** Modelled from the spec: [ToDense] / [SparseConvTensor.dense] (not part of
    the example file).  Section 4.1: scatter [features] into a
    zero-initialised dense tensor of shape [[batch_size, H, W, channels]]
    indexed by [coordinates]; two colliding coordinates are the
    DuplicateCoordinate error.  A view that breaks the invariant of section 3
    (a coordinate out of the grid, a feature row of the wrong width) is
    reported as ShapeMismatch. *)
Definition ToDense_forward (x : SparseConvTensor) : result Dense :=
  let '(H, W) := spatial_shape x in
  let N := batch_size x in
  let C := t2_cols (features x) in
  if negb (check_view x) then raise ShapeMismatch
  else if negb (bool_decide (NoDup (indices x))) then raise DuplicateCoordinate
  else ok (mkDense (N, H, W, C)
             (scatter (replicate (Z.to_nat (N * H * W)) (replicate (Z.to_nat C) f0))
                H W (indices x) (t2_rows (features x)))).

(** [wf_Dense] as a check. *)
Definition check_dense (d : Dense) : bool :=
  let '(N, H, W, C) := d_shape d in
  (0 <=? N) && (0 <=? H) && (0 <=? W) && (0 <=? C) &&
  (length (d_sites d) =? Z.to_nat (N * H * W))%nat &&
  forallb (λ s, (length s =? Z.to_nat C)%nat) (d_sites d).

(** A well-formed view of [N] samples over an [Hh] x [Ww] grid with [C]
    channels and no repeated coordinate. *)
Definition view_sig (N Hh Ww C : Z) (x : SparseConvTensor) : Prop :=
  check_view x = true ∧ NoDup (indices x) ∧
  batch_size x = N ∧ spatial_shape x = (Hh, Ww) ∧ t2_cols (features x) = C.

End Tensors.

(** ** Sparse convolution *)

Section Convolution.
Context `{Scalar}.

Record ConvCfg := mkConvCfg {
  in_channels : Z;
  out_channels : Z;
  kernel_size : Z;
  stride : Z;
  padding : Z;
  groups : Z
}.

(** A convolution weight, indexed by kernel offset [(ky, kx)], output channel
    and input channel. *)
Definition kernel : Type := Z → Z → nat → nat → scalar.

Fixpoint dot (w : nat → scalar) (i : nat) (xs : list scalar) : scalar :=
  match xs with
  | [] => f0
  | x :: rest => fadd (fmul (w i) x) (dot w (S i) rest)
  end.

Definition matvec (w : nat → nat → scalar) (out : Z) (x : list scalar) : list scalar :=
  (λ o, dot (w o) 0%nat x) <$> seq 0 (Z.to_nat out).

Definition vadd (a b : list scalar) : list scalar := zip_with fadd a b.

Definition kernel_offsets (k : Z) : list (Z * Z) :=
  ky ← seqZ 0 k; kx ← seqZ 0 k; [(ky, kx)].

Fixpoint find_site (c : coord) (idx : list coord) (rows : list (list scalar))
    : option (list scalar) :=
  match idx, rows with
  | c' :: idx', r :: rows' => if decide (c' = c) then Some r else find_site c idx' rows'
  | _, _ => None
  end.

(** Modelled from the spec: the output extent of a strided stage (the
    convolution layers are spconv's, not part of the example file).  Section
    4.2: [H' = floor((H + 2*padding - kernel_size)/stride) + 1]. *)
Definition conv_out_size (size k s p : Z) : Z := (size + 2 * p - k) / s + 1.

(** Modelled from the spec: the stage's input check.  Section 4.2: the stage
    fails with ShapeMismatch if [in_channels] does not match the view, or if
    [spatial_shape] indicates a size below [kernel_size - padding]. *)
Definition check_conv_input (cfg : ConvCfg) (x : SparseConvTensor) : bool :=
  let '(H, W) := spatial_shape x in
  (t2_cols (features x) =? in_channels cfg) &&
  (kernel_size cfg - padding cfg <=? H) && (kernel_size cfg - padding cfg <=? W).

(** Modelled from the spec: the arithmetic of a sparse convolution (section
    4.2).  The feature of output site [o] is the weighted sum over the kernel's
    receptive field, where only the active input sites contribute.  With
    stride [s] and padding [p], kernel offset [(ky, kx)] of output [(oy, ox)]
    reads input [(oy * s - p + ky, ox * s - p + kx)]. *)
Definition conv_at (cfg : ConvCfg) (s : Z) (w : kernel) (bias : option (nat → scalar))
    (x : SparseConvTensor) (o : coord) : list scalar :=
  let '(b, oy, ox) := o in
  let acc :=
    foldl (λ acc k,
             match find_site (b, oy * s - padding cfg + k.1, ox * s - padding cfg + k.2)
                     (indices x) (t2_rows (features x)) with
             | Some f => vadd acc (matvec (w k.1 k.2) (out_channels cfg) f)
             | None => acc
             end)
          (replicate (Z.to_nat (out_channels cfg)) f0)
          (kernel_offsets (kernel_size cfg)) in
  match bias with
  | Some bv => imap (λ c v, fadd v (bv c)) acc
  | None => acc
  end.

(** Modelled from the spec: [SubMConv2d] (spconv's layer, not part of the
    example file).  Section 4.2, submanifold mode: the output occupies the
    input's coordinates; each active site gathers the active sites of its
    receptive field and applies the weights. *)
Definition SubMConv2d_forward (cfg : ConvCfg) (w : kernel) (bias : option (nat → scalar))
    (x : SparseConvTensor) : result SparseConvTensor :=
  if check_conv_input cfg x then
    ok (SparseConvTensor_init
          (mkTensor2 (conv_at cfg 1 w bias x <$> indices x) (out_channels cfg))
          (indices x) (spatial_shape x) (batch_size x))
  else raise ShapeMismatch.

(** The output sites that input site [c] reaches: [(oy, ox)] with
    [oy * s - p + ky = y] for some kernel offset, inside the output grid. *)
Definition out_candidates (cfg : ConvCfg) (H' W' : Z) (c : coord) : list coord :=
  let '(b, y, x) := c in
  k ← kernel_offsets (kernel_size cfg);
  let ty := y + padding cfg - k.1 in
  let tx := x + padding cfg - k.2 in
  if (ty mod stride cfg =? 0) && (tx mod stride cfg =? 0) &&
     (0 <=? ty / stride cfg) && (ty / stride cfg <? H') &&
     (0 <=? tx / stride cfg) && (tx / stride cfg <? W')
  then [(b, ty / stride cfg, tx / stride cfg)] else [].

(** Modelled from the spec: [SparseConv2d] (spconv's layer, not part of the
    example file).  Section 4.2, strided mode: the output grid is
    [(H', W')]; exactly the sites with an active input in their receptive
    field appear in the output, each once. *)
Definition SparseConv2d_forward (cfg : ConvCfg) (w : kernel) (bias : option (nat → scalar))
    (x : SparseConvTensor) : result SparseConvTensor :=
  if check_conv_input cfg x then
    let '(H, W) := spatial_shape x in
    let H' := conv_out_size H (kernel_size cfg) (stride cfg) (padding cfg) in
    let W' := conv_out_size W (kernel_size cfg) (stride cfg) (padding cfg) in
    let out_idx := remove_dups (indices x ≫= out_candidates cfg H' W') in
    ok (SparseConvTensor_init
          (mkTensor2 (conv_at cfg (stride cfg) w bias x <$> out_idx) (out_channels cfg))
          out_idx (H', W') (batch_size x))
  else raise ShapeMismatch.

(** The coordinates [SparseConv2d_forward] gives its output over an [H] x [W]
    input grid: the sites that some active input reaches, each once. *)
Definition strided_sites (cfg : ConvCfg) (H W : Z) (idx : list coord) : list coord :=
  remove_dups (idx ≫= out_candidates cfg
                 (conv_out_size H (kernel_size cfg) (stride cfg) (padding cfg))
                 (conv_out_size W (kernel_size cfg) (stride cfg) (padding cfg))).

End Convolution.

(** ** The torch layers *)

(** The random generator behind dropout: [dropout_mask p rows cols g] draws
    the multiplicative mask (entries [0] or [1/(1-p)]) and advances the
    generator. *)
Class RandomSource `{Scalar} := {
  rng : Type;
  dropout_mask : scalar → nat → nat → rng → list (list scalar) * rng
}.

Definition ZRandom : @RandomSource ZScalar := {|
  rng := Z;
  dropout_mask := fun (p : @scalar ZScalar) rows cols g =>
    (replicate rows (replicate cols (g mod 2)), g + 1)
|}.

Section Layers.
Context `{Scalar} `{!RandomSource}.

(** [nn.BatchNorm1d]: the affine parameters and the running statistics. *)
Record BNState := mkBN {
  bn_weight : nat → scalar;
  bn_bias : nat → scalar;
  running_mean : nat → scalar;
  running_var : nat → scalar;
  num_batches_tracked : Z
}.

Definition col_sum (g : scalar → scalar) (c : nat) (rows : list (list scalar)) : scalar :=
  foldr (λ r acc, fadd (g (nth c r f0)) acc) f0 rows.

Definition bn_normalize (st : BNState) (mu var : nat → scalar) (row : list scalar)
    : list scalar :=
  imap (λ c v,
          fadd (fmul (fdiv (fsub v (mu c)) (fsqrt (fadd (var c) (fliteral 1 (-5)))))
                     (bn_weight st c))
               (bn_bias st c)) row.

(** In training the layer normalises with the statistics of the batch and
    moves the running statistics towards them; in evaluation it normalises
    with the running statistics and leaves them alone.  A training batch of a
    single row is torch's ValueError. *)
Definition BatchNorm1d_forward (training : bool) (num_features : Z) (momentum : scalar)
    (st : BNState) (x : Tensor2) : BNState * result Tensor2 :=
  if negb (t2_cols x =? num_features) then (st, raise RuntimeError)
  else if training then
    if (length (t2_rows x) =? 1)%nat then (st, raise ValueError)
    else
      let n := Z.of_nat (length (t2_rows x)) in
      let mean c := fdiv (col_sum (λ v, v) c (t2_rows x)) (fof_Z n) in
      let sq c := col_sum (λ v, fmul (fsub v (mean c)) (fsub v (mean c))) c (t2_rows x) in
      let var c := fdiv (sq c) (fof_Z n) in
      let unbiased c := fdiv (sq c) (fof_Z (n - 1)) in
      let keep := fsub (fof_Z 1) momentum in
      (mkBN (bn_weight st) (bn_bias st)
            (λ c, fadd (fmul keep (running_mean st c)) (fmul momentum (mean c)))
            (λ c, fadd (fmul keep (running_var st c)) (fmul momentum (unbiased c)))
            (num_batches_tracked st + 1),
       ok (mkTensor2 (bn_normalize st mean var <$> t2_rows x) (t2_cols x)))
  else
    (st, ok (mkTensor2 (bn_normalize st (running_mean st) (running_var st) <$> t2_rows x)
               (t2_cols x))).

Definition relu (row : list scalar) : list scalar := fmax f0 <$> row.

Definition Linear_forward (in_features out_features : Z)
    (w : nat → nat → scalar) (b : nat → scalar) (x : Tensor2) : result Tensor2 :=
  if t2_cols x =? in_features then
    ok (mkTensor2
          ((λ r, (λ o, fadd (dot (w o) 0%nat r) (b o)) <$> seq 0 (Z.to_nat out_features))
             <$> t2_rows x)
          out_features)
  else raise RuntimeError.

Definition Dropout2d_forward (training : bool) (p : scalar) (x : Tensor2) (g : rng)
    : Tensor2 * rng :=
  if training then
    let '(mask, g') := dropout_mask p (length (t2_rows x)) (Z.to_nat (t2_cols x)) g in
    (mkTensor2 (zip_with (zip_with fmul) (t2_rows x) mask) (t2_cols x), g')
  else (x, g).

(** A min/max observer of the quantization pipeline: it widens its running
    range with every scalar flowing past and returns its input. *)
Definition observe (range : option (scalar * scalar)) (vals : list scalar)
    : option (scalar * scalar) :=
  foldl (λ r v, match r with
                | None => Some (v, v)
                | Some (lo, hi) => Some (fmin lo v, fmax hi v)
                end) range vals.

(** [F.log_softmax(x, dim=1)]. *)
Definition log_softmax (x : Tensor2) : Tensor2 :=
  mkTensor2
    ((λ r, let lse := flog (foldr (λ v acc, fadd (fexp v) acc) f0 r) in
           (λ v, fsub v lse) <$> r) <$> t2_rows x)
    (t2_cols x).

(** ** Modules *)

(** The layers the example instantiates, each with the tensors it owns. *)
Inductive module :=
| SubMConv2d (cfg : ConvCfg) (weight : kernel) (bias : option (nat → scalar))
| SparseConv2d (cfg : ConvCfg) (weight : kernel) (bias : option (nat → scalar))
| ToDense
| SparseSequential (children : list module)
| BatchNorm1d (num_features : Z) (momentum : scalar) (st : BNState)
| ReLU
| Linear (in_features out_features : Z) (weight : nat → nat → scalar) (bias : nat → scalar)
| Dropout2d (p : scalar)
| QuantStub
| DeQuantStub
| Observer (range : option (scalar * scalar)).

(** What flows between modules. *)
Inductive value :=
| VSparse (x : SparseConvTensor)
| VDense (d : Dense)
| VTensor (t : Tensor2).

Definition value_scalars (v : value) : list scalar :=
  match v with
  | VSparse x => concat (t2_rows (features x))
  | VDense d => concat (d_sites d)
  | VTensor t => concat (t2_rows t)
  end.

Definition is_spconv_module (m : module) : bool :=
  match m with
  | SubMConv2d _ _ _ | SparseConv2d _ _ _ | ToDense | SparseSequential _ => true
  | _ => false
  end.

(** A module call returns the module with its updated buffers, the advanced
    generator and the output or the exception. *)
Definition outcome : Type := module * rng * result value.

(** Modelled from the spec: how [SparseSequential] (spconv's container, not
    part of the example file) feeds a plain torch layer, as the fused
    normalization and activation of section 4.2: a sparse tensor hands over
    its feature matrix and takes the result back as its features. *)
Definition on_features (fwd : value → rng → outcome) (x : value) (g : rng) : outcome :=
  match x with
  | VSparse s =>
      let '(m', g', r) := fwd (VTensor (features s)) g in
      (m', g',
       t <- r ;;
       match t with
       | VTensor f => ok (VSparse (replace_feature s f))
       | _ => raise TypeError
       end)
  | _ => fwd x g
  end.

(** Modelled from the spec: [SparseSequential.forward], a sequential
    composition (section 4.3).  The children run in order; the first exception
    stops the run and leaves the remaining children untouched. *)
Definition seq_forward (fwd : module → value → rng → outcome)
    : list module → value → rng → list module * rng * result value :=
  fix go ms x g :=
    match ms with
    | [] => ([], g, ok x)
    | m :: rest =>
        let '(m', g', r) := fwd m x g in
        match r with
        | inl e => (m' :: rest, g', inl e)
        | inr y => let '(rest', g'', r') := go rest y g' in (m' :: rest', g'', r')
        end
    end.

Fixpoint module_forward (training : bool) (m : module) (x : value) (g : rng)
    {struct m} : outcome :=
  match m with
  | SubMConv2d cfg w b =>
      (m, g, match x with
             | VSparse s => y <- SubMConv2d_forward cfg w b s ;; ok (VSparse y)
             | _ => raise TypeError
             end)
  | SparseConv2d cfg w b =>
      (m, g, match x with
             | VSparse s => y <- SparseConv2d_forward cfg w b s ;; ok (VSparse y)
             | _ => raise TypeError
             end)
  | ToDense =>
      (m, g, match x with
             | VSparse s => d <- ToDense_forward s ;; ok (VDense d)
             | _ => raise TypeError
             end)
  | SparseSequential ms =>
      let '(ms', g', r) :=
        seq_forward (λ c x g, if is_spconv_module c then module_forward training c x g
                               else on_features (module_forward training c) x g) ms x g in
      (SparseSequential ms', g', r)
  | BatchNorm1d nf mom st =>
      match x with
      | VTensor t =>
          let '(st', r) := BatchNorm1d_forward training nf mom st t in
          (BatchNorm1d nf mom st', g, y <- r ;; ok (VTensor y))
      | _ => (m, g, raise TypeError)
      end
  | ReLU =>
      (m, g, match x with
             | VTensor t => ok (VTensor (mkTensor2 (relu <$> t2_rows t) (t2_cols t)))
             | VDense d => ok (VDense (mkDense (d_shape d) (relu <$> d_sites d)))
             | VSparse _ => raise TypeError
             end)
  | Linear i o w b =>
      (m, g, match x with
             | VTensor t => y <- Linear_forward i o w b t ;; ok (VTensor y)
             | _ => raise TypeError
             end)
  | Dropout2d p =>
      match x with
      | VTensor t => let '(y, g') := Dropout2d_forward training p t g in (m, g', ok (VTensor y))
      | _ => (m, g, raise TypeError)
      end
  | QuantStub | DeQuantStub => (m, g, ok x)
  | Observer range => (Observer (observe range (value_scalars x)), g, ok x)
  end.

(** The learnable tensors of a module tree ([model.parameters()]). *)
Inductive tensor_data :=
| TKernel (w : kernel)
| TMatrix (w : nat → nat → scalar)
| TVector (v : nat → scalar).

Definition conv_parameters (w : kernel) (bias : option (nat → scalar)) : list tensor_data :=
  TKernel w :: match bias with Some b => [TVector b] | None => [] end.

Fixpoint parameters (m : module) : list tensor_data :=
  match m with
  | SubMConv2d _ w b | SparseConv2d _ w b => conv_parameters w b
  | SparseSequential ms =>
      (fix go ms := match ms with [] => [] | c :: rest => parameters c ++ go rest end) ms
  | BatchNorm1d _ _ st => [TVector (bn_weight st); TVector (bn_bias st)]
  | Linear _ _ w b => [TMatrix w; TVector b]
  | _ => []
  end.

(** The batch-norm buffers of a module tree: running mean, running variance
    and the batch counter of every [BatchNorm1d]. *)
Fixpoint bn_buffers (m : module) : list ((nat → scalar) * (nat → scalar) * Z) :=
  match m with
  | SparseSequential ms =>
      (fix go ms := match ms with [] => [] | c :: rest => bn_buffers c ++ go rest end) ms
  | BatchNorm1d _ _ st => [(running_mean st, running_var st, num_batches_tracked st)]
  | _ => []
  end.

(** The running ranges of the observers of a module tree. *)
Fixpoint observers (m : module) : list (option (scalar * scalar)) :=
  match m with
  | SparseSequential ms =>
      (fix go ms := match ms with [] => [] | c :: rest => observers c ++ go rest end) ms
  | Observer r => [r]
  | _ => []
  end.

(** The module tree with every observer emptied: everything but the
    observers' running statistics. *)
Fixpoint reset_observers (m : module) : module :=
  match m with
  | SparseSequential ms =>
      SparseSequential
        ((fix go ms := match ms with [] => [] | c :: rest => reset_observers c :: go rest end) ms)
  | Observer _ => Observer None
  | _ => m
  end.

(** The module tree with every batch-norm buffer and every observer cleared:
    everything but the running statistics. *)
Fixpoint reset_buffers (m : module) : module :=
  match m with
  | SparseSequential ms =>
      SparseSequential
        ((fix go ms := match ms with [] => [] | c :: rest => reset_buffers c :: go rest end) ms)
  | BatchNorm1d nf mom st =>
      BatchNorm1d nf mom (mkBN (bn_weight st) (bn_bias st) (λ _, f0) (λ _, f0) 0)
  | Observer _ => Observer None
  | _ => m
  end.

(** Every module of a tree, the root first ([model.modules()]). *)
Fixpoint submodules (m : module) : list module :=
  m :: match m with
       | SparseSequential ms =>
           (fix go ms := match ms with [] => [] | c :: rest => submodules c ++ go rest end) ms
       | _ => []
       end.

Definition is_linear (m : module) : bool :=
  match m with Linear _ _ _ _ => true | _ => false end.

Definition is_dropout (m : module) : bool :=
  match m with Dropout2d _ => true | _ => false end.

(** The convolution a stage starts with: the layer itself, or the first
    child of a conv-bn-relu stage. *)
Definition stage_conv (m : module) : option (bool * ConvCfg) :=
  match m with
  | SubMConv2d cfg _ _ | SparseSequential (SubMConv2d cfg _ _ :: _) => Some (true, cfg)
  | SparseConv2d cfg _ _ | SparseSequential (SparseConv2d cfg _ _ :: _) => Some (false, cfg)
  | _ => None
  end.

Definition is_submanifold_stage (m : module) : bool :=
  match stage_conv m with Some (true, _) => true | _ => false end.

Definition is_strided_stage (s : Z) (m : module) : bool :=
  match stage_conv m with Some (false, cfg) => stride cfg =? s | _ => false end.

(** Two runs are related when they give the same output, the first leaves
    the generator [g1] alone and changes its module [m1] in the observers
    only. *)
Definition eval_rel (m1 : module) (g1 : rng) (o1 o2 : outcome) : Prop :=
  o1.2 = o2.2 ∧ o1.1.2 = g1 ∧ reset_observers o1.1.1 = reset_observers m1.

Definition eval_ok (m1 : module) : Prop :=
  ∀ m2 x g1 g2, reset_observers m1 = reset_observers m2 →
    eval_rel m1 g1 (module_forward false m1 x g1) (module_forward false m2 x g2).

Definition dense_sig (N Hh Ww C : Z) (v : value) : Prop :=
  ∃ d, v = VDense d ∧ wf_Dense d ∧ d_shape d = (N, Hh, Ww, C).

(** What a run over a well-formed view ends in, given whether a training
    batch norm on the way is handed a single row: its ValueError, or a value
    satisfying [good]. *)
Definition ends_in (single_row : bool) (good : value → Prop) (r : result value) : Prop :=
  if single_row then r = inl ValueError else ∃ v, r = ok v ∧ good v.

Definition sparse_at (N Hh Ww C : Z) (idx : list coord) (v : value) : Prop :=
  ∃ y, v = VSparse y ∧ view_sig N Hh Ww C y ∧ indices y = idx.

Definition count (p : module → bool) (ms : list module) : nat :=
  length (List.filter p ms).

Definition children (m : module) : list module :=
  match m with SparseSequential ms => ms | _ => [] end.

End Layers.

(** ** The stages and networks of the example *)

Section Networks.
Context `{Scalar} `{!RandomSource}.

(** The configuration a stage hands to its convolution, with the padding the
    stage derives from the kernel size. *)
Definition stage_cfg (in_planes out_planes kernel_size stride groups : Z) : ConvCfg :=
  mkConvCfg in_planes out_planes kernel_size stride ((kernel_size - 1) / 2) groups.

(** [SubMConvBNReLU(in_planes, out_planes, kernel_size=3, stride=1,
    groups=1)]; the weight and the batch-norm state are what the constructor
    allocates. *)
Definition SubMConvBNReLU (in_planes out_planes kernel_size stride groups : Z)
    (w : kernel) (bn : BNState) : module :=
  let padding := (kernel_size - 1) / 2 in
  SparseSequential
    [SubMConv2d (mkConvCfg in_planes out_planes kernel_size stride padding groups) w None;
     BatchNorm1d out_planes (fliteral 1 (-1)) bn;
     ReLU].

(** [SparseConvBNReLU(in_planes, out_planes, kernel_size=3, stride=1,
    groups=1)]. *)
Definition SparseConvBNReLU (in_planes out_planes kernel_size stride groups : Z)
    (w : kernel) (bn : BNState) : module :=
  let padding := (kernel_size - 1) / 2 in
  SparseSequential
    [SparseConv2d (mkConvCfg in_planes out_planes kernel_size stride padding groups) w None;
     BatchNorm1d out_planes (fliteral 1 (-1)) bn;
     ReLU].

(** [torch.flatten(x, 1)]: everything after the batch dimension in one row. *)
Definition flatten (x : value) : result Tensor2 :=
  match x with
  | VDense d =>
      let '(N, H, W, C) := d_shape d in
      let hw := Z.to_nat (H * W) in
      ok (mkTensor2
            ((λ b, concat (take hw (drop (b * hw)%nat (d_sites d)))) <$> seq 0 (Z.to_nat N))
            (H * W * C))
  | VTensor t => ok t
  | VSparse _ => raise TypeError
  end.

Definition as_tensor (r : result value) : result Tensor2 :=
  v <- r ;; match v with VTensor t => ok t | _ => raise TypeError end.

(** The tensors a freshly built or trained float network holds: the
    convolution weight and the batch-norm state of stage [i], the bias of the
    bare final convolution, and the two linear layers. *)
Record Weights := mkWeights {
  conv_weight : nat → kernel;
  conv_bn : nat → BNState;
  last_bias : option (nat → scalar);
  fc1_weight : nat → nat → scalar;
  fc1_bias : nat → scalar;
  fc2_weight : nat → nat → scalar;
  fc2_bias : nat → scalar
}.

(** The next call of a forward body: skipped, with the module untouched, once
    an earlier call has raised. *)
Definition step (training : bool) (m : module) (r : result value) (g : rng) : outcome :=
  match r with
  | inl e => (m, g, inl e)
  | inr x => module_forward training m x g
  end.

Definition relu_value (r : result value) : result value :=
  x <- as_tensor r ;; ok (VTensor (mkTensor2 (relu <$> t2_rows x) (t2_cols x))).

Definition flatten_value (r : result value) : result value :=
  x <- r ;; t <- flatten x ;; ok (VTensor t).

Definition log_softmax_value (r : result value) : result Tensor2 :=
  x <- as_tensor r ;; ok (log_softmax x).

(** ** Element types and autocast *)

Inductive dtype := float16 | float32.

Definition dtype_is (a b : dtype) : bool :=
  match a, b with
  | float16, float16 | float32, float32 => true
  | _, _ => false
  end.

(** How an op behaves inside [torch.cuda.amp.autocast()], after torch's
    autocast op reference: it runs in float16, it runs in float32, or it is
    unlisted and runs in the type of its input. *)
Inductive cast_policy := to_float16 | to_float32 | keep_input.

Inductive torch_op :=
| OpQuantStub
| OpSparseNet
| OpFlatten
| OpDeQuantStub
| OpLinear
| OpReLU
| OpDropout
| OpLogSoftmax
| OpNllLoss.

(** [log_softmax] and [nll_loss] are on torch's float32 list, [linear] on the
    float16 list; the policy of spconv's layers is left open
    ([sparse_policy]). *)
Definition autocast_policy (sparse_policy : cast_policy) (op : torch_op) : cast_policy :=
  match op with
  | OpLogSoftmax | OpNllLoss => to_float32
  | OpLinear => to_float16
  | OpSparseNet => sparse_policy
  | OpQuantStub | OpFlatten | OpDeQuantStub | OpReLU | OpDropout => keep_input
  end.

Definition op_dtype (autocast : bool) (sparse_policy : cast_policy) (op : torch_op)
    (input : dtype) : dtype :=
  if autocast then
    match autocast_policy sparse_policy op with
    | to_float16 => float16
    | to_float32 => float32
    | keep_input => input
    end
  else input.

(** A batch as the data loader yields it: a contiguous float tensor. *)
Record Tensor := mkTensor {
  t_dtype : dtype;
  t_shape : list Z;
  t_data : list scalar
}.

(** A Python argument of a model call. *)
Inductive arg :=
| ARaw (t : Tensor)
| ADense (d : Dense)
| ASparse (x : SparseConvTensor)
| ATensor (t : Tensor2)
| AIndices (i : list coord)
| AInt (n : Z).

End Networks.

(** *** [class Net] *)
Module Net.
Section Net.
Context `{Scalar} `{!RandomSource}.

Record t := mk {
  training : bool;
  net : module;
  fc1 : module;
  fc2 : module;
  dropout1 : module;
  dropout2 : module;
  quant : module;
  dequant : module
}.

Definition init (w : Weights) : t :=
  mk true
     (SparseSequential
        [SubMConvBNReLU 1 32 3 1 1 (conv_weight w 0%nat) (conv_bn w 0%nat);
         SubMConvBNReLU 32 64 3 1 1 (conv_weight w 1%nat) (conv_bn w 1%nat);
         SparseConvBNReLU 64 64 2 2 1 (conv_weight w 2%nat) (conv_bn w 2%nat);
         ToDense])
     (Linear (14 * 14 * 64) 128 (fc1_weight w) (fc1_bias w))
     (Linear 128 10 (fc2_weight w) (fc2_bias w))
     (Dropout2d (fliteral 25 (-2)))
     (Dropout2d (fliteral 5 (-1)))
     QuantStub DeQuantStub.

(** The lines shared by [Net.forward] and [NetV2.forward] once the sparse
    tensor is at hand: [net], flatten, dropout1, fc1, relu, dropout2, fc2. *)
Definition trunk (self : t) (x_sp : SparseConvTensor) (g : rng) : t * rng * result value :=
  let tr := training self in
  let '(net', g, x) := module_forward tr (net self) (VSparse x_sp) g in
  let x := flatten_value x in
  let '(dropout1', g, x) := step tr (dropout1 self) x g in
  let '(fc1', g, x) := step tr (fc1 self) x g in
  let x := relu_value x in
  let '(dropout2', g, x) := step tr (dropout2 self) x g in
  let '(fc2', g, x) := step tr (fc2 self) x g in
  (mk tr net' fc1' fc2' dropout1' dropout2' (quant self) (dequant self), g, x).

(** [Net.forward(self, x_sp)]. *)
Definition forward (self : t) (x_sp : SparseConvTensor) (g : rng) : t * rng * result Tensor2 :=
  let '(self, g, x) := trunk self x_sp g in
  (self, g, log_softmax_value x).

Definition set_training (tr : bool) (self : t) : t :=
  mk tr (net self) (fc1 self) (fc2 self) (dropout1 self) (dropout2 self)
     (quant self) (dequant self).

(** [model.eval()] and [model.train()]. *)
Definition eval (self : t) : t := set_training false self.
Definition train (self : t) : t := set_training true self.

(** [model(x_sp)]: one positional argument, used as a sparse tensor. *)
Definition call (self : t) (args : list arg) (g : rng) : t * rng * result Tensor2 :=
  match args with
  | [ASparse x_sp] => forward self x_sp g
  | _ => (self, g, raise TypeError)
  end.

Definition modules (self : t) : list module :=
  submodules (net self) ++ submodules (fc1 self) ++ submodules (fc2 self) ++
  submodules (dropout1 self) ++ submodules (dropout2 self) ++
  submodules (quant self) ++ submodules (dequant self).

End Net.
End Net.

(** *** [class NetV2] *)
Module NetV2.
Section NetV2.
Context `{Scalar} `{!RandomSource}.

(** [NetV2.__init__] allocates the same attributes as [Net.__init__]. *)
Definition t : Type := Net.t.
Definition init (w : Weights) : t := Net.init w.

(** [NetV2.forward(self, features, indices, batch_size)]: [self.quant] is
    applied to the features, but the sparse tensor is built from the
    [features] argument itself. *)
Definition forward (self : t) (features : Tensor2) (indices : list coord) (batch_size : Z)
    (g : rng) : t * rng * result Tensor2 :=
  let tr := Net.training self in
  let '(quant', g, x) := module_forward tr (Net.quant self) (VTensor features) g in
  let self := Net.mk tr (Net.net self) (Net.fc1 self) (Net.fc2 self)
                     (Net.dropout1 self) (Net.dropout2 self) quant' (Net.dequant self) in
  match x with
  | inl e => (self, g, inl e)
  | inr _ =>
      let x_sp := SparseConvTensor_init features indices (28, 28) batch_size in
      let '(self, g, x) := Net.trunk self x_sp g in
      let '(dequant', g, x) := step tr (Net.dequant self) x g in
      (Net.mk tr (Net.net self) (Net.fc1 self) (Net.fc2 self)
              (Net.dropout1 self) (Net.dropout2 self) (Net.quant self) dequant',
       g, log_softmax_value x)
  end.

Definition call (self : t) (args : list arg) (g : rng) : t * rng * result Tensor2 :=
  match args with
  | [ATensor features; AIndices indices; AInt batch_size] =>
      forward self features indices batch_size g
  | _ => (self, g, raise TypeError)
  end.

End NetV2.
End NetV2.

(** *** [class NetPTQ] *)
Module NetPTQ.
Section NetPTQ.
Context `{Scalar} `{!RandomSource}.

Record t := mk {
  training : bool;
  net : module;
  quant : module;
  dequant : module
}.

Definition init (w : Weights) : t :=
  mk true
     (SparseSequential
        [SubMConvBNReLU 1 32 3 1 1 (conv_weight w 0%nat) (conv_bn w 0%nat);
         SubMConvBNReLU 32 64 3 1 1 (conv_weight w 1%nat) (conv_bn w 1%nat);
         SparseConvBNReLU 64 64 2 2 1 (conv_weight w 2%nat) (conv_bn w 2%nat);
         SparseConvBNReLU 64 64 2 2 1 (conv_weight w 3%nat) (conv_bn w 3%nat);
         SparseConvBNReLU 64 64 3 2 1 (conv_weight w 4%nat) (conv_bn w 4%nat);
         SparseConv2d (mkConvCfg 64 10 4 4 0 1) (conv_weight w 5%nat) (last_bias w);
         ToDense])
     QuantStub DeQuantStub.

(** [NetPTQ.forward(self, features, indices, batch_size)]: quant, the sparse
    tensor over the fixed [28, 28] grid, [net], flatten, dequant,
    log_softmax. *)
Definition forward (self : t) (features : Tensor2) (indices : list coord) (batch_size : Z)
    (g : rng) : t * rng * result Tensor2 :=
  let tr := training self in
  let '(quant', g, x) := module_forward tr (quant self) (VTensor features) g in
  match as_tensor x with
  | inl e => (mk tr (net self) quant' (dequant self), g, inl e)
  | inr features =>
      let x_sp := SparseConvTensor_init features indices (28, 28) batch_size in
      let '(net', g, x) := module_forward tr (net self) (VSparse x_sp) g in
      let x := flatten_value x in
      let '(dequant', g, x) := step tr (dequant self) x g in
      (mk tr net' quant' dequant', g, log_softmax_value x)
  end.

(** The element type of the output of [forward], op by op. *)
Definition forward_dtype (autocast : bool) (sparse_policy : cast_policy) (input : dtype)
    : dtype :=
  foldl (λ d op, op_dtype autocast sparse_policy op d) input
        [OpQuantStub; OpSparseNet; OpFlatten; OpDeQuantStub; OpLogSoftmax].

(** [model(...)]: the three positional arguments of [forward]; any other
    argument list is rejected. *)
Definition call (self : t) (args : list arg) (g : rng) : t * rng * result Tensor2 :=
  match args with
  | [ATensor features; AIndices indices; AInt batch_size] =>
      forward self features indices batch_size g
  | _ => (self, g, raise TypeError)
  end.

Definition set_training (tr : bool) (self : t) : t :=
  mk tr (net self) (quant self) (dequant self).

(** [model.eval()] and [model.train()]. *)
Definition eval (self : t) : t := set_training false self.
Definition train (self : t) : t := set_training true self.

Definition parameters (self : t) : list tensor_data :=
  parameters (net self) ++ parameters (quant self) ++ parameters (dequant self).

Definition bn_buffers (self : t) :=
  bn_buffers (net self) ++ bn_buffers (quant self) ++ bn_buffers (dequant self).

Definition observers (self : t) :=
  observers (net self) ++ observers (quant self) ++ observers (dequant self).

Definition modules (self : t) : list module :=
  submodules (net self) ++ submodules (quant self) ++ submodules (dequant self).

Definition reset_observers (self : t) : t :=
  mk (training self) (reset_observers (net self)) (reset_observers (quant self))
     (reset_observers (dequant self)).

(** The network with its batch-norm buffers and observers cleared. *)
Definition reset_buffers (self : t) : t :=
  mk (training self) (reset_buffers (net self)) (reset_buffers (quant self))
     (reset_buffers (dequant self)).

(** The number of rows each of the five batch norms of the network is handed,
    for a view over the 28 x 28 grid with coordinates [indices]: the two
    submanifold stages keep the coordinates, and each strided stage hands its
    batch norm, and the next stage, the sites its convolution reaches. *)
Definition bn_rows (indices : list coord) : list nat :=
  let i3 := strided_sites (stage_cfg 64 64 2 2 1) 28 28 indices in
  let i4 := strided_sites (stage_cfg 64 64 2 2 1) 14 14 i3 in
  let i5 := strided_sites (stage_cfg 64 64 3 2 1) 7 7 i4 in
  length <$> [indices; indices; i3; i4; i5].

End NetPTQ.
End NetPTQ.

(** ** The loops *)

(** What the loops take from outside: the optimizer and the gradient scaler.
    [backward_step] is [loss.backward(); optimizer.step()], [scaled_step] is
    [scaler.scale(loss).backward(); scaler.step(optimizer); scaler.update()];
    both see the model, the batch and the loss of the forward pass. *)
Class Collaborators `{Scalar} `{!RandomSource} := {
  optimizer : Type;
  grad_scaler : Type;
  zero_grad : optimizer → optimizer;
  backward_step :
    optimizer → NetPTQ.t → Tensor → list Z → scalar → optimizer * NetPTQ.t;
  scaled_step :
    grad_scaler → optimizer → NetPTQ.t → Tensor → list Z → scalar →
    grad_scaler * optimizer * NetPTQ.t
}.

Definition ZCollaborators : @Collaborators ZScalar ZRandom := {|
  optimizer := Z;
  grad_scaler := Z;
  zero_grad := fun o => o;
  backward_step := fun o m _ _ _ => (o + 1, m);
  scaled_step := fun s o m _ _ _ => (s * 2, o + 1, m)
|}.

Section Loops.
Context `{Scalar} `{!RandomSource} `{!Collaborators}.

Record Args := mkArgs {
  sparse : bool;
  fp16 : bool;
  log_interval : Z
}.

(** [data.reshape(-1, 28, 28, 1)]: the element count has to be a multiple of
    28 * 28, and the first dimension is the quotient; a tensor without
    elements is taken, with shape [[0, 28, 28, 1]]. *)
Definition reshape_28_28_1 (data : Tensor) : result Dense :=
  let n := Z.of_nat (length (t_data data)) in
  if n mod 784 =? 0 then ok (mkDense (n / 784, 28, 28, 1) ((λ v, [v]) <$> t_data data))
  else raise RuntimeError.

(** The model call of the three loops: through [from_dense] and the
    (features, indices, batch_size) triple when [args.sparse], on the raw
    batch otherwise. *)
Definition model_call (args : Args) (model : NetPTQ.t) (data : Tensor) (g : rng)
    : NetPTQ.t * rng * result Tensor2 :=
  if sparse args then
    match reshape_28_28_1 data with
    | inl e => (model, g, inl e)
    | inr d =>
        let data_sp := from_dense d in
        NetPTQ.call model
          [ATensor (features data_sp); AIndices (indices data_sp); AInt (batch_size data_sp)] g
    end
  else NetPTQ.call model [ARaw data] g.

(** [F.nll_loss(output, target)], mean over the batch. *)
Definition nll_loss (output : Tensor2) (target : list Z) : result scalar :=
  if negb (length (t2_rows output) =? length target)%nat then raise ValueError
  else if forallb (λ c, (0 <=? c) && (c <? t2_cols output)) target then
    ok (fdiv (foldr (λ p acc, fadd (fsub f0 (nth (Z.to_nat p.2) p.1 f0)) acc) f0
                    (zip (t2_rows output) target))
             (fof_Z (Z.of_nat (length target))))
  else raise RuntimeError.

(** The [device] that [main] hands to the loops: ["cuda"] when CUDA is
    available and [--no-cuda] is not given, ["cpu"] otherwise. *)
Inductive torch_device := cpu | cuda.

(** [with amp_ctx:] is [torch.cuda.amp.autocast()] when [args.fp16] is set.
    It casts the ops of tensors that live on a CUDA device; on the CPU (where
    the context disables itself when CUDA is not available) every op runs in
    the element type of its input. *)
Definition autocast_in_effect (args : Args) (device : torch_device) : bool :=
  fp16 args && match device with cuda => true | cpu => false end.

Record TrainState := mkTrainState {
  ts_model : NetPTQ.t;
  ts_optimizer : optimizer;
  ts_scaler : grad_scaler;
  ts_rng : rng
}.

(** One iteration of the loop of [train]. *)
Definition train_batch (args : Args) (device : torch_device) (sparse_policy : cast_policy)
    (st : TrainState) (data : Tensor) (target : list Z) : TrainState * result unit :=
  let opt := zero_grad (ts_optimizer st) in
  let autocast := autocast_in_effect args device in
  let '(model, g, output) := model_call args (ts_model st) data (ts_rng st) in
  let output_dtype := NetPTQ.forward_dtype autocast sparse_policy (t_dtype data) in
  match output with
  | inl e => (mkTrainState model opt (ts_scaler st) g, inl e)
  | inr output =>
      match nll_loss output target with
      | inl e => (mkTrainState model opt (ts_scaler st) g, inl e)
      | inr loss =>
          let loss_dtype := op_dtype autocast sparse_policy OpNllLoss output_dtype in
          if fp16 args then
            if dtype_is loss_dtype float32 then
              let '(scaler, opt, model) :=
                scaled_step (ts_scaler st) opt model data target loss in
              (mkTrainState model opt scaler g,
               if log_interval args =? 0 then raise ZeroDivisionError else ok tt)
            else (mkTrainState model opt (ts_scaler st) g, raise AssertionError)
          else
            let '(opt, model) := backward_step opt model data target loss in
            (mkTrainState model opt (ts_scaler st) g,
             if log_interval args =? 0 then raise ZeroDivisionError else ok tt)
      end
  end.

Fixpoint train_loop (args : Args) (device : torch_device) (sparse_policy : cast_policy)
    (st : TrainState) (train_loader : list (Tensor * list Z)) : TrainState * result unit :=
  match train_loader with
  | [] => (st, ok tt)
  | (data, target) :: rest =>
      let '(st, r) := train_batch args device sparse_policy st data target in
      match r with
      | inl e => (st, inl e)
      | inr _ => train_loop args device sparse_policy st rest
      end
  end.

(** [train(args, model, device, train_loader, optimizer, epoch)]; the scaler
    is the fresh [GradScaler()] of the call. *)
Definition train (args : Args) (sparse_policy : cast_policy) (model : NetPTQ.t)
    (device : torch_device) (fresh_scaler : grad_scaler)
    (train_loader : list (Tensor * list Z)) (opt : optimizer) (g : rng)
    : TrainState * result unit :=
  train_loop args device sparse_policy (mkTrainState (NetPTQ.train model) opt fresh_scaler g)
             train_loader.

Fixpoint calibrate_loop (args : Args) (model : NetPTQ.t) (data_loader : list (Tensor * list Z))
    (g : rng) : NetPTQ.t * rng * result unit :=
  match data_loader with
  | [] => (model, g, ok tt)
  | (image, target) :: rest =>
      let '(model, g, output) := model_call args model image g in
      match output with
      | inl e => (model, g, inl e)
      | inr _ => calibrate_loop args model rest g
      end
  end.

(** [calibrate(args, model, data_loader, device)]. *)
Definition calibrate (args : Args) (model : NetPTQ.t) (data_loader : list (Tensor * list Z))
    (g : rng) : NetPTQ.t * rng * result unit :=
  calibrate_loop args (NetPTQ.eval model) data_loader g.

End Loops.

(** ** Concrete data, over integer scalars *)

Module Examples.

Definition bn0 : @BNState ZScalar :=
  @mkBN ZScalar (λ _, 1) (λ _, 0) (λ _, 0) (λ _, 1) 0.

Definition w0 : @Weights ZScalar :=
  @mkWeights ZScalar (λ _ _ _ _ _, 1) (λ _, bn0) None (λ _ _, 1) (λ _, 0) (λ _ _, 1) (λ _, 0).

(** One 4 x 4 single-channel image with two non-zero pixels. *)
Definition small_batch : @Dense ZScalar :=
  @mkDense ZScalar (1, 4, 4, 1)
    [[3]; [0]; [0]; [0];
     [0]; [0]; [7]; [0];
     [0]; [0]; [0]; [0];
     [0]; [0]; [0]; [0]].

(** A view that lists the coordinate (0, 0, 0) twice. *)
Definition colliding_view : @SparseConvTensor ZScalar :=
  @SparseConvTensor_init ZScalar (@mkTensor2 ZScalar [[1]; [2]] 1) [(0, 0, 0); (0, 0, 0)] (2, 2) 1.

(** One 28 x 28 image whose only non-zero pixel is pixel 100, as the loader
    yields it and after [reshape(-1, 28, 28, 1)]. *)
Definition one_pixel : @Tensor ZScalar :=
  @mkTensor ZScalar float32 [1; 1; 28; 28] (<[100%nat := 5]> (replicate 784 0)).

Definition one_pixel_batch : @Dense ZScalar :=
  @mkDense ZScalar (1, 28, 28, 1) ((λ v, [v]) <$> @t_data ZScalar one_pixel).

End Examples.

(** ** The evaluation loop *)

(** The comparison behind [argmax]. *)
Class ScalarOrder `{Scalar} := {
  fgtb : scalar → scalar → bool
}.

Definition ZOrder : @ScalarOrder ZScalar := @Build_ScalarOrder ZScalar Z.gtb.

Section Test.
Context `{Scalar} `{!RandomSource} `{!ScalarOrder}.

(** [F.nll_loss(output, target, reduction='sum')]. *)
Definition nll_loss_sum (output : Tensor2) (target : list Z) : result scalar :=
  if negb (length (t2_rows output) =? length target)%nat then raise ValueError
  else if forallb (λ c, (0 <=? c) && (c <? t2_cols output)) target then
    ok (foldr (λ p acc, fadd (fsub f0 (nth (Z.to_nat p.2) p.1 f0)) acc) f0
              (zip (t2_rows output) target))
  else raise RuntimeError.

(** The index of the first maximal entry of a row, scanning from entry [i]
    with the best entry so far at [best_i]. *)
Fixpoint argmax_from (best : scalar) (best_i i : Z) (row : list scalar) : Z :=
  match row with
  | [] => best_i
  | v :: rest =>
      if fgtb v best then argmax_from v i (i + 1) rest
      else argmax_from best best_i (i + 1) rest
  end.

(** [output.argmax(dim=1)] on one row; an empty row is an error (torch's
    IndexError, reported as RuntimeError). *)
Definition argmax_row (row : list scalar) : result Z :=
  match row with
  | [] => raise RuntimeError
  | v :: rest => ok (argmax_from v 0 1 rest)
  end.

Fixpoint argmax (rows : list (list scalar)) : result (list Z) :=
  match rows with
  | [] => ok []
  | r :: rest => i <- argmax_row r ;; js <- argmax rest ;; ok (i :: js)
  end.

(** [pred.eq(target.view_as(pred)).sum().item()]: [view_as] needs as many
    targets as predictions. *)
Definition count_correct (output : Tensor2) (target : list Z) : result Z :=
  pred <- argmax (t2_rows output) ;;
  if (length pred =? length target)%nat then
    ok (Z.of_nat (length (List.filter (λ p, p.1 =? p.2) (zip pred target))))
  else raise RuntimeError.

Fixpoint test_loop (args : Args) (model : NetPTQ.t) (test_loader : list (Tensor * list Z))
    (g : rng) (test_loss : scalar) (correct : Z) : NetPTQ.t * rng * result (scalar * Z) :=
  match test_loader with
  | [] => (model, g, ok (test_loss, correct))
  | (data, target) :: rest =>
      let '(model, g, output) := model_call args model data g in
      match output with
      | inl e => (model, g, inl e)
      | inr output =>
          match nll_loss_sum output target with
          | inl e => (model, g, inl e)
          | inr loss =>
              match count_correct output target with
              | inl e => (model, g, inl e)
              | inr c => test_loop args model rest g (fadd test_loss loss) (correct + c)
              end
          end
      end
  end.

(** [test(args, model, device, test_loader)]: the average loss and the number
    of correct predictions it prints; [dataset_len] is
    [len(test_loader.dataset)]. *)
Definition test (args : Args) (model : NetPTQ.t) (test_loader : list (Tensor * list Z))
    (dataset_len : Z) (g : rng) : NetPTQ.t * rng * result (scalar * Z) :=
  let '(model, g, r) := test_loop args (NetPTQ.eval model) test_loader g f0 0 in
  match r with
  | inl e => (model, g, inl e)
  | inr (test_loss, correct) =>
      if dataset_len =? 0 then (model, g, raise ZeroDivisionError)
      else (model, g, ok (fdiv test_loss (fof_Z dataset_len), correct))
  end.

End Test.

Section Batches.
Context `{Scalar}.

(** A batch of images as the loaders yield it: at least one image, 28 * 28
    scalars per image. *)
Definition image_batch (data : Tensor) : Prop :=
  length (t_data data) ≠ 0%nat ∧ Z.of_nat (length (t_data data)) mod 784 = 0.

(** A loader batch as the MNIST loaders yield it: one label in [0, 10) per
    image, at least one image, 28 * 28 scalars per image. *)
Definition mnist_batch (b : Tensor * list Z) : Prop :=
  b.2 ≠ [] ∧ length (t_data b.1) = (784 * length b.2)%nat ∧
  Forall (λ c, 0 ≤ c < 10) b.2.

End Batches.

(** ** Prefixes of a sequential container *)

Section Prefix.
Context `{Scalar}.

(** [net[:k]]: the first [k] children of a sequential container, as a
    container of their own. *)
Definition first_stages (k : nat) (m : module) : module :=
  SparseSequential (take k (children m)).

End Prefix.

(** ** The dense baseline *)

Section DenseLayers.
Context `{Scalar} `{!RandomSource}.

(** Entry [(n, c, y, x)] of a contiguous tensor of shape [[N, C, H, W]]. *)
Definition at4 (t : Tensor) (C H W : Z) (n c y x : Z) : scalar :=
  nth (Z.to_nat (((n * C + c) * H + y) * W + x)) (t_data t) f0.

(** A dense convolution weight, indexed by output channel, input channel and
    kernel offset. *)
Definition dense_kernel : Type := Z → Z → Z → Z → scalar.

(** The taps of one output entry: input channel and kernel offset. *)
Definition taps (C k : Z) : list (Z * Z * Z) :=
  c ← seqZ 0 C; ky ← seqZ 0 k; kx ← seqZ 0 k; [(c, ky, kx)].

(** [nn.Conv2d(in_channels, out_channels, kernel_size, stride)], no padding,
    with bias, on a batched NCHW tensor as the loaders yield it; a tensor of
    another rank is refused here (torch also takes an unbatched CHW tensor,
    which no caller passes). *)
Definition Conv2d_forward (in_channels out_channels kernel_size stride : Z)
    (w : dense_kernel) (b : Z → scalar) (x : Tensor) : result Tensor :=
  match t_shape x with
  | [N; C; H; W] =>
      if (C =? in_channels) && (kernel_size <=? H) && (kernel_size <=? W) then
        let H' := (H - kernel_size) / stride + 1 in
        let W' := (W - kernel_size) / stride + 1 in
        ok (mkTensor (t_dtype x) [N; out_channels; H'; W']
              (n ← seqZ 0 N; o ← seqZ 0 out_channels; y ← seqZ 0 H'; x' ← seqZ 0 W';
               [fadd (foldr (λ tp acc,
                               fadd (fmul (w o tp.1.1 tp.1.2 tp.2)
                                          (at4 x C H W n tp.1.1
                                               (y * stride + tp.1.2) (x' * stride + tp.2)))
                                    acc)
                            f0 (taps C kernel_size))
                     (b o)]))
      else raise RuntimeError
  | _ => raise RuntimeError
  end.

(** [F.relu] on a tensor. *)
Definition relu_tensor (x : Tensor) : Tensor :=
  mkTensor (t_dtype x) (t_shape x) (fmax f0 <$> t_data x).

(** [F.max_pool2d(x, 2)]: 2 x 2 windows, stride 2. *)
Definition max_pool2d_2 (x : Tensor) : result Tensor :=
  match t_shape x with
  | [N; C; H; W] =>
      if (2 <=? H) && (2 <=? W) then
        let H' := (H - 2) / 2 + 1 in
        let W' := (W - 2) / 2 + 1 in
        ok (mkTensor (t_dtype x) [N; C; H'; W']
              (n ← seqZ 0 N; c ← seqZ 0 C; y ← seqZ 0 H'; x' ← seqZ 0 W';
               [fmax (fmax (at4 x C H W n c (2 * y) (2 * x'))
                           (at4 x C H W n c (2 * y) (2 * x' + 1)))
                     (fmax (at4 x C H W n c (2 * y + 1) (2 * x'))
                           (at4 x C H W n c (2 * y + 1) (2 * x' + 1)))]))
      else raise RuntimeError
  | _ => raise RuntimeError
  end.

(** [nn.Dropout(p)] on a tensor: an elementwise mask in training, the
    identity in evaluation. *)
Definition Dropout_forward (training : bool) (p : scalar) (x : Tensor) (g : rng)
    : Tensor * rng :=
  if training then
    let '(mask, g') := dropout_mask p 1 (length (t_data x)) g in
    (mkTensor (t_dtype x) (t_shape x) (zip_with fmul (t_data x) (concat mask)), g')
  else (x, g).

(** [torch.flatten(x, 1)] on a tensor with a batch dimension. *)
Definition flatten_tensor (x : Tensor) : result Tensor2 :=
  match t_shape x with
  | N :: rest =>
      let m := foldr Z.mul 1 rest in
      ok (mkTensor2 ((λ b, take (Z.to_nat m) (drop (b * Z.to_nat m)%nat (t_data x)))
                       <$> seq 0 (Z.to_nat N)) m)
  | [] => raise RuntimeError
  end.

End DenseLayers.

(** *** [class NetDense] *)
Module NetDense.
Section NetDense.
Context `{Scalar} `{!RandomSource}.

(** The float network: the quantization stubs are the identity. *)
Record t := mk {
  training : bool;
  conv1_weight : dense_kernel;
  conv1_bias : Z → scalar;
  conv2_weight : dense_kernel;
  conv2_bias : Z → scalar;
  fc1_weight : nat → nat → scalar;
  fc1_bias : nat → scalar;
  fc2_weight : nat → nat → scalar;
  fc2_bias : nat → scalar
}.

(** [NetDense.forward(self, x)]: quant, conv1, relu, conv2, relu,
    max_pool2d, dropout1, flatten, fc1, relu, dropout2, fc2, dequant,
    log_softmax.  The network has no buffer, so only the generator is
    threaded; on the flattened matrix the elementwise mask of [nn.Dropout] is
    drawn as in [Dropout2d_forward]. *)
Definition forward (self : t) (x : Tensor) (g : rng) : rng * result Tensor2 :=
  match (x <- Conv2d_forward 1 32 3 1 (conv1_weight self) (conv1_bias self) x ;;
         x <- Conv2d_forward 32 64 3 1 (conv2_weight self) (conv2_bias self) (relu_tensor x) ;;
         max_pool2d_2 (relu_tensor x)) with
  | inl e => (g, inl e)
  | inr x =>
      let '(x, g) := Dropout_forward (training self) (fliteral 25 (-2)) x g in
      match (x <- flatten_tensor x ;;
             Linear_forward 9216 128 (fc1_weight self) (fc1_bias self) x) with
      | inl e => (g, inl e)
      | inr x =>
          let x := mkTensor2 (relu <$> t2_rows x) (t2_cols x) in
          let '(x, g) := Dropout2d_forward (training self) (fliteral 5 (-1)) x g in
          (g, x <- Linear_forward 128 10 (fc2_weight self) (fc2_bias self) x ;;
              ok (log_softmax x))
      end
  end.

Definition eval (self : t) : t :=
  mk false (conv1_weight self) (conv1_bias self) (conv2_weight self) (conv2_bias self)
     (fc1_weight self) (fc1_bias self) (fc2_weight self) (fc2_bias self).

End NetDense.
End NetDense.

(** ** More concrete data *)

Module MoreExamples.

(** [Net] with the weights of [Examples.w0], in evaluation mode, with [q] in
    place of the [QuantStub]. *)
Definition net_with_quant (q : @module ZScalar) : @Net.t ZScalar :=
  @Net.mk ZScalar false
    (Net.net (Net.init Examples.w0)) (Net.fc1 (Net.init Examples.w0))
    (Net.fc2 (Net.init Examples.w0)) (Net.dropout1 (Net.init Examples.w0))
    (Net.dropout2 (Net.init Examples.w0)) q DeQuantStub.

(** One active site with a negative feature. *)
Definition negative_features : @Tensor2 ZScalar := @mkTensor2 ZScalar [[-3]] 1.

(** One 28 x 28 image with two non-zero pixels far apart, so that every
    stage of the networks keeps two active sites. *)
Definition two_pixels : @Tensor ZScalar :=
  @mkTensor ZScalar float32 [1; 1; 28; 28]
    (<[700%nat := 9]> (<[100%nat := 5]> (replicate 784 0))).

(** A [NetDense] in training mode with unit weights and no bias. *)
Definition dense0 : @NetDense.t ZScalar :=
  @NetDense.mk ZScalar true (λ _ _ _ _, 1) (λ _, 0) (λ _ _ _ _, 1) (λ _, 0)
    (λ _ _, 1) (λ _, 0) (λ _ _, 1) (λ _, 0).

(** One 32 x 32 single-channel image. *)
Definition large_image : @Tensor ZScalar :=
  @mkTensor ZScalar float32 [1; 1; 32; 32] (replicate 1024 1).

End MoreExamples.

(** * Proofs *)

(** ** Lists and scatter *)
Section ListFacts.
Context {A : Type}.

Lemma length_foldl_put (ps : list (nat * A)) (base : list A) :
  length (foldl put base ps) = length base.
Proof.
  revert base. induction ps as [|p ps IH]; intros base; simpl; [done|].
  rewrite IH. apply length_insert.
Qed.

Lemma lookup_foldl_put_notin (ps : list (nat * A)) (base : list A) (i : nat) :
  i ∉ ps.*1 → foldl put base ps !! i = base !! i.
Proof.
  revert base. induction ps as [|p ps IH]; intros base Hi; simpl; [done|].
  rewrite fmap_cons in Hi. apply not_elem_of_cons in Hi as [Hne Hi].
  rewrite IH by done. unfold put. apply list_lookup_insert_ne. congruence.
Qed.

Lemma lookup_foldl_put_in (ps : list (nat * A)) (base : list A) (i : nat) (v : A) :
  NoDup ps.*1 → (i, v) ∈ ps → (i < length base)%nat →
  foldl put base ps !! i = Some v.
Proof.
  revert base. induction ps as [|p ps IH]; intros base Hnd Hin Hlt; simpl.
  - by apply elem_of_nil in Hin.
  - rewrite fmap_cons in Hnd. apply NoDup_cons in Hnd as [Hfresh Hnd].
    apply elem_of_cons in Hin as [<-|Hin].
    + rewrite lookup_foldl_put_notin by done.
      unfold put; simpl. by apply list_lookup_insert_eq.
    + apply IH; [done|done|]. unfold put. by rewrite length_insert.
Qed.

Lemma fst_fmap_on_fst {B C : Type} (h : B → C) (l : list (B * A)) :
  ((λ p, (h p.1, p.2)) <$> l).*1 = h <$> l.*1.
Proof. induction l as [|p l IH]; [done|]. rewrite !fmap_cons. simpl. by f_equal. Qed.

End ListFacts.

Section ActiveSites.
Context `{Scalar}.

Lemma ravel_unravel (Hh Ww i : Z) :
  0 < Hh → 0 < Ww → ravel Hh Ww (unravel Hh Ww i) = i.
Proof.
  intros HH HW. unfold ravel, unravel.
  rewrite (Z.mul_comm Hh Ww), <- (Z.div_div i Ww Hh) by lia.
  rewrite (Z.mul_comm (i / Ww / Hh) Hh).
  rewrite <- (Z.div_mod (i / Ww) Hh) by lia.
  rewrite (Z.mul_comm (i / Ww) Ww).
  rewrite <- (Z.div_mod i Ww) by lia. done.
Qed.

Lemma unravel_in_range (N Hh Ww i : Z) :
  0 < Hh → 0 < Ww → 0 ≤ i < N * Hh * Ww →
  in_range N Hh Ww (unravel Hh Ww i) = true.
Proof.
  intros HH HW Hi. unfold in_range, unravel.
  assert (0 ≤ i / (Hh * Ww)) by (apply Z.div_pos; nia).
  assert (i / (Hh * Ww) < N) by (apply Z.div_lt_upper_bound; nia).
  pose proof (Z.mod_pos_bound (i / Ww) Hh HH).
  pose proof (Z.mod_pos_bound i Ww HW).
  repeat (apply andb_true_intro; split); lia.
Qed.

Lemma active_sites_elem (sites : list (list scalar)) (k i : Z) (s : list scalar) :
  (i, s) ∈ active_sites k sites ↔
  k ≤ i ∧ sites !! Z.to_nat (i - k) = Some s ∧ existsb nonzero s = true.
Proof.
  revert k. induction sites as [|s0 sites IH]; intros k; simpl.
  - split; [intros Hin; by apply elem_of_nil in Hin | intros (_ & ? & _); done].
  - destruct (existsb nonzero s0) eqn:Hs0.
    + rewrite elem_of_cons, IH. split.
      * intros [Heq | (Hle & Hl & Hnz)].
        -- inversion Heq; subst. rewrite Z.sub_diag. simpl. split; [lia|done].
        -- split; [lia|]. split; [|done].
           replace (Z.to_nat (i - k)) with (S (Z.to_nat (i - (k + 1)))) by lia. done.
      * intros (Hle & Hl & Hnz).
        destruct (decide (i = k)) as [->|Hne].
        -- left. rewrite Z.sub_diag in Hl. simpl in Hl. congruence.
        -- right. split; [lia|]. split; [|done].
           replace (Z.to_nat (i - k)) with (S (Z.to_nat (i - (k + 1)))) in Hl by lia. done.
    + rewrite IH. split.
      * intros (Hle & Hl & Hnz). split; [lia|]. split; [|done].
        replace (Z.to_nat (i - k)) with (S (Z.to_nat (i - (k + 1)))) by lia. done.
      * intros (Hle & Hl & Hnz).
        destruct (decide (i = k)) as [->|Hne].
        -- rewrite Z.sub_diag in Hl. simpl in Hl. congruence.
        -- split; [lia|]. split; [|done].
           replace (Z.to_nat (i - k)) with (S (Z.to_nat (i - (k + 1)))) in Hl by lia. done.
Qed.

Lemma active_sites_fst_lower (sites : list (list scalar)) (k i : Z) :
  i ∈ (active_sites k sites).*1 → k ≤ i < k + Z.of_nat (length sites).
Proof.
  intros Hin. apply list_elem_of_fmap in Hin as ([i' s] & -> & Hin).
  apply active_sites_elem in Hin as (Hle & Hl & _). simpl.
  apply lookup_lt_Some in Hl. lia.
Qed.

Lemma active_sites_NoDup (sites : list (list scalar)) (k : Z) :
  NoDup (active_sites k sites).*1.
Proof.
  revert k. induction sites as [|s0 sites IH]; intros k; simpl; [constructor|].
  destruct (existsb nonzero s0); [|apply IH].
  rewrite fmap_cons. apply NoDup_cons. split; [|apply IH].
  intros Hin. apply active_sites_fst_lower in Hin. simpl in Hin. lia.
Qed.

Lemma scatter_active (Hh Ww : Z) (act : list (Z * list scalar)) (base : list (list scalar)) :
  scatter base Hh Ww (unravel Hh Ww <$> act.*1) act.*2 =
  foldl put base ((λ p, (Z.to_nat (ravel Hh Ww (unravel Hh Ww p.1)), p.2)) <$> act).
Proof.
  unfold scatter. revert base.
  induction act as [|p act IH]; intros base; simpl; [done|]. apply IH.
Qed.

Lemma all_zero_replicate (s : list scalar) :
  (∀ v, v ∈ s → nonzero v = false → v = f0) →
  existsb nonzero s = false → s = replicate (length s) f0.
Proof.
  intros Hties. induction s as [|v s IH]; simpl; [done|].
  intros Hex. apply orb_false_elim in Hex as [Hv Hs].
  rewrite (Hties v) at 1 by (done || apply elem_of_cons; by left).
  f_equal. apply IH; [|done]. intros w Hw. apply Hties. apply elem_of_cons; by right.
Qed.

End ActiveSites.

(** ** Coordinates *)

Section Coordinates.
Context `{Scalar}.

Lemma check_view_spec (x : SparseConvTensor) :
  check_view x = true ↔
  0 ≤ batch_size x ∧ 0 ≤ (spatial_shape x).1 ∧ 0 ≤ (spatial_shape x).2 ∧
  wf_Tensor2 (features x) ∧
  length (t2_rows (features x)) = length (indices x) ∧
  Forall (λ c, in_range (batch_size x) (spatial_shape x).1 (spatial_shape x).2 c = true)
         (indices x).
Proof.
  unfold check_view, wf_Tensor2. destruct (spatial_shape x) as [Hh Ww]; simpl.
  rewrite !andb_true_iff, !Z.leb_le, Nat.eqb_eq, !forallb_forall, !Forall_forall.
  setoid_rewrite Nat.eqb_eq. setoid_rewrite list_elem_of_In. tauto.
Qed.

Lemma in_range_spec (N Hh Ww : Z) (c : coord) :
  in_range N Hh Ww c = true ↔
  0 ≤ c.1.1 < N ∧ 0 ≤ c.1.2 < Hh ∧ 0 ≤ c.2 < Ww.
Proof.
  destruct c as [[b y] x]; simpl.
  rewrite !andb_true_iff, !Z.leb_le, !Z.ltb_lt. tauto.
Qed.

Lemma ravel_bounds (N Hh Ww : Z) (c : coord) :
  in_range N Hh Ww c = true → 0 ≤ ravel Hh Ww c < N * Hh * Ww.
Proof.
  rewrite in_range_spec. destruct c as [[b y] x]; simpl. intros (Hb & Hy & Hx).
  assert (0 ≤ b * Hh) by nia.
  assert (0 ≤ (b * Hh + y) * Ww) by nia.
  assert (b * Hh + y + 1 ≤ N * Hh) by nia.
  assert ((b * Hh + y + 1) * Ww ≤ N * Hh * Ww) by nia.
  lia.
Qed.

Lemma ravel_inj (N Hh Ww : Z) (c c' : coord) :
  in_range N Hh Ww c = true → in_range N Hh Ww c' = true →
  ravel Hh Ww c = ravel Hh Ww c' → c = c'.
Proof.
  rewrite !in_range_spec. destruct c as [[b y] x], c' as [[b' y'] x']; simpl.
  intros (Hb & Hy & Hx) (Hb' & Hy' & Hx') Heq.
  assert (b * Hh + y = b' * Hh + y') as Hrow by nia.
  assert (x = x') by nia.
  assert (b = b') by nia.
  assert (y = y') by nia. congruence.
Qed.

End Coordinates.

(** ** Densify and the round trip *)

Section Densify.
Context `{Scalar}.

Lemma scatter_as_put (base : list (list scalar)) (Hh Ww : Z)
    (idx : list coord) (rows : list (list scalar)) :
  scatter base Hh Ww idx rows =
  foldl put base ((λ p, (Z.to_nat (ravel Hh Ww p.1), p.2)) <$> zip idx rows).
Proof. unfold scatter. by rewrite foldl_fmap. Qed.

Lemma length_scatter base Hh Ww idx rows :
  length (scatter base Hh Ww idx rows) = length base.
Proof. rewrite scatter_as_put. apply length_foldl_put. Qed.

Lemma Forall_scatter (P : list scalar → Prop) base Hh Ww idx rows :
  Forall P base → Forall P rows → Forall P (scatter base Hh Ww idx rows).
Proof.
  unfold scatter. revert base rows.
  induction idx as [|c idx IH]; intros base rows Hb Hr; [done|].
  destruct rows as [|r rows]; [done|]. simpl.
  apply Forall_cons in Hr as [Hr Hrs].
  apply IH; [|done]. by apply Forall_insert.
Qed.

Lemma scatter_positions_NoDup N Hh Ww (idx : list coord) (rows : list (list scalar)) :
  NoDup idx → Forall (λ c, in_range N Hh Ww c = true) idx →
  length rows = length idx →
  NoDup ((λ p : coord * list scalar, (Z.to_nat (ravel Hh Ww p.1), p.2)) <$> zip idx rows).*1.
Proof.
  intros Hnd Hin Hlen.
  rewrite (fst_fmap_on_fst (λ c, Z.to_nat (ravel Hh Ww c))).
  rewrite fst_zip by lia.
  apply NoDup_fmap_2_strong; [|done].
  intros c c' Hc Hc' Heq.
  rewrite Forall_forall in Hin.
  pose proof (ravel_bounds _ _ _ _ (Hin _ Hc)).
  pose proof (ravel_bounds _ _ _ _ (Hin _ Hc')).
  eapply ravel_inj; eauto. lia.
Qed.

Lemma scatter_lookup_hit N Hh Ww base idx rows (i : nat) (c : coord) (f : list scalar) :
  NoDup idx → Forall (λ c, in_range N Hh Ww c = true) idx →
  length rows = length idx → length base = Z.to_nat (N * Hh * Ww) →
  idx !! i = Some c → rows !! i = Some f →
  scatter base Hh Ww idx rows !! Z.to_nat (ravel Hh Ww c) = Some f.
Proof.
  intros Hnd Hin Hlen Hbase Hc Hf. rewrite scatter_as_put.
  apply lookup_foldl_put_in.
  - by eapply scatter_positions_NoDup.
  - apply list_elem_of_fmap. exists (c, f). split; [done|].
    apply list_elem_of_lookup. exists i. by apply lookup_zip_Some.
  - rewrite Forall_forall in Hin.
    assert (c ∈ idx) as Hcin by (apply list_elem_of_lookup; eauto).
    pose proof (ravel_bounds _ _ _ _ (Hin _ Hcin)). lia.
Qed.

Lemma scatter_lookup_miss Hh Ww base idx rows (j : nat) :
  (∀ c, c ∈ idx → Z.to_nat (ravel Hh Ww c) ≠ j) →
  scatter base Hh Ww idx rows !! j = base !! j.
Proof.
  intros Hmiss. rewrite scatter_as_put. apply lookup_foldl_put_notin.
  intros Hj. apply list_elem_of_fmap in Hj as (p & Hp1 & Hp).
  apply list_elem_of_fmap in Hp as ([c f] & -> & Hp). simpl in Hp1.
  apply elem_of_zip_l in Hp. by apply (Hmiss c).
Qed.

Lemma ToDense_forward_ok (x : SparseConvTensor) :
  check_view x = true → NoDup (indices x) →
  ToDense_forward x =
  ok (mkDense (batch_size x, (spatial_shape x).1, (spatial_shape x).2, t2_cols (features x))
        (scatter (replicate (Z.to_nat (batch_size x * (spatial_shape x).1 * (spatial_shape x).2))
                    (replicate (Z.to_nat (t2_cols (features x))) f0))
           (spatial_shape x).1 (spatial_shape x).2 (indices x) (t2_rows (features x)))).
Proof.
  intros Hv Hnd. unfold ToDense_forward. destruct (spatial_shape x) as [Hh Ww].
  rewrite Hv. simpl. destruct (bool_decide (NoDup (indices x))) eqn:Hb; [done|].
  by apply bool_decide_eq_false_1 in Hb.
Qed.

Lemma ToDense_forward_inv (x : SparseConvTensor) (d : Dense) :
  ToDense_forward x = ok d → check_view x = true ∧ NoDup (indices x).
Proof.
  unfold ToDense_forward. destruct (spatial_shape x) as [Hh Ww].
  destruct (check_view x); simpl; [|discriminate].
  destruct (bool_decide (NoDup (indices x))) eqn:Hnd; simpl; [|discriminate].
  intros _. split; [done|]. by apply bool_decide_eq_true_1 in Hnd.
Qed.

Lemma ToDense_forward_duplicate (x : SparseConvTensor) :
  check_view x = true → ¬ NoDup (indices x) →
  ToDense_forward x = raise DuplicateCoordinate.
Proof.
  intros Hv Hnd. unfold ToDense_forward. destruct (spatial_shape x) as [Hh Ww].
  rewrite Hv. simpl. destruct (bool_decide (NoDup (indices x))) eqn:Hb; [|done].
  by apply bool_decide_eq_true_1 in Hb.
Qed.

Lemma ToDense_forward_wf (x : SparseConvTensor) (d : Dense) :
  ToDense_forward x = ok d → wf_Dense d.
Proof.
  intros Hd. destruct (ToDense_forward_inv _ _ Hd) as [Hv Hnd].
  rewrite ToDense_forward_ok in Hd by done. inversion Hd; subst; clear Hd.
  apply check_view_spec in Hv as (HN & HH & HW & [HC Hrows] & Hlen & Hin).
  unfold wf_Dense; simpl. repeat split; try done.
  - by rewrite length_scatter, length_replicate.
  - apply Forall_scatter; [|done].
    apply Forall_replicate. by rewrite length_replicate.
Qed.

Lemma from_dense_fields (B : Dense) :
  from_dense B =
  SparseConvTensor_init
    (mkTensor2 (active_sites 0 (d_sites B)).*2 (d_shape B).2)
    (unravel (d_shape B).1.1.2 (d_shape B).1.2 <$> (active_sites 0 (d_sites B)).*1)
    ((d_shape B).1.1.2, (d_shape B).1.2) (d_shape B).1.1.1.
Proof. unfold from_dense. by destruct (d_shape B) as [[[N Hh] Ww] C]. Qed.

Lemma active_index_bounds (B : Dense) (i : Z) :
  wf_Dense B → i ∈ (active_sites 0 (d_sites B)).*1 →
  0 < (d_shape B).1.1.2 ∧ 0 < (d_shape B).1.2 ∧
  0 ≤ i < (d_shape B).1.1.1 * (d_shape B).1.1.2 * (d_shape B).1.2.
Proof.
  unfold wf_Dense. destruct (d_shape B) as [[[N Hh] Ww] C]; simpl.
  intros (HN & HH & HW & HC & Hlen & Hw) Hi.
  apply active_sites_fst_lower in Hi. nia.
Qed.

Lemma from_dense_check_view (B : Dense) :
  wf_Dense B → check_view (from_dense B) = true.
Proof.
  intros Hwf. apply check_view_spec. rewrite from_dense_fields; simpl.
  pose proof Hwf as Hwf'. unfold wf_Dense in Hwf'.
  destruct (d_shape B) as [[[N Hh] Ww] C] eqn:Hshape; simpl in *.
  destruct Hwf' as (HN & HH & HW & HC & Hlen & Hw).
  repeat split; try done.
  - simpl. apply Forall_forall. intros s Hs.
    apply list_elem_of_fmap in Hs as ([i s'] & -> & Hs).
    apply active_sites_elem in Hs as (_ & Hl & _).
    rewrite Forall_lookup in Hw. eapply Hw, Hl.
  - by rewrite !length_fmap.
  - apply Forall_forall. intros c Hc.
    apply list_elem_of_fmap in Hc as (i & -> & Hi).
    pose proof (active_index_bounds B i Hwf Hi) as Hb. rewrite Hshape in Hb; simpl in Hb.
    apply unravel_in_range; lia.
Qed.

Lemma from_dense_NoDup (B : Dense) :
  wf_Dense B → NoDup (indices (from_dense B)).
Proof.
  intros Hwf. rewrite from_dense_fields; simpl.
  apply NoDup_fmap_2_strong; [|apply active_sites_NoDup].
  intros i j Hi Hj Heq.
  destruct (active_index_bounds B i Hwf Hi) as (HH & HW & _).
  rewrite <- (ravel_unravel _ _ i HH HW), <- (ravel_unravel _ _ j HH HW). by rewrite Heq.
Qed.

Lemma ToDense_from_dense (B : Dense) :
  wf_Dense B →
  (∀ s v, s ∈ d_sites B → v ∈ s → nonzero v = false → v = f0) →
  ToDense_forward (from_dense B) = ok B.
Proof.
  intros Hwf Hties.
  rewrite ToDense_forward_ok by auto using from_dense_check_view, from_dense_NoDup.
  rewrite from_dense_fields; simpl.
  pose proof Hwf as Hwf'. unfold wf_Dense in Hwf'.
  destruct B as [[[[N Hh] Ww] C] sites]; simpl in *.
  destruct Hwf' as (HN & HH & HW & HC & Hlen & Hw).
  unfold ok. do 2 f_equal.
  rewrite scatter_active.
  assert (((λ p : Z * list scalar, (Z.to_nat (ravel Hh Ww (unravel Hh Ww p.1)), p.2))
             <$> active_sites 0 sites) =
          ((λ p : Z * list scalar, (Z.to_nat p.1, p.2)) <$> active_sites 0 sites)) as ->.
  { apply list_fmap_ext. intros k [i s] Hk; cbn [fst snd].
    assert (i ∈ (active_sites 0 sites).*1) as Hi.
    { apply list_elem_of_fmap. exists (i, s). split; [done|].
      apply list_elem_of_lookup; eauto. }
    destruct (active_index_bounds (mkDense (N, Hh, Ww, C) sites) i Hwf Hi) as (? & ? & _).
    cbn [d_shape fst snd] in *. by rewrite ravel_unravel. }
  assert (NoDup ((λ p : Z * list scalar, (Z.to_nat p.1, p.2)) <$> active_sites 0 sites).*1)
    as Hnd.
  { rewrite (fst_fmap_on_fst Z.to_nat).
    apply NoDup_fmap_2_strong; [|apply active_sites_NoDup].
    intros i j Hi Hj Heq.
    apply active_sites_fst_lower in Hi, Hj. lia. }
  apply list_eq. intros j.
  destruct (sites !! j) as [s|] eqn:Hs.
  - pose proof (lookup_lt_Some _ _ _ Hs) as Hj.
    destruct (existsb nonzero s) eqn:Hnz.
    + apply lookup_foldl_put_in; [done| |rewrite length_replicate; lia].
      apply list_elem_of_fmap. exists (Z.of_nat j, s). simpl.
      split; [by rewrite Nat2Z.id|].
      apply active_sites_elem. split; [lia|].
      rewrite Z.sub_0_r, Nat2Z.id. done.
    + rewrite lookup_foldl_put_notin.
      * rewrite Forall_lookup in Hw. specialize (Hw _ _ Hs).
        rewrite (all_zero_replicate s), Hw.
        -- apply lookup_replicate. split; [done|lia].
        -- intros v Hv. apply (Hties s); [|done]. apply list_elem_of_lookup; eauto.
        -- done.
      * intros Hin. apply list_elem_of_fmap in Hin as (p & Hp1 & Hp).
        apply list_elem_of_fmap in Hp as ([i s'] & -> & Hp). simpl in Hp1.
        apply active_sites_elem in Hp as (Hle & Hl & Hnz').
        rewrite Z.sub_0_r, <- Hp1 in Hl. congruence.
  - apply lookup_ge_None in Hs. apply lookup_ge_None.
    rewrite length_foldl_put, length_replicate. lia.
Qed.

End Densify.

(** ** Convolution *)

Section ConvFacts.
Context `{Scalar}.

Lemma length_matvec (w : nat → nat → scalar) (out : Z) (x : list scalar) :
  length (matvec w out x) = Z.to_nat out.
Proof. unfold matvec. by rewrite length_fmap, length_seq. Qed.

Lemma length_conv_at cfg s w bias x o :
  length (conv_at cfg s w bias x o) = Z.to_nat (out_channels cfg).
Proof.
  unfold conv_at. destruct o as [[b oy] ox].
  set (step := λ (acc : list scalar) (k : Z * Z), _).
  assert (∀ ks acc, length acc = Z.to_nat (out_channels cfg) →
                    length (foldl step acc ks) = Z.to_nat (out_channels cfg)) as Hfold.
  { induction ks as [|k ks IH]; intros acc Hacc; simpl; [done|].
    apply IH. unfold step. destruct (find_site _ _ _); [|done].
    unfold vadd. rewrite length_zip_with, length_matvec. lia. }
  destruct bias; [rewrite length_imap|]; apply Hfold, length_replicate.
Qed.

Lemma kernel_offsets_elem (k ky kx : Z) :
  (ky, kx) ∈ kernel_offsets k ↔ 0 ≤ ky < k ∧ 0 ≤ kx < k.
Proof.
  unfold kernel_offsets. rewrite list_elem_of_bind. split.
  - intros (y & Hin & Hy). apply list_elem_of_bind in Hin as (x' & Hin & Hx).
    apply list_elem_of_singleton in Hin. inversion Hin; subst.
    apply elem_of_seqZ in Hy, Hx. lia.
  - intros [Hy Hx]. exists ky. split; [|apply elem_of_seqZ; lia].
    apply list_elem_of_bind. exists kx. split; [by apply list_elem_of_singleton|].
    apply elem_of_seqZ; lia.
Qed.

(** An output site is produced by an input site exactly when the input lies
    in the output's receptive field and the output lies in the grid. *)
Lemma out_candidates_elem cfg H' W' (c o : coord) :
  0 < stride cfg →
  o ∈ out_candidates cfg H' W' c ↔
  o.1.1 = c.1.1 ∧ 0 ≤ o.1.2 < H' ∧ 0 ≤ o.2 < W' ∧
  ∃ ky kx, 0 ≤ ky < kernel_size cfg ∧ 0 ≤ kx < kernel_size cfg ∧
           c.1.2 = o.1.2 * stride cfg - padding cfg + ky ∧
           c.2 = o.2 * stride cfg - padding cfg + kx.
Proof.
  intros Hs. destruct c as [[b y] x], o as [[ob oy] ox]. unfold out_candidates; simpl.
  rewrite list_elem_of_bind. split.
  - intros ([ky kx] & Hin & Hk). apply kernel_offsets_elem in Hk. simpl in Hin.
    destruct (_ && _) eqn:Hcond in Hin; [|by apply elem_of_nil in Hin].
    apply list_elem_of_singleton in Hin. inversion Hin; subst; clear Hin.
    rewrite !andb_true_iff, !Z.eqb_eq, !Z.leb_le, !Z.ltb_lt in Hcond.
    destruct Hcond as (((((Hmy & Hmx) & ?) & ?) & ?) & ?).
    repeat split; try lia. exists ky, kx.
    pose proof (Z.div_mod (y + padding cfg - ky) (stride cfg)).
    pose proof (Z.div_mod (x + padding cfg - kx) (stride cfg)).
    repeat split; try lia.
  - intros (-> & Hy & Hx & ky & kx & Hky & Hkx & -> & ->).
    exists (ky, kx). split; [|by apply kernel_offsets_elem]. simpl.
    replace (oy * stride cfg - padding cfg + ky + padding cfg - ky) with (oy * stride cfg) by lia.
    replace (ox * stride cfg - padding cfg + kx + padding cfg - kx) with (ox * stride cfg) by lia.
    rewrite !Z.mod_mul, !Z.div_mul by lia.
    replace ((0 =? 0) && (0 =? 0) && (0 <=? oy) && (oy <? H') && (0 <=? ox) && (ox <? W'))
      with true.
    + by apply list_elem_of_singleton.
    + symmetry. rewrite !andb_true_iff, !Z.eqb_eq, !Z.leb_le, !Z.ltb_lt. lia.
Qed.

End ConvFacts.

(** ** Stages on well-formed views *)

Section StageFacts.
Context `{Scalar}.

Lemma check_conv_input_spec cfg x :
  check_conv_input cfg x = true ↔
  t2_cols (features x) = in_channels cfg ∧
  kernel_size cfg - padding cfg ≤ (spatial_shape x).1 ∧
  kernel_size cfg - padding cfg ≤ (spatial_shape x).2.
Proof.
  unfold check_conv_input. destruct (spatial_shape x) as [Hh Ww]; simpl.
  rewrite !andb_true_iff, Z.eqb_eq, !Z.leb_le. tauto.
Qed.

Lemma conv_rows_wf cfg s w bias x (idx : list coord) :
  0 ≤ out_channels cfg →
  wf_Tensor2 (mkTensor2 (conv_at cfg s w bias x <$> idx) (out_channels cfg)).
Proof.
  intros Hout. split; [done|]. simpl. apply Forall_fmap, Forall_forall.
  intros o _. simpl. apply length_conv_at.
Qed.

(** A submanifold convolution keeps the view's coordinates, grid and batch,
    and leaves a well-formed view with [out_channels] channels. *)
Lemma SubMConv2d_forward_sig cfg w bias x N Hh Ww :
  view_sig N Hh Ww (in_channels cfg) x →
  kernel_size cfg - padding cfg ≤ Hh → kernel_size cfg - padding cfg ≤ Ww →
  0 ≤ out_channels cfg →
  ∃ y, SubMConv2d_forward cfg w bias x = ok y ∧
       view_sig N Hh Ww (out_channels cfg) y ∧ indices y = indices x.
Proof.
  intros (Hv & Hnd & HN & Hsh & HC) HkH HkW Hout.
  unfold SubMConv2d_forward.
  rewrite (proj2 (check_conv_input_spec cfg x)) by (rewrite Hsh; done).
  eexists. split; [done|]. split; [|done].
  apply check_view_spec in Hv as (HN0 & HH0 & HW0 & Hwf & Hlen & Hin).
  split_and!; simpl; try done.
  apply check_view_spec; simpl. split_and!; try done.
  - by apply conv_rows_wf.
  - by rewrite length_fmap.
Qed.

Lemma conv_out_size_pos size k s p :
  0 < s → 0 ≤ p → k - p ≤ size → 0 < conv_out_size size k s p.
Proof.
  intros Hs Hp Hk. unfold conv_out_size.
  assert (0 ≤ (size + 2 * p - k) / s) by (apply Z.div_pos; lia). lia.
Qed.

(** A strided convolution leaves a well-formed view over the output grid
    given by the extent formula. *)
Lemma SparseConv2d_forward_sig cfg w bias x N Hh Ww :
  view_sig N Hh Ww (in_channels cfg) x →
  kernel_size cfg - padding cfg ≤ Hh → kernel_size cfg - padding cfg ≤ Ww →
  0 < stride cfg → 0 ≤ padding cfg → 0 ≤ out_channels cfg →
  ∃ y, SparseConv2d_forward cfg w bias x = ok y ∧
       view_sig N (conv_out_size Hh (kernel_size cfg) (stride cfg) (padding cfg))
                  (conv_out_size Ww (kernel_size cfg) (stride cfg) (padding cfg))
                  (out_channels cfg) y.
Proof.
  intros (Hv & Hnd & HN & Hsh & HC) HkH HkW Hs Hp Hout.
  unfold SparseConv2d_forward.
  rewrite (proj2 (check_conv_input_spec cfg x)) by (rewrite Hsh; done).
  rewrite Hsh. eexists. split; [done|].
  apply check_view_spec in Hv as (HN0 & HH0 & HW0 & Hwf & Hlen & Hin).
  pose proof (conv_out_size_pos Hh _ _ _ Hs Hp HkH).
  pose proof (conv_out_size_pos Ww _ _ _ Hs Hp HkW).
  split_and!; simpl; try done; [|apply NoDup_remove_dups].
  apply check_view_spec; simpl. split_and!; try lia.
  - by apply conv_rows_wf.
  - by rewrite length_fmap.
  - apply Forall_forall. intros o Ho.
    apply elem_of_remove_dups, list_elem_of_bind in Ho as (c & Ho & Hc).
    apply out_candidates_elem in Ho as (Hb & Hy & Hx & _); [|done].
    rewrite Forall_forall in Hin. specialize (Hin c Hc).
    rewrite Hsh in Hin. apply in_range_spec in Hin as (Hcb & _).
    apply in_range_spec. rewrite Hb. lia.
Qed.

End StageFacts.

(** ** Modules *)

Section ModuleFacts.
Context `{Scalar} `{!RandomSource}.

Lemma BatchNorm1d_forward_eval nf mom st t :
  BatchNorm1d_forward false nf mom st t =
  (st, if t2_cols t =? nf
       then ok (mkTensor2 (bn_normalize st (running_mean st) (running_var st) <$> t2_rows t)
                  (t2_cols t))
       else raise RuntimeError).
Proof. unfold BatchNorm1d_forward. by destruct (t2_cols t =? nf). Qed.

(** Whatever the mode, a batch norm that returns keeps the number of rows,
    their widths and the column count. *)
Lemma BatchNorm1d_forward_shape tr nf mom st t st' t' :
  BatchNorm1d_forward tr nf mom st t = (st', ok t') →
  t2_cols t' = t2_cols t ∧ length (t2_rows t') = length (t2_rows t) ∧
  (wf_Tensor2 t → wf_Tensor2 t').
Proof.
  unfold BatchNorm1d_forward.
  assert (∀ mu var,
    let t'' := mkTensor2 (bn_normalize st mu var <$> t2_rows t) (t2_cols t) in
    t2_cols t'' = t2_cols t ∧ length (t2_rows t'') = length (t2_rows t) ∧
    (wf_Tensor2 t → wf_Tensor2 t'')) as Hgen.
  { intros mu var. simpl. split_and!; [done|by rewrite length_fmap|].
    intros [HC Hrows]. split; [done|]. simpl.
    apply Forall_fmap. eapply Forall_impl; [exact Hrows|].
    intros r Hr. simpl. unfold bn_normalize. by rewrite length_imap. }
  destruct (t2_cols t =? nf); simpl; [|intros [=]].
  destruct tr.
  - destruct (length (t2_rows t) =? 1)%nat; [intros [=]|].
    intros [= <- <-]. apply Hgen.
  - intros [= <- <-]. apply Hgen.
Qed.

Lemma relu_tensor_wf t :
  wf_Tensor2 t → wf_Tensor2 (mkTensor2 (relu <$> t2_rows t) (t2_cols t)).
Proof.
  intros [HC Hrows]. split; [done|]. simpl. apply Forall_fmap.
  eapply Forall_impl; [exact Hrows|]. intros r Hr. simpl. unfold relu. by rewrite length_fmap.
Qed.

Lemma replace_feature_sig N Hh Ww C C' x f :
  view_sig N Hh Ww C x → wf_Tensor2 f → t2_cols f = C' →
  length (t2_rows f) = length (t2_rows (features x)) →
  view_sig N Hh Ww C' (replace_feature x f).
Proof.
  intros (Hv & Hnd & HN & Hsh & HC) Hwf HC' Hlen.
  apply check_view_spec in Hv as (HN0 & HH0 & HW0 & Hwfx & Hlenx & Hin).
  unfold view_sig; simpl. split_and!; try done.
  apply check_view_spec; simpl. split_and!; try done. congruence.
Qed.

(** The state a conv-bn-relu stage is left in, and its output, in terms of the
    three layers: the convolution [conv] (stateless), the batch norm and the
    relu, the last two applied to the features. *)
Lemma conv_bn_relu_forward tr (c : module) nf mom bn x g
    (conv : SparseConvTensor → result SparseConvTensor) :
  is_spconv_module c = true →
  (∀ g, module_forward tr c (VSparse x) g = (c, g, y <- conv x ;; ok (VSparse y))) →
  module_forward tr (SparseSequential [c; BatchNorm1d nf mom bn; ReLU]) (VSparse x) g =
  match conv x with
  | inl e => (SparseSequential [c; BatchNorm1d nf mom bn; ReLU], g, inl e)
  | inr y =>
      let '(bn', r) := BatchNorm1d_forward tr nf mom bn (features y) in
      (SparseSequential [c; BatchNorm1d nf mom bn'; ReLU], g,
       f <- r ;;
       ok (VSparse (replace_feature y (mkTensor2 (relu <$> t2_rows f) (t2_cols f)))))
  end.
Proof.
  intros Hsp Hc. cbn [module_forward seq_forward]. rewrite Hsp, Hc.
  destruct (conv x) as [e|y]; cbn [bind ok]; [done|].
  cbn [is_spconv_module on_features module_forward features].
  destruct (BatchNorm1d_forward tr nf mom bn (features y)) as [bn' [e|f]];
    cbn [bind ok on_features]; done.
Qed.

End ModuleFacts.

(** ** The conv-bn-relu stages *)

Section StageForward.
Context `{Scalar} `{!RandomSource}.


Lemma SubMConvBNReLU_forward tr i o k s gr w bn x g :
  module_forward tr (SubMConvBNReLU i o k s gr w bn) (VSparse x) g =
  match SubMConv2d_forward (stage_cfg i o k s gr) w None x with
  | inl e => (SubMConvBNReLU i o k s gr w bn, g, inl e)
  | inr y =>
      let '(bn', r) := BatchNorm1d_forward tr o (fliteral 1 (-1)) bn (features y) in
      (SubMConvBNReLU i o k s gr w bn', g,
       f <- r ;;
       ok (VSparse (replace_feature y (mkTensor2 (relu <$> t2_rows f) (t2_cols f)))))
  end.
Proof. unfold SubMConvBNReLU. by apply conv_bn_relu_forward. Qed.

Lemma SparseConvBNReLU_forward tr i o k s gr w bn x g :
  module_forward tr (SparseConvBNReLU i o k s gr w bn) (VSparse x) g =
  match SparseConv2d_forward (stage_cfg i o k s gr) w None x with
  | inl e => (SparseConvBNReLU i o k s gr w bn, g, inl e)
  | inr y =>
      let '(bn', r) := BatchNorm1d_forward tr o (fliteral 1 (-1)) bn (features y) in
      (SparseConvBNReLU i o k s gr w bn', g,
       f <- r ;;
       ok (VSparse (replace_feature y (mkTensor2 (relu <$> t2_rows f) (t2_cols f)))))
  end.
Proof. unfold SparseConvBNReLU. by apply conv_bn_relu_forward. Qed.

Lemma SubMConv2d_forward_inv cfg w bias x y :
  SubMConv2d_forward cfg w bias x = ok y →
  check_conv_input cfg x = true ∧ indices y = indices x ∧
  spatial_shape y = spatial_shape x ∧ batch_size y = batch_size x ∧
  t2_cols (features y) = out_channels cfg.
Proof.
  unfold SubMConv2d_forward. destruct (check_conv_input cfg x); [|intros [=]].
  intros [= <-]. done.
Qed.

Lemma SparseConv2d_forward_inv cfg w bias x y :
  SparseConv2d_forward cfg w bias x = ok y →
  check_conv_input cfg x = true ∧
  indices y =
    remove_dups (indices x ≫= out_candidates cfg
       (conv_out_size (spatial_shape x).1 (kernel_size cfg) (stride cfg) (padding cfg))
       (conv_out_size (spatial_shape x).2 (kernel_size cfg) (stride cfg) (padding cfg))) ∧
  spatial_shape y =
    (conv_out_size (spatial_shape x).1 (kernel_size cfg) (stride cfg) (padding cfg),
     conv_out_size (spatial_shape x).2 (kernel_size cfg) (stride cfg) (padding cfg)) ∧
  batch_size y = batch_size x ∧
  t2_cols (features y) = out_channels cfg.
Proof.
  unfold SparseConv2d_forward. destruct (check_conv_input cfg x); [|intros [=]].
  destruct (spatial_shape x) as [Hh Ww]. intros [= <-]. done.
Qed.

(** A returning conv-bn-relu stage hands on the view of its convolution with
    new features. *)
Lemma stage_result_inv tr nf mom bn (m : BNState → module) (m' : module) (g g' : rng)
    (v : value) (conv : result SparseConvTensor) :
  match conv with
  | inl e => (m bn, g, inl e)
  | inr y =>
      let '(bn', r) := BatchNorm1d_forward tr nf mom bn (features y) in
      (m bn', g,
       f <- r ;;
       ok (VSparse (replace_feature y (mkTensor2 (relu <$> t2_rows f) (t2_cols f)))))
  end = (m', g', ok v) →
  ∃ y y', conv = ok y ∧ v = VSparse y' ∧ g' = g ∧
          indices y' = indices y ∧ spatial_shape y' = spatial_shape y ∧
          batch_size y' = batch_size y ∧
          t2_cols (features y') = t2_cols (features y) ∧
          length (t2_rows (features y')) = length (t2_rows (features y)).
Proof.
  destruct conv as [e|y0]; [intros [=]|].
  destruct (BatchNorm1d_forward tr nf mom bn (features y0)) as [bn' [e|f]] eqn:Hbn;
    cbn [bind ok]; [intros [=]|].
  intros [= _ <- <-].
  apply BatchNorm1d_forward_shape in Hbn as (HC & Hlen & _).
  exists y0, (replace_feature y0 (mkTensor2 (relu <$> t2_rows f) (t2_cols f))).
  simpl. rewrite length_fmap. done.
Qed.

(** In evaluation a conv-bn-relu stage is left as it was, and maps a
    well-formed view to a well-formed view. *)
Lemma stage_eval_sig N Hh Ww C nf mom bn (m : BNState → module) (g : rng)
    (y : SparseConvTensor) :
  view_sig N Hh Ww C y → C = nf →
  ∃ y', (let '(bn', r) := BatchNorm1d_forward false nf mom bn (features y) in
         (m bn', g,
          f <- r ;;
          ok (VSparse (replace_feature y (mkTensor2 (relu <$> t2_rows f) (t2_cols f))))))
        = (m bn, g, ok (VSparse y')) ∧
        view_sig N Hh Ww C y' ∧ indices y' = indices y.
Proof.
  intros Hsig ->. rewrite BatchNorm1d_forward_eval.
  destruct Hsig as (Hv & Hnd & HN & Hsh & HC). subst nf. rewrite Z.eqb_refl. cbn [bind ok].
  eexists. split; [done|]. split; [|done].
  pose proof Hv as Hv'.
  apply check_view_spec in Hv' as (HN0 & HH0 & HW0 & Hwfx & Hlenx & Hin).
  eapply replace_feature_sig;
    [exact (conj Hv (conj Hnd (conj HN (conj Hsh eq_refl))))| |done|].
  - apply relu_tensor_wf. destruct Hwfx as [? Hrows]. split; [by simpl|]. simpl.
    apply Forall_fmap. eapply Forall_impl; [exact Hrows|].
    intros r Hr. simpl. unfold bn_normalize. by rewrite length_imap.
  - simpl. by rewrite !length_fmap.
Qed.

Lemma SubMConvBNReLU_eval_sig N Hh Ww i o k s gr w bn x g :
  view_sig N Hh Ww i x →
  k - (k - 1) / 2 ≤ Hh → k - (k - 1) / 2 ≤ Ww → 0 ≤ o →
  ∃ y, module_forward false (SubMConvBNReLU i o k s gr w bn) (VSparse x) g =
         (SubMConvBNReLU i o k s gr w bn, g, ok (VSparse y)) ∧
       view_sig N Hh Ww o y ∧ indices y = indices x.
Proof.
  intros Hsig HkH HkW Ho. rewrite SubMConvBNReLU_forward.
  destruct (SubMConv2d_forward_sig (stage_cfg i o k s gr) w None x N Hh Ww)
    as (y & -> & Hy & Hidx); try done.
  destruct (stage_eval_sig N Hh Ww o o (fliteral 1 (-1)) bn
              (SubMConvBNReLU i o k s gr w) g y Hy eq_refl) as (y' & Heq & Hy' & Hidx').
  exists y'. split_and!; [exact Heq|done|congruence].
Qed.

Lemma SparseConvBNReLU_eval_sig N Hh Ww i o k s gr w bn x g :
  view_sig N Hh Ww i x →
  k - (k - 1) / 2 ≤ Hh → k - (k - 1) / 2 ≤ Ww → 0 < s → 1 ≤ k → 0 ≤ o →
  ∃ y, module_forward false (SparseConvBNReLU i o k s gr w bn) (VSparse x) g =
         (SparseConvBNReLU i o k s gr w bn, g, ok (VSparse y)) ∧
       view_sig N (conv_out_size Hh k s ((k - 1) / 2)) (conv_out_size Ww k s ((k - 1) / 2)) o y.
Proof.
  intros Hsig HkH HkW Hs Hk Ho. rewrite SparseConvBNReLU_forward.
  destruct (SparseConv2d_forward_sig (stage_cfg i o k s gr) w None x N Hh Ww)
    as (y & -> & Hy); try done.
  { simpl. apply Z.div_pos; lia. }
  simpl in Hy.
  destruct (stage_eval_sig N _ _ o o (fliteral 1 (-1)) bn
              (SparseConvBNReLU i o k s gr w) g y Hy eq_refl) as (y' & Heq & Hy' & Hidx').
  exists y'. split; [exact Heq|done].
Qed.

End StageForward.

(** ** Containers, flatten, log_softmax *)

Section NetFacts.
Context `{Scalar} `{!RandomSource}.

Lemma SparseSequential_nil tr x g :
  module_forward tr (SparseSequential []) x g = (SparseSequential [], g, ok x).
Proof. done. Qed.

Lemma SparseSequential_cons tr m ms x g m' g' y ms' g'' r :
  is_spconv_module m = true →
  module_forward tr m x g = (m', g', ok y) →
  module_forward tr (SparseSequential ms) y g' = (SparseSequential ms', g'', r) →
  module_forward tr (SparseSequential (m :: ms)) x g = (SparseSequential (m' :: ms'), g'', r).
Proof.
  intros Hsp Hm Hms. cbn [module_forward seq_forward] in *. rewrite Hsp, Hm. cbn [ok].
  destruct (seq_forward _ ms y g') as [[ms1 g1] r1]. by inversion Hms.
Qed.

Lemma length_concat_uniform {A} (l : list (list A)) (c : nat) :
  Forall (λ r, length r = c) l → length (concat l) = (length l * c)%nat.
Proof.
  induction 1 as [|r l Hr _ IH]; simpl; [done|]. rewrite length_app, IH, Hr. done.
Qed.

(** Flattening a well-formed dense batch of shape [[N, H, W, C]] gives [N]
    rows of [H * W * C] scalars. *)
Lemma flatten_dense_shape (d : Dense) N Hh Ww C :
  wf_Dense d → d_shape d = (N, Hh, Ww, C) →
  ∃ t, flatten (VDense d) = ok t ∧ t2_cols t = Hh * Ww * C ∧
       length (t2_rows t) = Z.to_nat N ∧ wf_Tensor2 t.
Proof.
  unfold wf_Dense. intros Hwf Hshape. rewrite Hshape in Hwf.
  destruct Hwf as (HN & HH & HW & HC & Hlen & Hw).
  unfold flatten. rewrite Hshape. eexists. split; [done|]. simpl.
  split_and!; [done|by rewrite length_fmap, length_seq|].
  split; simpl; [nia|].
  apply Forall_fmap, Forall_forall. intros b Hb. simpl.
  apply elem_of_seq in Hb.
  rewrite (length_concat_uniform _ (Z.to_nat C)).
  - rewrite length_take, length_drop. nia.
  - apply Forall_take, Forall_drop. done.
Qed.

Lemma log_softmax_shape (t : Tensor2) :
  t2_cols (log_softmax t) = t2_cols t ∧
  length (t2_rows (log_softmax t)) = length (t2_rows t) ∧
  (wf_Tensor2 t → wf_Tensor2 (log_softmax t)).
Proof.
  unfold log_softmax; simpl. split_and!; [done|by rewrite length_fmap|].
  intros [HC Hrows]. split; [done|]. simpl. apply Forall_fmap.
  eapply Forall_impl; [exact Hrows|]. intros r Hr. simpl. by rewrite length_fmap.
Qed.

Lemma from_dense_sig (B : Dense) N Hh Ww C :
  wf_Dense B → d_shape B = (N, Hh, Ww, C) → view_sig N Hh Ww C (from_dense B).
Proof.
  intros Hwf Hshape. split_and!; [by apply from_dense_check_view|by apply from_dense_NoDup|..];
    rewrite from_dense_fields, Hshape; done.
Qed.

Lemma view_eta (x : SparseConvTensor) :
  SparseConvTensor_init (features x) (indices x) (spatial_shape x) (batch_size x) = x.
Proof. by destruct x. Qed.

End NetFacts.

(** ** [NetPTQ] in evaluation *)

Section NetPTQFacts.
Context `{Scalar} `{!RandomSource}.

Lemma ToDense_module_sig tr N Hh Ww C x g :
  view_sig N Hh Ww C x →
  ∃ d, module_forward tr ToDense (VSparse x) g = (ToDense, g, ok (VDense d)) ∧
       wf_Dense d ∧ d_shape d = (N, Hh, Ww, C).
Proof.
  intros (Hv & Hnd & HN & Hsh & HC). cbn [module_forward].
  pose proof (ToDense_forward_ok x Hv Hnd) as Hok.
  eexists. rewrite Hok. split; [done|]. split.
  - eapply ToDense_forward_wf, Hok.
  - simpl. by rewrite HN, Hsh, HC.
Qed.

Lemma SparseConv2d_module_sig tr cfg w bias N Hh Ww x g :
  view_sig N Hh Ww (in_channels cfg) x →
  kernel_size cfg - padding cfg ≤ Hh → kernel_size cfg - padding cfg ≤ Ww →
  0 < stride cfg → 0 ≤ padding cfg → 0 ≤ out_channels cfg →
  ∃ y, module_forward tr (SparseConv2d cfg w bias) (VSparse x) g =
         (SparseConv2d cfg w bias, g, ok (VSparse y)) ∧
       view_sig N (conv_out_size Hh (kernel_size cfg) (stride cfg) (padding cfg))
                  (conv_out_size Ww (kernel_size cfg) (stride cfg) (padding cfg))
                  (out_channels cfg) y.
Proof.
  intros Hsig HkH HkW Hs Hp Ho. cbn [module_forward].
  destruct (SparseConv2d_forward_sig cfg w bias x N Hh Ww) as (y & -> & Hy); try done.
  by exists y.
Qed.

(** The sparse part of [NetPTQ] in evaluation: a well-formed view of [N]
    single-channel 28 x 28 samples comes out as a well-formed dense batch of
    shape [[N, 1, 1, 10]], and no module changes. *)
Lemma NetPTQ_net_eval (w : Weights) (x : SparseConvTensor) N g :
  view_sig N 28 28 1 x →
  ∃ d, module_forward false (NetPTQ.net (NetPTQ.init w)) (VSparse x) g =
         (NetPTQ.net (NetPTQ.init w), g, ok (VDense d)) ∧
       wf_Dense d ∧ d_shape d = (N, 1, 1, 10).
Proof.
  intros Hx0. cbn [NetPTQ.net NetPTQ.init].
  destruct (SubMConvBNReLU_eval_sig N 28 28 1 32 3 1 1 (conv_weight w 0%nat)
              (conv_bn w 0%nat) x g Hx0) as (x1 & E1 & Hx1 & _); [done..|].
  destruct (SubMConvBNReLU_eval_sig N 28 28 32 64 3 1 1 (conv_weight w 1%nat)
              (conv_bn w 1%nat) x1 g Hx1) as (x2 & E2 & Hx2 & _); [done..|].
  destruct (SparseConvBNReLU_eval_sig N 28 28 64 64 2 2 1 (conv_weight w 2%nat)
              (conv_bn w 2%nat) x2 g Hx2) as (x3 & E3 & Hx3); [done..|].
  change (conv_out_size 28 2 2 ((2 - 1) / 2)) with 14 in Hx3.
  destruct (SparseConvBNReLU_eval_sig N 14 14 64 64 2 2 1 (conv_weight w 3%nat)
              (conv_bn w 3%nat) x3 g Hx3) as (x4 & E4 & Hx4); [done..|].
  change (conv_out_size 14 2 2 ((2 - 1) / 2)) with 7 in Hx4.
  destruct (SparseConvBNReLU_eval_sig N 7 7 64 64 3 2 1 (conv_weight w 4%nat)
              (conv_bn w 4%nat) x4 g Hx4) as (x5 & E5 & Hx5); [done..|].
  change (conv_out_size 7 3 2 ((3 - 1) / 2)) with 4 in Hx5.
  destruct (SparseConv2d_module_sig false (mkConvCfg 64 10 4 4 0 1) (conv_weight w 5%nat)
              (last_bias w) N 4 4 x5 g Hx5) as (x6 & E6 & Hx6); [done..|].
  change (conv_out_size 4 _ _ _) with 1 in Hx6. cbn [out_channels] in Hx6.
  destruct (ToDense_module_sig false N 1 1 10 x6 g Hx6) as (d & E7 & Hwf & Hshape).
  exists d. split; [|done].
  repeat (eapply SparseSequential_cons; [done|eassumption|]).
  apply SparseSequential_nil.
Qed.

Lemma QuantStub_forward tr x g :
  module_forward tr QuantStub x g = (QuantStub, g, ok x).
Proof. done. Qed.

Lemma DeQuantStub_forward tr x g :
  module_forward tr DeQuantStub x g = (DeQuantStub, g, ok x).
Proof. done. Qed.

(** [NetPTQ.forward] in evaluation on the triple of a well-formed view of [N]
    single-channel 28 x 28 samples: it returns, the output has shape
    [[N, 10]], and the network is left as it was. *)
Lemma NetPTQ_forward_eval (w : Weights) (x : SparseConvTensor) N g :
  view_sig N 28 28 1 x →
  ∃ out, NetPTQ.forward (NetPTQ.eval (NetPTQ.init w))
           (features x) (indices x) (batch_size x) g =
           (NetPTQ.eval (NetPTQ.init w), g, ok out) ∧
         t2_cols out = 10 ∧ length (t2_rows out) = Z.to_nat N ∧ wf_Tensor2 out.
Proof.
  intros Hsig. pose proof Hsig as (_ & _ & _ & Hsh & _).
  unfold NetPTQ.forward.
  cbn [NetPTQ.training NetPTQ.eval NetPTQ.set_training NetPTQ.quant NetPTQ.dequant NetPTQ.net
       NetPTQ.init].
  rewrite QuantStub_forward. cbn [as_tensor bind ok].
  rewrite <- Hsh, view_eta.
  destruct (NetPTQ_net_eval w x N g Hsig) as (d & E & Hwf & Hshape).
  cbn [NetPTQ.net NetPTQ.init] in E. rewrite E.
  destruct (flatten_dense_shape d N 1 1 10 Hwf Hshape) as (t & Et & Hc & Hr & Hwt).
  unfold flatten_value. cbn [bind ok]. rewrite Et. cbn [bind ok step].
  rewrite DeQuantStub_forward.
  unfold log_softmax_value. cbn [as_tensor bind ok].
  destruct (log_softmax_shape t) as (Hc' & Hr' & Hw').
  eexists. split; [done|]. split_and!; [by rewrite Hc', Hc|congruence|auto].
Qed.

End NetPTQFacts.

(** ** Induction over module trees *)

Section ModuleInduction.
Context `{Scalar} `{!RandomSource}.

(** Induction over a module tree: the children of a container satisfy the
    property before the container does. *)
Lemma module_tree_ind (P : module → Prop) :
  (∀ ms, Forall P ms → P (SparseSequential ms)) →
  (∀ m, children m = [] → (∀ ms, m ≠ SparseSequential ms) → P m) →
  ∀ m, P m.
Proof.
  intros Hseq Hleaf. fix IH 1. intros m.
  destruct m as [| | |ms| | | | | | |]; try (apply Hleaf; [done|intros ? [=]]).
  apply Hseq. induction ms as [|c ms IHms]; constructor; [apply IH|apply IHms].
Qed.

Lemma reset_observers_seq ms :
  reset_observers (SparseSequential ms) = SparseSequential (reset_observers <$> ms).
Proof.
  cbn [reset_observers]. by f_equal.
Qed.

Lemma parameters_seq ms :
  parameters (SparseSequential ms) = ms ≫= parameters.
Proof.
  cbn [parameters]. induction ms as [|c ms IH]; [done|].
  rewrite bind_cons. by f_equal.
Qed.

Lemma bn_buffers_seq ms :
  bn_buffers (SparseSequential ms) = ms ≫= bn_buffers.
Proof.
  cbn [bn_buffers]. induction ms as [|c ms IH]; [done|].
  rewrite bind_cons. by f_equal.
Qed.

Lemma submodules_seq ms :
  submodules (SparseSequential ms) = SparseSequential ms :: (ms ≫= submodules).
Proof.
  cbn [submodules]. by f_equal.
Qed.

(** Emptying the observers touches neither the parameters nor the
    batch-norm buffers. *)
Lemma parameters_reset_observers m :
  parameters (reset_observers m) = parameters m.
Proof.
  induction m as [ms IH|m Hc Hns] using module_tree_ind.
  - rewrite reset_observers_seq, !parameters_seq.
    induction IH as [|c ms Hc _ IHms]; [done|].
    rewrite fmap_cons, !bind_cons. by f_equal.
  - destruct m as [| | |ms| | | | | | |]; try done. by destruct (Hns ms).
Qed.

Lemma bn_buffers_reset_observers m :
  bn_buffers (reset_observers m) = bn_buffers m.
Proof.
  induction m as [ms IH|m Hc Hns] using module_tree_ind.
  - rewrite reset_observers_seq, !bn_buffers_seq.
    induction IH as [|c ms Hc _ IHms]; [done|].
    rewrite fmap_cons, !bind_cons. by f_equal.
  - destruct m as [| | |ms| | | | | | |]; try done. by destruct (Hns ms).
Qed.

End ModuleInduction.

(** ** Evaluation mode reads and writes the observers only *)

Section EvalFrame.
Context `{Scalar} `{!RandomSource}.

Lemma is_spconv_module_reset m :
  is_spconv_module (reset_observers m) = is_spconv_module m.
Proof. by destruct m. Qed.

Lemma on_features_rel m1 (fwd1 fwd2 : value → rng → outcome) x g1 g2 :
  (∀ x g1 g2, eval_rel m1 g1 (fwd1 x g1) (fwd2 x g2)) →
  eval_rel m1 g1 (on_features fwd1 x g1) (on_features fwd2 x g2).
Proof.
  intros Hrel. destruct x as [s|d|t]; cbn [on_features]; [|apply Hrel..].
  specialize (Hrel (VTensor (features s)) g1 g2).
  destruct (fwd1 _ g1) as [[m1' g1'] r1], (fwd2 _ g2) as [[m2' g2'] r2].
  destruct Hrel as (Hr & Hg & Hm). simpl in *. subst. done.
Qed.

Lemma seq_forward_rel ms1 (fwd : module → value → rng → outcome) :
  fwd = (λ c x g, if is_spconv_module c then module_forward false c x g
                  else on_features (module_forward false c) x g) →
  Forall eval_ok ms1 →
  ∀ ms2 x g1 g2, reset_observers <$> ms1 = reset_observers <$> ms2 →
    (seq_forward fwd ms1 x g1).2 = (seq_forward fwd ms2 x g2).2 ∧
    (seq_forward fwd ms1 x g1).1.2 = g1 ∧
    reset_observers <$> (seq_forward fwd ms1 x g1).1.1 = reset_observers <$> ms1.
Proof.
  intros Hfwd.
  induction 1 as [|c1 ms1 Hc _ IH]; intros [|c2 ms2] x g1 g2 Heq; try done.
  rewrite !fmap_cons in Heq. injection Heq as Hceq Hmseq.
  cbn [seq_forward].
  assert (eval_rel c1 g1 (fwd c1 x g1) (fwd c2 x g2)) as Hrel.
  { rewrite Hfwd. rewrite <- (is_spconv_module_reset c1), Hceq, is_spconv_module_reset.
    destruct (is_spconv_module c2); [by apply Hc|].
    apply on_features_rel. intros. by apply Hc. }
  destruct (fwd c1 x g1) as [[c1' g1'] r1], (fwd c2 x g2) as [[c2' g2'] r2].
  destruct Hrel as (Hr & Hg & Hm). simpl in Hr, Hg, Hm. subst r2 g1'.
  destruct r1 as [e|y].
  - cbn [fst snd]. split_and!; [done|done|]. rewrite !fmap_cons. by f_equal.
  - specialize (IH ms2 y g1 g2' Hmseq).
    destruct (seq_forward fwd ms1 y g1) as [[ms1' g1''] r1'].
    destruct (seq_forward fwd ms2 y g2') as [[ms2' g2''] r2'].
    cbn [fst snd] in *. destruct IH as (? & ? & ?). split_and!; [done|done|].
    rewrite !fmap_cons. by f_equal.
Qed.

(** In evaluation mode a module call reads neither the generator nor the
    observers, and changes nothing but the observers. *)
Lemma module_forward_eval_ok m : eval_ok m.
Proof.
  induction m as [ms IH|m Hc Hns] using module_tree_ind; intros m2 x g1 g2 Heq.
  - destruct m2 as [| | |ms2| | | | | | |]; try discriminate Heq.
    rewrite !reset_observers_seq in Heq. injection Heq as Heq.
    pose proof (seq_forward_rel ms _ eq_refl IH ms2 x g1 g2 Heq) as Hrel.
    cbn [module_forward].
    destruct (seq_forward _ ms x g1) as [[ms1' g1'] r1].
    destruct (seq_forward _ ms2 x g2) as [[ms2' g2'] r2].
    cbn [fst snd] in Hrel. destruct Hrel as (? & ? & ?).
    unfold eval_rel; cbn [fst snd]. split_and!; [done|done|].
    rewrite !reset_observers_seq. by f_equal.
  - destruct m as [| | |ms| | | | | | |]; try (by destruct (Hns ms));
      destruct m2 as [| | |ms2| | | | | | |]; try discriminate Heq;
      try (injection Heq as ?; subst); unfold eval_rel; try done.
    + cbn [module_forward]. destruct x as [s|d|t]; try done.
      rewrite BatchNorm1d_forward_eval. done.
    + cbn [module_forward]. destruct x as [s|d|t]; try done.
Qed.

Lemma module_forward_eval_frame m x g :
  ∃ m' r, module_forward false m x g = (m', g, r) ∧
          reset_observers m' = reset_observers m.
Proof.
  destruct (module_forward_eval_ok m m x g g eq_refl) as (_ & Hg & Hm).
  destruct (module_forward false m x g) as [[m' g'] r]. simpl in *. subst. eauto.
Qed.

Lemma module_forward_eval_output m1 m2 x g1 g2 :
  reset_observers m1 = reset_observers m2 →
  (module_forward false m1 x g1).2 = (module_forward false m2 x g2).2.
Proof. intros Heq. by destruct (module_forward_eval_ok m1 m2 x g1 g2 Heq). Qed.

Lemma step_eval_frame m r g :
  ∃ m' r', step false m r g = (m', g, r') ∧ reset_observers m' = reset_observers m.
Proof.
  destruct r as [e|x]; cbn [step]; [by eauto|]. apply module_forward_eval_frame.
Qed.

Lemma step_eval_output m1 m2 r g1 g2 :
  reset_observers m1 = reset_observers m2 →
  (step false m1 r g1).2 = (step false m2 r g2).2.
Proof.
  intros Heq. destruct r as [e|x]; cbn [step]; [done|].
  by apply module_forward_eval_output.
Qed.

End EvalFrame.

(** ** [NetPTQ] and [calibrate] in evaluation *)

Section NetPTQEval.
Context `{Scalar} `{!RandomSource}.

Lemma NetPTQ_reset_observers_inv (a b : NetPTQ.t) :
  NetPTQ.reset_observers a = NetPTQ.reset_observers b ↔
  NetPTQ.training a = NetPTQ.training b ∧
  reset_observers (NetPTQ.net a) = reset_observers (NetPTQ.net b) ∧
  reset_observers (NetPTQ.quant a) = reset_observers (NetPTQ.quant b) ∧
  reset_observers (NetPTQ.dequant a) = reset_observers (NetPTQ.dequant b).
Proof.
  unfold NetPTQ.reset_observers. split.
  - intros [= ? ? ? ?]. done.
  - intros (-> & -> & -> & ->). done.
Qed.

(** Two evaluation-mode runs of [NetPTQ.forward] on networks that differ in
    their observers only: same output, generator untouched, network changed
    in the observers only. *)
Lemma NetPTQ_forward_eval_rel (self1 self2 : NetPTQ.t) f i b g1 g2 :
  NetPTQ.training self1 = false →
  NetPTQ.reset_observers self1 = NetPTQ.reset_observers self2 →
  (NetPTQ.forward self1 f i b g1).2 = (NetPTQ.forward self2 f i b g2).2 ∧
  (NetPTQ.forward self1 f i b g1).1.2 = g1 ∧
  NetPTQ.reset_observers (NetPTQ.forward self1 f i b g1).1.1 = NetPTQ.reset_observers self1.
Proof.
  intros Htr Heq. apply NetPTQ_reset_observers_inv in Heq as (Htr2 & Hnet & Hq & Hdq).
  unfold NetPTQ.forward. rewrite <- Htr2, Htr.
  pose proof (module_forward_eval_ok (NetPTQ.quant self1) (NetPTQ.quant self2)
                (VTensor f) g1 g2 Hq) as (Hr & Hg & Hm).
  destruct (module_forward false (NetPTQ.quant self1) (VTensor f) g1) as [[q1 g1'] r1].
  destruct (module_forward false (NetPTQ.quant self2) (VTensor f) g2) as [[q2 g2'] r2].
  cbn [fst snd] in Hr, Hg, Hm. subst r2 g1'.
  destruct (as_tensor r1) as [e|f'].
  { cbn [fst snd]. split_and!; [done|done|].
    apply NetPTQ_reset_observers_inv. by rewrite Htr. }
  pose proof (module_forward_eval_ok (NetPTQ.net self1) (NetPTQ.net self2)
                (VSparse (SparseConvTensor_init f' i (28, 28) b)) g1 g2' Hnet) as (Hr & Hg & Hm').
  destruct (module_forward false (NetPTQ.net self1) _ g1) as [[n1 g1'] r1'].
  destruct (module_forward false (NetPTQ.net self2) _ g2') as [[n2 g2''] r2'].
  cbn [fst snd] in Hr, Hg, Hm'. subst r2' g1'.
  pose proof (step_eval_output _ _ (flatten_value r1') g1 g2'' Hdq) as Hr.
  destruct (step_eval_frame (NetPTQ.dequant self1) (flatten_value r1') g1)
    as (d1 & r1'' & E1 & Hd1).
  rewrite E1 in Hr |- *.
  destruct (step false (NetPTQ.dequant self2) (flatten_value r1') g2'') as [[d2 g2'''] r2''].
  cbn [fst snd] in Hr |- *. subst r2''. split_and!; [done|done|].
  apply NetPTQ_reset_observers_inv. by rewrite Htr.
Qed.

Lemma NetPTQ_call_eval_frame (self : NetPTQ.t) args g :
  NetPTQ.training self = false →
  ∃ self' r, NetPTQ.call self args g = (self', g, r) ∧
             NetPTQ.reset_observers self' = NetPTQ.reset_observers self.
Proof.
  intros Htr.
  assert (∃ self' r, (self, g, @raise Tensor2 TypeError) = (self', g, r) ∧
                     NetPTQ.reset_observers self' = NetPTQ.reset_observers self) as Hbad
    by eauto.
  unfold NetPTQ.call.
  destruct args as [|a1 [|a2 [|a3 [|a4 rest]]]]; try exact Hbad;
    destruct a1 as [| | |f| |]; try exact Hbad;
    destruct a2 as [| | | |i|]; try exact Hbad;
    destruct a3 as [| | | | |b]; try exact Hbad.
  destruct (NetPTQ_forward_eval_rel self self f i b g g Htr eq_refl) as (_ & Hg & Hm).
  destruct (NetPTQ.forward self f i b g) as [[self' g'] r]. cbn [fst snd] in *. subst.
  eauto.
Qed.

Lemma NetPTQ_parameters_reset (self : NetPTQ.t) :
  NetPTQ.parameters (NetPTQ.reset_observers self) = NetPTQ.parameters self.
Proof.
  unfold NetPTQ.parameters, NetPTQ.reset_observers. cbn [NetPTQ.net NetPTQ.quant NetPTQ.dequant].
  by rewrite !parameters_reset_observers.
Qed.

Lemma NetPTQ_bn_buffers_reset (self : NetPTQ.t) :
  NetPTQ.bn_buffers (NetPTQ.reset_observers self) = NetPTQ.bn_buffers self.
Proof.
  unfold NetPTQ.bn_buffers, NetPTQ.reset_observers. cbn [NetPTQ.net NetPTQ.quant NetPTQ.dequant].
  by rewrite !bn_buffers_reset_observers.
Qed.

End NetPTQEval.

Section CalibrateFacts.
Context `{Scalar} `{!RandomSource} `{!Collaborators}.

Lemma model_call_eval_frame args (model : NetPTQ.t) data g :
  NetPTQ.training model = false →
  ∃ model' r, model_call args model data g = (model', g, r) ∧
              NetPTQ.reset_observers model' = NetPTQ.reset_observers model.
Proof.
  intros Htr. unfold model_call. destruct (sparse args).
  - destruct (reshape_28_28_1 data) as [e|d]; [by eauto|].
    by apply NetPTQ_call_eval_frame.
  - by apply NetPTQ_call_eval_frame.
Qed.

Lemma calibrate_loop_frame args data_loader :
  ∀ (model : NetPTQ.t) g, NetPTQ.training model = false →
  ∃ model' r, calibrate_loop args model data_loader g = (model', g, r) ∧
              NetPTQ.reset_observers model' = NetPTQ.reset_observers model.
Proof.
  induction data_loader as [|[image target] rest IH]; intros model g Htr; cbn [calibrate_loop].
  - eauto.
  - destruct (model_call_eval_frame args model image g Htr) as (model1 & r1 & -> & Hm1).
    destruct r1 as [e|out]; [by eauto|].
    assert (NetPTQ.training model1 = false) as Htr1.
    { apply NetPTQ_reset_observers_inv in Hm1 as (-> & _). done. }
    destruct (IH model1 g Htr1) as (model' & r & -> & Hm).
    exists model', r. split; [done|]. congruence.
Qed.

End CalibrateFacts.

(** ** The assert of the fp16 branch *)

Section TrainFacts.
Context `{Scalar} `{!RandomSource} `{!Collaborators}.

Lemma nll_loss_not_assertion output target :
  nll_loss output target ≠ inl AssertionError.
Proof.
  unfold nll_loss. destruct (negb _); [done|]. by destruct (forallb _ target).
Qed.

(** With autocast in effect the loss is float32 whatever the element type of
    the batch and the policy of spconv's layers; without it the loss has the
    element type of the batch. *)
Lemma loss_dtype_float32 args device sparse_policy (d : dtype) :
  fp16 args = true → device = cuda ∨ d = float32 →
  op_dtype (autocast_in_effect args device) sparse_policy OpNllLoss
    (NetPTQ.forward_dtype (autocast_in_effect args device) sparse_policy d) = float32.
Proof.
  intros Hfp Hd. unfold autocast_in_effect. rewrite Hfp. cbn [andb].
  destruct device; [|done]. destruct Hd as [Hd| ->]; [done|]. reflexivity.
Qed.

(** A batch under fp16 whose forward pass and loss succeed passes the assert
    and takes the scaled step. *)
Lemma train_batch_fp16 args device sparse_policy st data target model' g' output loss :
  fp16 args = true → device = cuda ∨ t_dtype data = float32 →
  model_call args (ts_model st) data (ts_rng st) = (model', g', ok output) →
  nll_loss output target = ok loss →
  train_batch args device sparse_policy st data target =
    (mkTrainState
       (scaled_step (ts_scaler st) (zero_grad (ts_optimizer st)) model' data target loss).2
       (scaled_step (ts_scaler st) (zero_grad (ts_optimizer st)) model' data target loss).1.2
       (scaled_step (ts_scaler st) (zero_grad (ts_optimizer st)) model' data target loss).1.1
       g',
     if log_interval args =? 0 then raise ZeroDivisionError else ok tt).
Proof.
  intros Hfp Hd Hcall Hloss. unfold train_batch. rewrite Hcall. cbn [ok]. rewrite Hloss.
  cbn [ok]. rewrite (loss_dtype_float32 args device sparse_policy _ Hfp Hd), Hfp.
  cbn [dtype_is]. by destruct (scaled_step _ _ _ _ _ _) as [[? ?] ?].
Qed.

(** The exceptions of a batch under fp16: the one of the model call, the one
    of the loss, or the division by a zero [log_interval]; the assert adds
    none. *)
Lemma train_batch_fp16_error args device sparse_policy st data target e :
  fp16 args = true → device = cuda ∨ t_dtype data = float32 →
  (train_batch args device sparse_policy st data target).2 = inl e →
  (model_call args (ts_model st) data (ts_rng st)).2 = inl e ∨
  (∃ output, (model_call args (ts_model st) data (ts_rng st)).2 = ok output ∧
             nll_loss output target = inl e) ∨
  (e = ZeroDivisionError ∧ log_interval args = 0).
Proof.
  intros Hfp Hd.
  destruct (model_call args (ts_model st) data (ts_rng st)) as [[model' g'] [e'|output]]
    eqn:Hcall.
  { unfold train_batch. rewrite Hcall. cbn [snd]. intros [= ->]. by left. }
  destruct (nll_loss output target) as [e'|loss] eqn:Hloss.
  { unfold train_batch. rewrite Hcall. cbn [ok]. rewrite Hloss. cbn [snd].
    intros [= ->]. right. left. by exists output. }
  rewrite (train_batch_fp16 args device sparse_policy st data target model' g' output loss)
    by done.
  cbn [snd]. destruct (Z.eqb_spec (log_interval args) 0) as [Hli|]; [|done].
  intros [= <-]. by right; right.
Qed.

(** An AssertionError out of the loop under fp16 is one that a model call
    raised. *)
Lemma train_loop_fp16_assertion args device sparse_policy train_loader :
  fp16 args = true →
  Forall (λ b, device = cuda ∨ t_dtype b.1 = float32) train_loader →
  ∀ st, (train_loop args device sparse_policy st train_loader).2 = inl AssertionError →
  ∃ st' data target, (data, target) ∈ train_loader ∧
    (model_call args (ts_model st') data (ts_rng st')).2 = inl AssertionError.
Proof.
  intros Hfp Hl. induction Hl as [|[data target] rest Hd _ IH]; intros st;
    cbn [train_loop]; [done|].
  pose proof (train_batch_fp16_error args device sparse_policy st data target) as Hb.
  destruct (train_batch args device sparse_policy st data target) as [st1 [e|u]];
    cbn [snd] in *.
  - intros [= ->]. destruct (Hb AssertionError Hfp Hd eq_refl) as [Hc|[(out & _ & Hn)|[? _]]].
    + exists st, data, target. split; [left|done].
    + by apply nll_loss_not_assertion in Hn.
    + done.
  - intros Hrun. destruct (IH st1 Hrun) as (st' & d & t & Hin & Hc).
    exists st', d, t. split; [by right|done].
Qed.

End TrainFacts.

(** ** Either mode *)

Section AnyMode.
Context `{Scalar} `{!RandomSource}.

Lemma SparseSequential_cons_error tr m ms x g m' g' e :
  is_spconv_module m = true →
  module_forward tr m x g = (m', g', inl e) →
  module_forward tr (SparseSequential (m :: ms)) x g = (SparseSequential (m' :: ms), g', inl e).
Proof. intros Hsp Hm. cbn [module_forward seq_forward]. by rewrite Hsp, Hm. Qed.

End AnyMode.

(** ** Stage inversions, padding, the two input forms *)

Section MoreFacts.
Context `{Scalar} `{!RandomSource}.

Lemma check_dense_spec (d : Dense) : check_dense d = true → wf_Dense d.
Proof.
  unfold check_dense, wf_Dense. destruct (d_shape d) as [[[N Hh] Ww] C].
  rewrite !andb_true_iff, !Z.leb_le, Nat.eqb_eq, forallb_forall, Forall_forall.
  setoid_rewrite Nat.eqb_eq. setoid_rewrite list_elem_of_In. tauto.
Qed.

Lemma SubMConvBNReLU_forward_inv tr i o k s gr w bn x g m' g' v :
  module_forward tr (SubMConvBNReLU i o k s gr w bn) (VSparse x) g = (m', g', ok v) →
  check_conv_input (stage_cfg i o k s gr) x = true ∧
  ∃ y, v = VSparse y ∧ indices y = indices x ∧ spatial_shape y = spatial_shape x ∧
       batch_size y = batch_size x ∧ t2_cols (features y) = o.
Proof.
  rewrite SubMConvBNReLU_forward. intros Hfw.
  apply stage_result_inv in Hfw as (y & y' & Hconv & -> & _ & Hi & Hs & Hb & Hc & _).
  apply SubMConv2d_forward_inv in Hconv as (Hchk & Hi' & Hs' & Hb' & Hc').
  cbn [stage_cfg out_channels] in Hc'.
  split; [done|]. exists y'. split_and!; [done|congruence..].
Qed.

Lemma SparseConvBNReLU_forward_inv tr i o k s gr w bn x g m' g' v :
  module_forward tr (SparseConvBNReLU i o k s gr w bn) (VSparse x) g = (m', g', ok v) →
  check_conv_input (stage_cfg i o k s gr) x = true ∧
  ∃ y, v = VSparse y ∧
       spatial_shape y =
         (conv_out_size (spatial_shape x).1 k s ((k - 1) / 2),
          conv_out_size (spatial_shape x).2 k s ((k - 1) / 2)) ∧
       indices y =
         remove_dups (indices x ≫= out_candidates (stage_cfg i o k s gr)
            (conv_out_size (spatial_shape x).1 k s ((k - 1) / 2))
            (conv_out_size (spatial_shape x).2 k s ((k - 1) / 2))) ∧
       batch_size y = batch_size x ∧ t2_cols (features y) = o.
Proof.
  rewrite SparseConvBNReLU_forward. intros Hfw.
  apply stage_result_inv in Hfw as (y & y' & Hconv & -> & _ & Hi & Hs & Hb & Hc & _).
  apply SparseConv2d_forward_inv in Hconv as (Hchk & Hi' & Hs' & Hb' & Hc').
  split; [done|]. exists y'. cbn [stage_cfg kernel_size stride padding out_channels] in *.
  split_and!; [done|congruence..].
Qed.

(** In evaluation a stage whose input check passes returns. *)
Lemma SubMConvBNReLU_eval_returns i o k s gr w bn x g :
  check_conv_input (stage_cfg i o k s gr) x = true →
  ∃ y, module_forward false (SubMConvBNReLU i o k s gr w bn) (VSparse x) g =
       (SubMConvBNReLU i o k s gr w bn, g, ok (VSparse y)).
Proof.
  intros Hchk. rewrite SubMConvBNReLU_forward. unfold SubMConv2d_forward. rewrite Hchk.
  cbn [ok]. rewrite BatchNorm1d_forward_eval. cbn [features t2_cols out_channels stage_cfg].
  rewrite Z.eqb_refl. cbn [bind ok]. by eexists.
Qed.

Lemma SparseConvBNReLU_eval_returns i o k s gr w bn x g :
  check_conv_input (stage_cfg i o k s gr) x = true →
  ∃ y, module_forward false (SparseConvBNReLU i o k s gr w bn) (VSparse x) g =
       (SparseConvBNReLU i o k s gr w bn, g, ok (VSparse y)).
Proof.
  intros Hchk. rewrite SparseConvBNReLU_forward. unfold SparseConv2d_forward. rewrite Hchk.
  destruct (spatial_shape x) as [Hh Ww].
  cbn [ok]. rewrite BatchNorm1d_forward_eval. cbn [features t2_cols out_channels stage_cfg].
  rewrite Z.eqb_refl. cbn [bind ok]. by eexists.
Qed.

Lemma padding_odd_kernel k size :
  Z.odd k = true → conv_out_size size k 1 ((k - 1) / 2) = size.
Proof.
  intros Hodd. unfold conv_out_size. rewrite Z.div_1_r.
  apply Zodd_bool_iff, Zodd_ex in Hodd as (m & ->).
  replace (2 * m + 1 - 1) with (m * 2) by lia. rewrite Z.div_mul by lia. lia.
Qed.

Lemma padding_even_kernel k :
  Z.even k = true → 2 * ((k - 1) / 2) < k.
Proof.
  intros Heven. apply Zeven_bool_iff, Zeven_ex in Heven as (m & ->).
  replace (2 * m - 1) with (1 + (m - 1) * 2) by lia.
  rewrite Z.div_add by lia. change (1 / 2) with 0. lia.
Qed.

Lemma step_stub tr (r : result value) g :
  step tr DeQuantStub r g = (DeQuantStub, g, r).
Proof. by destruct r. Qed.

Lemma Net_eta (self : Net.t) :
  Net.mk (Net.training self) (Net.net self) (Net.fc1 self) (Net.fc2 self)
         (Net.dropout1 self) (Net.dropout2 self) (Net.quant self) (Net.dequant self) = self.
Proof. by destruct self. Qed.

(** [Net.forward] on a view over the 28 x 28 grid and [NetV2.forward] on the
    view's triple run the same computation when the quantization stubs are
    the float ones. *)
Lemma NetV2_forward_Net_forward (self : Net.t) (x : SparseConvTensor) g :
  Net.quant self = QuantStub → Net.dequant self = DeQuantStub →
  spatial_shape x = (28, 28) →
  NetV2.forward self (features x) (indices x) (batch_size x) g = Net.forward self x g.
Proof.
  intros Hq Hdq Hsh. unfold NetV2.forward, Net.forward.
  rewrite Hq, QuantStub_forward. rewrite <- Hsh, view_eta. cbn [ok].
  replace (Net.mk (Net.training self) (Net.net self) (Net.fc1 self) (Net.fc2 self)
             (Net.dropout1 self) (Net.dropout2 self) QuantStub (Net.dequant self))
    with self by (rewrite <- Hq; symmetry; apply Net_eta).
  assert (∀ self' g' r, Net.trunk self x g = (self', g', r) →
            Net.training self' = Net.training self ∧ Net.dequant self' = DeQuantStub) as Hframe.
  { unfold Net.trunk. intros self' g' r.
    destruct (module_forward _ (Net.net self) _ g) as [[n1 g1] r1].
    destruct (step _ (Net.dropout1 self) _ g1) as [[d1 g2] r2].
    destruct (step _ (Net.fc1 self) _ g2) as [[f1 g3] r3].
    destruct (step _ (Net.dropout2 self) _ g3) as [[d2 g4] r4].
    destruct (step _ (Net.fc2 self) _ g4) as [[f2 g5] r5].
    intros [= <- _ _]. by cbn. }
  destruct (Net.trunk self x g) as [[self' g'] r] eqn:E.
  destruct (Hframe _ _ _ eq_refl) as [Htr Hd].
  rewrite Hd, <- Htr, step_stub. rewrite <- Hd. by rewrite Net_eta.
Qed.

End MoreFacts.

(** ** Float networks in evaluation *)

Section Unchanged.
Context `{Scalar} `{!RandomSource}.

Lemma observers_seq ms :
  observers (SparseSequential ms) = ms ≫= observers.
Proof.
  cbn [observers]. induction ms as [|c ms IH]; [done|].
  rewrite bind_cons. by f_equal.
Qed.

Lemma seq_forward_unchanged (fwd : module → value → rng → outcome) ms :
  Forall (λ m, ∀ x g, (fwd m x g).1 = (m, g)) ms →
  ∀ x g, (seq_forward fwd ms x g).1 = (ms, g).
Proof.
  induction 1 as [|c ms Hc _ IH]; intros x g; cbn [seq_forward]; [done|].
  specialize (Hc x g). destruct (fwd c x g) as [[c' g'] [e|y]]; cbn [fst] in Hc;
    injection Hc as -> ->; [done|].
  specialize (IH y g). destruct (seq_forward fwd ms y g) as [[ms' g''] r].
  cbn [fst] in *. by injection IH as -> ->.
Qed.

Lemma on_features_unchanged (fwd : value → rng → outcome) m x g :
  (∀ x g, (fwd x g).1 = (m, g)) → (on_features fwd x g).1 = (m, g).
Proof.
  intros Hf. destruct x as [s|d|t]; cbn [on_features]; [|apply Hf..].
  specialize (Hf (VTensor (features s)) g). by destruct (fwd _ g) as [[m' g'] r].
Qed.

(** A module tree without observers comes out of an evaluation-mode call as
    it went in, and so does the generator. *)
Lemma module_forward_eval_unchanged m :
  observers m = [] → ∀ x g, (module_forward false m x g).1 = (m, g).
Proof.
  induction m as [ms IH|m Hc Hns] using module_tree_ind; intros Hobs x g.
  - rewrite observers_seq in Hobs. cbn [module_forward].
    pose proof (seq_forward_unchanged
      (λ c x g, if is_spconv_module c then module_forward false c x g
                else on_features (module_forward false c) x g) ms) as Hseq.
    assert (Forall (λ m, ∀ x g,
              ((λ c x g, if is_spconv_module c then module_forward false c x g
                         else on_features (module_forward false c) x g) m x g).1
              = (m, g)) ms) as Hall.
    { clear Hseq x g. induction IH as [|c ms Hcc _ IHms]; [constructor|].
      rewrite bind_cons in Hobs. apply app_eq_nil in Hobs as [Hoc Hom].
      constructor; [|by apply IHms]. intros x g. cbn beta.
      destruct (is_spconv_module c); [by apply Hcc|].
      apply on_features_unchanged. by apply Hcc. }
    specialize (Hseq Hall x g).
    destruct (seq_forward _ ms x g) as [[ms' g'] r]. cbn [fst] in *.
    by injection Hseq as -> ->.
  - destruct m as [cfg w b|cfg w b| |ms|nf mom st| |i o w b|p| | |r];
      try (by destruct (Hns ms)); try discriminate Hobs; cbn [module_forward]; try done.
    + destruct x as [s|d|t]; try done. by rewrite BatchNorm1d_forward_eval.
    + by destruct x.
Qed.

Lemma step_eval_unchanged m r g :
  observers m = [] → (step false m r g).1 = (m, g).
Proof.
  intros Hobs. destruct r as [e|x]; cbn [step]; [done|].
  by apply module_forward_eval_unchanged.
Qed.

Lemma Dropout2d_forward_eval p t g : Dropout2d_forward false p t g = (t, g).
Proof. done. Qed.

Lemma step_Dropout2d tr p (r : result value) g :
  step tr (Dropout2d p) r g =
  match r with
  | inr (VTensor t) =>
      (Dropout2d p, (Dropout2d_forward tr p t g).2, ok (VTensor (Dropout2d_forward tr p t g).1))
  | inr _ => (Dropout2d p, g, raise TypeError)
  | inl e => (Dropout2d p, g, inl e)
  end.
Proof.
  destruct r as [e|[s|d|t]]; cbn [step module_forward]; try done.
  by destruct (Dropout2d_forward tr p t g).
Qed.

Lemma step_Linear tr i o w b (r : result value) g :
  step tr (Linear i o w b) r g =
  (Linear i o w b, g,
   v <- r ;; match v with
             | VTensor t => y <- Linear_forward i o w b t ;; ok (VTensor y)
             | _ => raise TypeError
             end).
Proof. by destruct r as [e|[s|d|t]]. Qed.

(** The output of [NetPTQ.forward]: the sparse stack with its densify step,
    flatten, log_softmax; the float stubs are the identity. *)
Lemma NetPTQ_forward_output tr (w : Weights) f i b g :
  (NetPTQ.forward (NetPTQ.set_training tr (NetPTQ.init w)) f i b g).2 =
  log_softmax_value
    (flatten_value
       (module_forward tr (NetPTQ.net (NetPTQ.init w))
          (VSparse (SparseConvTensor_init f i (28, 28) b)) g).2).
Proof.
  unfold NetPTQ.forward.
  cbn [NetPTQ.training NetPTQ.set_training NetPTQ.quant NetPTQ.dequant NetPTQ.net NetPTQ.init].
  rewrite QuantStub_forward. cbn [as_tensor bind ok].
  destruct (module_forward tr _ _ g) as [[n g'] r]. cbn [snd].
  by rewrite step_stub.
Qed.

(** The output of [Net.forward]: the sparse stack with its densify step,
    flatten, dropout1, fc1, relu, dropout2, fc2, log_softmax. *)
Lemma Net_forward_output tr (w : Weights) x g :
  (Net.forward (Net.set_training tr (Net.init w)) x g).2 =
  let o := module_forward tr (Net.net (Net.init w)) (VSparse x) g in
  v <- o.2 ;; t <- flatten v ;;
  let d1 := Dropout2d_forward tr (fliteral 25 (-2)) t o.1.2 in
  y1 <- Linear_forward (14 * 14 * 64) 128 (fc1_weight w) (fc1_bias w) d1.1 ;;
  let d2 := Dropout2d_forward tr (fliteral 5 (-1))
              (mkTensor2 (relu <$> t2_rows y1) (t2_cols y1)) d1.2 in
  y2 <- Linear_forward 128 10 (fc2_weight w) (fc2_bias w) d2.1 ;;
  ok (log_softmax y2).
Proof.
  unfold Net.forward, Net.trunk.
  cbn [Net.training Net.set_training Net.net Net.fc1 Net.fc2 Net.dropout1 Net.dropout2
       Net.quant Net.dequant Net.init].
  destruct (module_forward tr _ _ g) as [[n g'] r]. cbn [fst snd].
  destruct r as [e|v]; [done|]. cbn [flatten_value bind ok].
  destruct (flatten v) as [e|t]; [done|]. cbn [bind ok step module_forward].
  destruct (Dropout2d_forward tr (fliteral 25 (-2)) t g') as [t1 g1].
  cbn [fst snd bind ok step module_forward].
  destruct (Linear_forward _ _ _ _ t1) as [e|y1];
    cbn [relu_value log_softmax_value as_tensor bind ok step module_forward fst snd];
    [done|].
  destruct (Dropout2d_forward tr (fliteral 5 (-1)) _ g1) as [t2 g2].
  cbn [fst snd bind ok step module_forward].
  by destruct (Linear_forward 128 _ _ _ t2) as [e|y2].
Qed.

Lemma Net_forward_eval_state (w : Weights) x g :
  (Net.forward (Net.eval (Net.init w)) x g).1 = (Net.eval (Net.init w), g).
Proof.
  unfold Net.forward, Net.trunk, Net.eval.
  cbn [Net.training Net.set_training Net.net Net.fc1 Net.fc2 Net.dropout1 Net.dropout2
       Net.quant Net.dequant Net.init].
  pose proof (module_forward_eval_unchanged
    (SparseSequential
       [SubMConvBNReLU 1 32 3 1 1 (conv_weight w 0%nat) (conv_bn w 0%nat);
        SubMConvBNReLU 32 64 3 1 1 (conv_weight w 1%nat) (conv_bn w 1%nat);
        SparseConvBNReLU 64 64 2 2 1 (conv_weight w 2%nat) (conv_bn w 2%nat);
        ToDense]) eq_refl (VSparse x) g) as Hn.
  destruct (module_forward false _ _ g) as [[n g'] r]. cbn [fst] in Hn.
  injection Hn as -> ->.
  destruct (flatten_value r) as [e|[s|d|t]]; cbn [step module_forward]; try done.
  rewrite Dropout2d_forward_eval. cbn [fst snd bind ok step module_forward].
  destruct (Linear_forward _ _ _ _ t) as [e|y1];
    cbn [relu_value log_softmax_value as_tensor bind ok step module_forward fst snd];
    [done|].
  rewrite Dropout2d_forward_eval. done.
Qed.

Lemma NetPTQ_forward_eval_state (w : Weights) f i b g :
  (NetPTQ.forward (NetPTQ.eval (NetPTQ.init w)) f i b g).1 = (NetPTQ.eval (NetPTQ.init w), g).
Proof.
  unfold NetPTQ.forward, NetPTQ.eval.
  cbn [NetPTQ.training NetPTQ.set_training NetPTQ.quant NetPTQ.dequant NetPTQ.net NetPTQ.init].
  rewrite QuantStub_forward. cbn [as_tensor bind ok].
  pose proof (module_forward_eval_unchanged (NetPTQ.net (NetPTQ.init w)) eq_refl
                (VSparse (SparseConvTensor_init f i (28, 28) b)) g) as Hn.
  cbn [NetPTQ.net NetPTQ.init] in Hn.
  destruct (module_forward false _ _ g) as [[n g'] r]. cbn [fst] in Hn.
  injection Hn as -> ->. by rewrite step_stub.
Qed.

End Unchanged.

(** ** Training mode *)

Section TrainingMode.
Context `{Scalar} `{!RandomSource}.

Lemma SparseConv2d_forward_indices cfg w bias x y Hh Ww :
  spatial_shape x = (Hh, Ww) →
  SparseConv2d_forward cfg w bias x = ok y →
  indices y = strided_sites cfg Hh Ww (indices x).
Proof.
  intros Hsh. unfold SparseConv2d_forward. destruct (check_conv_input cfg x); [|done].
  rewrite Hsh. by intros [= <-].
Qed.

(** Batch norm and ReLU of a stage in training mode: ValueError exactly when
    the view has one active site. *)
Lemma stage_train_sig N Hh Ww C nf mom bn (m : BNState → module) (g : rng)
    (y : SparseConvTensor) :
  view_sig N Hh Ww C y → C = nf →
  ∃ bn' r,
    (let '(bn', r) := BatchNorm1d_forward true nf mom bn (features y) in
     (m bn', g,
      f <- r ;;
      ok (VSparse (replace_feature y (mkTensor2 (relu <$> t2_rows f) (t2_cols f))))))
    = (m bn', g, r) ∧
    ends_in (length (indices y) =? 1)%nat (sparse_at N Hh Ww C (indices y)) r.
Proof.
  intros Hsig ->.
  pose proof Hsig as (Hv & _ & _ & _ & HCy).
  apply check_view_spec in Hv as (_ & _ & _ & Hwfy & Hlen & _).
  destruct (BatchNorm1d_forward true nf mom bn (features y)) as [bn' [e|f]] eqn:Hbn.
  - exists bn', (inl e). split; [done|].
    unfold BatchNorm1d_forward in Hbn. rewrite HCy, Z.eqb_refl in Hbn.
    cbn [negb] in Hbn. rewrite Hlen in Hbn. unfold ends_in.
    destruct (length (indices y) =? 1)%nat; [|discriminate Hbn].
    by injection Hbn as _ <-.
  - eexists bn', _. split; [done|].
    assert ((length (indices y) =? 1)%nat = false) as ->.
    { unfold BatchNorm1d_forward in Hbn. rewrite HCy, Z.eqb_refl in Hbn.
      cbn [negb] in Hbn. rewrite Hlen in Hbn.
      by destruct (length (indices y) =? 1)%nat. }
    eexists. split; [done|]. eexists. split; [done|].
    apply BatchNorm1d_forward_shape in Hbn as (HC & Hlen' & Hwf).
    split; [|done].
    eapply replace_feature_sig; [exact Hsig|apply relu_tensor_wf; auto|simpl; congruence|].
    simpl. by rewrite length_fmap.
Qed.

Lemma SubMConvBNReLU_train_sig N Hh Ww i o k s gr w bn x g idx :
  view_sig N Hh Ww i x → indices x = idx →
  k - (k - 1) / 2 ≤ Hh → k - (k - 1) / 2 ≤ Ww → 0 ≤ o →
  ∃ m' r, module_forward true (SubMConvBNReLU i o k s gr w bn) (VSparse x) g = (m', g, r) ∧
          ends_in (length idx =? 1)%nat (sparse_at N Hh Ww o idx) r.
Proof.
  intros Hsig <- HkH HkW Ho. rewrite SubMConvBNReLU_forward.
  destruct (SubMConv2d_forward_sig (stage_cfg i o k s gr) w None x N Hh Ww)
    as (y & -> & Hy & Hidx); try done.
  destruct (stage_train_sig N Hh Ww o o (fliteral 1 (-1)) bn
              (SubMConvBNReLU i o k s gr w) g y Hy eq_refl) as (bn' & r & Heq & Hr).
  rewrite Hidx in Hr. eexists _, r. split; [exact Heq|done].
Qed.

Lemma SparseConvBNReLU_train_sig N Hh Ww i o k s gr w bn x g idx :
  view_sig N Hh Ww i x → indices x = idx →
  k - (k - 1) / 2 ≤ Hh → k - (k - 1) / 2 ≤ Ww → 0 < s → 1 ≤ k → 0 ≤ o →
  ∃ m' r, module_forward true (SparseConvBNReLU i o k s gr w bn) (VSparse x) g = (m', g, r) ∧
          ends_in (length (strided_sites (stage_cfg i o k s gr) Hh Ww idx) =? 1)%nat
            (sparse_at N (conv_out_size Hh k s ((k - 1) / 2))
                         (conv_out_size Ww k s ((k - 1) / 2)) o
                         (strided_sites (stage_cfg i o k s gr) Hh Ww idx)) r.
Proof.
  intros Hsig <- HkH HkW Hs Hk Ho. rewrite SparseConvBNReLU_forward.
  pose proof Hsig as (_ & _ & _ & Hsh & _).
  destruct (SparseConv2d_forward_sig (stage_cfg i o k s gr) w None x N Hh Ww)
    as (y & Hconv & Hy); try done.
  { simpl. apply Z.div_pos; lia. }
  rewrite Hconv. pose proof (SparseConv2d_forward_indices _ _ _ _ _ _ _ Hsh Hconv) as Hidx.
  simpl in Hy.
  destruct (stage_train_sig N _ _ o o (fliteral 1 (-1)) bn
              (SparseConvBNReLU i o k s gr w) g y Hy eq_refl) as (bn' & r & Heq & Hr).
  rewrite Hidx in Hr. eexists _, r. split; [exact Heq|done].
Qed.

(** Chaining: the first child ends as [ends_in b] allows, the remaining
    children as [ends_in b'] on its value. *)
Lemma SparseSequential_cons_ends tr m ms x g m' r (b b' : bool)
    (good good' : value → Prop) :
  is_spconv_module m = true →
  module_forward tr m x g = (m', g, r) →
  ends_in b good r →
  (∀ v, good v → ∃ ms' r', module_forward tr (SparseSequential ms) v g =
                            (SparseSequential ms', g, r') ∧ ends_in b' good' r') →
  ∃ ms' r', module_forward tr (SparseSequential (m :: ms)) x g =
            (SparseSequential ms', g, r') ∧ ends_in (b || b') good' r'.
Proof.
  intros Hsp Hm Hr Hrest. destruct b; cbn [ends_in orb] in *.
  - subst r. eexists _, _. split; [by eapply SparseSequential_cons_error|done].
  - destruct Hr as (v & -> & Hv). destruct (Hrest v Hv) as (ms' & r' & Hms & Hr').
    eexists _, r'. split; [by eapply SparseSequential_cons|done].
Qed.

(** The sparse part of [NetPTQ] in training mode, on a well-formed view of
    [N] single-channel 28 x 28 samples: ValueError exactly when one of the
    five batch norms is handed a single row. *)
Lemma NetPTQ_net_train (w : Weights) (x : SparseConvTensor) N g :
  view_sig N 28 28 1 x →
  ∃ ms' r, module_forward true (NetPTQ.net (NetPTQ.init w)) (VSparse x) g =
             (SparseSequential ms', g, r) ∧
           ends_in (existsb (Nat.eqb 1) (NetPTQ.bn_rows (indices x))) (dense_sig N 1 1 10) r.
Proof.
  intros Hx0. cbn [NetPTQ.net NetPTQ.init]. unfold NetPTQ.bn_rows.
  cbn [fmap list_fmap existsb]. rewrite !(Nat.eqb_sym 1).
  set (i0 := indices x).
  set (i3 := strided_sites (stage_cfg 64 64 2 2 1) 28 28 i0).
  set (i4 := strided_sites (stage_cfg 64 64 2 2 1) 14 14 i3).
  set (i5 := strided_sites (stage_cfg 64 64 3 2 1) 7 7 i4).
  destruct (SubMConvBNReLU_train_sig N 28 28 1 32 3 1 1 (conv_weight w 0%nat)
              (conv_bn w 0%nat) x g i0 Hx0 eq_refl) as (m1 & r1 & E1 & Hr1); [done..|].
  eapply SparseSequential_cons_ends; [done|exact E1|exact Hr1|]. clear E1 Hr1 Hx0.
  intros ? (x1 & -> & Hx1 & Hi1).
  destruct (SubMConvBNReLU_train_sig N 28 28 32 64 3 1 1 (conv_weight w 1%nat)
              (conv_bn w 1%nat) x1 g i0 Hx1 Hi1) as (m2 & r2 & E2 & Hr2); [done..|].
  eapply SparseSequential_cons_ends; [done|exact E2|exact Hr2|]. clear E2 Hr2 Hx1 Hi1.
  intros ? (x2 & -> & Hx2 & Hi2).
  destruct (SparseConvBNReLU_train_sig N 28 28 64 64 2 2 1 (conv_weight w 2%nat)
              (conv_bn w 2%nat) x2 g i0 Hx2 Hi2) as (m3 & r3 & E3 & Hr3); [done..|].
  change (conv_out_size 28 2 2 ((2 - 1) / 2)) with 14 in Hr3.
  eapply SparseSequential_cons_ends; [done|exact E3|exact Hr3|]. clear E3 Hr3 Hx2 Hi2.
  intros ? (x3 & -> & Hx3 & Hi3).
  destruct (SparseConvBNReLU_train_sig N 14 14 64 64 2 2 1 (conv_weight w 3%nat)
              (conv_bn w 3%nat) x3 g i3 Hx3 Hi3) as (m4 & r4 & E4 & Hr4); [done..|].
  change (conv_out_size 14 2 2 ((2 - 1) / 2)) with 7 in Hr4.
  eapply SparseSequential_cons_ends; [done|exact E4|exact Hr4|]. clear E4 Hr4 Hx3 Hi3.
  intros ? (x4 & -> & Hx4 & Hi4).
  destruct (SparseConvBNReLU_train_sig N 7 7 64 64 3 2 1 (conv_weight w 4%nat)
              (conv_bn w 4%nat) x4 g i4 Hx4 Hi4) as (m5 & r5 & E5 & Hr5); [done..|].
  change (conv_out_size 7 3 2 ((3 - 1) / 2)) with 4 in Hr5.
  eapply SparseSequential_cons_ends; [done|exact E5|exact Hr5|]. clear E5 Hr5 Hx4 Hi4.
  intros ? (x5 & -> & Hx5 & Hi5).
  destruct (SparseConv2d_module_sig true (mkConvCfg 64 10 4 4 0 1) (conv_weight w 5%nat)
              (last_bias w) N 4 4 x5 g Hx5) as (x6 & E6 & Hx6); [done..|].
  change (conv_out_size 4 _ _ _) with 1 in Hx6. cbn [out_channels] in Hx6.
  destruct (ToDense_module_sig true N 1 1 10 x6 g Hx6) as (d & E7 & Hwf & Hshape).
  eexists _, _. split.
  - repeat (eapply SparseSequential_cons; [done|eassumption|]).
    apply SparseSequential_nil.
  - eexists. split; [done|]. by exists d.
Qed.

Lemma NetPTQ_forward_train (w : Weights) (x : SparseConvTensor) N g :
  view_sig N 28 28 1 x →
  ∃ self' r,
    NetPTQ.forward (NetPTQ.set_training true (NetPTQ.init w))
      (features x) (indices x) (batch_size x) g = (self', g, r) ∧
    if existsb (Nat.eqb 1) (NetPTQ.bn_rows (indices x)) then r = inl ValueError
    else ∃ out, r = ok out ∧ t2_cols out = 10 ∧ length (t2_rows out) = Z.to_nat N ∧
                wf_Tensor2 out.
Proof.
  intros Hsig. pose proof Hsig as (_ & _ & _ & Hsh & _).
  unfold NetPTQ.forward.
  cbn [NetPTQ.training NetPTQ.set_training NetPTQ.quant NetPTQ.dequant NetPTQ.net NetPTQ.init].
  rewrite QuantStub_forward. cbn [as_tensor bind ok].
  rewrite <- Hsh, view_eta.
  destruct (NetPTQ_net_train w x N g Hsig) as (ms' & r & E & Hr).
  cbn [NetPTQ.net NetPTQ.init] in E. rewrite E. unfold ends_in in Hr.
  destruct (existsb (Nat.eqb 1) (NetPTQ.bn_rows (indices x))).
  - subst r. by eexists _, _.
  - destruct Hr as (v & -> & d & -> & Hwf & Hshape).
    destruct (flatten_dense_shape d N 1 1 10 Hwf Hshape) as (t & Et & Hc & Hr & Hwt).
    unfold flatten_value. cbn [bind ok]. rewrite Et. cbn [bind ok step].
    rewrite DeQuantStub_forward.
    unfold log_softmax_value. cbn [as_tensor bind ok].
    destruct (log_softmax_shape t) as (Hc' & Hr' & Hw').
    eexists _, _. split; [done|]. eexists. split; [done|].
    split_and!; [by rewrite Hc', Hc|congruence|auto].
Qed.

Lemma NetPTQ_forward_mode tr (w : Weights) (x : SparseConvTensor) N g :
  view_sig N 28 28 1 x →
  ∃ self' r,
    NetPTQ.forward (NetPTQ.set_training tr (NetPTQ.init w))
      (features x) (indices x) (batch_size x) g = (self', g, r) ∧
    if tr && existsb (Nat.eqb 1) (NetPTQ.bn_rows (indices x)) then r = inl ValueError
    else ∃ out, r = ok out ∧ t2_cols out = 10 ∧ length (t2_rows out) = Z.to_nat N ∧
                wf_Tensor2 out.
Proof.
  intros Hsig. destruct tr; cbn [andb].
  - by apply NetPTQ_forward_train.
  - destruct (NetPTQ_forward_eval w x N g Hsig) as (out & E & Hout).
    change (NetPTQ.eval (NetPTQ.init w)) with (NetPTQ.set_training false (NetPTQ.init w)) in E.
    rewrite E. eexists _, _. split; [done|]. by exists out.
Qed.

Lemma SubMConvBNReLU_eval_sites N Hh Ww i o k s gr w bn x g idx :
  view_sig N Hh Ww i x → indices x = idx →
  k - (k - 1) / 2 ≤ Hh → k - (k - 1) / 2 ≤ Ww → 0 ≤ o →
  ∃ y, module_forward false (SubMConvBNReLU i o k s gr w bn) (VSparse x) g =
         (SubMConvBNReLU i o k s gr w bn, g, ok (VSparse y)) ∧
       view_sig N Hh Ww o y ∧ indices y = idx.
Proof.
  intros Hsig <- HkH HkW Ho.
  by apply SubMConvBNReLU_eval_sig.
Qed.

Lemma SparseConvBNReLU_eval_sites N Hh Ww i o k s gr w bn x g idx :
  view_sig N Hh Ww i x → indices x = idx →
  k - (k - 1) / 2 ≤ Hh → k - (k - 1) / 2 ≤ Ww → 0 < s → 1 ≤ k → 0 ≤ o →
  ∃ y, module_forward false (SparseConvBNReLU i o k s gr w bn) (VSparse x) g =
         (SparseConvBNReLU i o k s gr w bn, g, ok (VSparse y)) ∧
       view_sig N (conv_out_size Hh k s ((k - 1) / 2)) (conv_out_size Ww k s ((k - 1) / 2)) o y ∧
       indices y = strided_sites (stage_cfg i o k s gr) Hh Ww idx.
Proof.
  intros Hsig <- HkH HkW Hs Hk Ho. rewrite SparseConvBNReLU_forward.
  pose proof Hsig as (_ & _ & _ & Hsh & _).
  destruct (SparseConv2d_forward_sig (stage_cfg i o k s gr) w None x N Hh Ww)
    as (y & Hconv & Hy); try done.
  { simpl. apply Z.div_pos; lia. }
  rewrite Hconv. pose proof (SparseConv2d_forward_indices _ _ _ _ _ _ _ Hsh Hconv) as Hidx.
  simpl in Hy.
  destruct (stage_eval_sig N _ _ o o (fliteral 1 (-1)) bn
              (SparseConvBNReLU i o k s gr w) g y Hy eq_refl) as (y' & Heq & Hy' & Hidx').
  exists y'. split_and!; [exact Heq|done|congruence].
Qed.

(** [NetPTQ.bn_rows] counts active sites: entry [k] is the number of active
    sites that the first [k + 1] stages of the network leave, where batch
    norm [k + 1] sits. *)
Lemma NetPTQ_bn_rows_sites (w : Weights) (x : SparseConvTensor) N g k n :
  view_sig N 28 28 1 x →
  NetPTQ.bn_rows (indices x) !! k = Some n →
  ∃ y, module_forward false (first_stages (S k) (NetPTQ.net (NetPTQ.init w))) (VSparse x) g =
         (first_stages (S k) (NetPTQ.net (NetPTQ.init w)), g, ok (VSparse y)) ∧
       length (indices y) = n.
Proof.
  intros Hx0 Hk. unfold first_stages. cbn [NetPTQ.net NetPTQ.init children].
  unfold NetPTQ.bn_rows in Hk. cbn [fmap list_fmap] in Hk.
  set (i0 := indices x) in *.
  set (i3 := strided_sites (stage_cfg 64 64 2 2 1) 28 28 i0) in *.
  set (i4 := strided_sites (stage_cfg 64 64 2 2 1) 14 14 i3) in *.
  set (i5 := strided_sites (stage_cfg 64 64 3 2 1) 7 7 i4) in *.
  destruct (SubMConvBNReLU_eval_sites N 28 28 1 32 3 1 1 (conv_weight w 0%nat)
              (conv_bn w 0%nat) x g i0 Hx0 eq_refl) as (x1 & E1 & Hx1 & Hi1); [done..|].
  destruct (SubMConvBNReLU_eval_sites N 28 28 32 64 3 1 1 (conv_weight w 1%nat)
              (conv_bn w 1%nat) x1 g i0 Hx1 Hi1) as (x2 & E2 & Hx2 & Hi2); [done..|].
  destruct (SparseConvBNReLU_eval_sites N 28 28 64 64 2 2 1 (conv_weight w 2%nat)
              (conv_bn w 2%nat) x2 g i0 Hx2 Hi2) as (x3 & E3 & Hx3 & Hi3); [done..|].
  change (conv_out_size 28 2 2 ((2 - 1) / 2)) with 14 in Hx3.
  destruct (SparseConvBNReLU_eval_sites N 14 14 64 64 2 2 1 (conv_weight w 3%nat)
              (conv_bn w 3%nat) x3 g i3 Hx3 Hi3) as (x4 & E4 & Hx4 & Hi4); [done..|].
  change (conv_out_size 14 2 2 ((2 - 1) / 2)) with 7 in Hx4.
  destruct (SparseConvBNReLU_eval_sites N 7 7 64 64 3 2 1 (conv_weight w 4%nat)
              (conv_bn w 4%nat) x4 g i4 Hx4 Hi4) as (x5 & E5 & Hx5 & Hi5); [done..|].
  assert (∀ y, module_forward false (SparseSequential []) (VSparse y) g =
               (SparseSequential [], g, ok (VSparse y))) as Hnil
    by (intros y; apply SparseSequential_nil).
  destruct k as [|[|[|[|[|k]]]]]; cbn [lookup list_lookup] in Hk; [..|done];
    injection Hk as <-; cbn [firstn].
  - exists x1. split; [|by rewrite Hi1].
    repeat (eapply SparseSequential_cons; [done|eassumption|]). apply Hnil.
  - exists x2. split; [|by rewrite Hi2].
    repeat (eapply SparseSequential_cons; [done|eassumption|]). apply Hnil.
  - exists x3. split; [|by rewrite Hi3].
    repeat (eapply SparseSequential_cons; [done|eassumption|]). apply Hnil.
  - exists x4. split; [|by rewrite Hi4].
    repeat (eapply SparseSequential_cons; [done|eassumption|]). apply Hnil.
  - exists x5. split; [|by rewrite Hi5].
    repeat (eapply SparseSequential_cons; [done|eassumption|]). apply Hnil.
Qed.

End TrainingMode.

(** * The claims *)

(** C1.  Densifying the sparse view of a well-formed dense batch [B] whose
    zero-tested scalars are the zero scalar returns [B] exactly.  [ToDense]
    returns only for views without colliding coordinates; it then yields a
    well-formed dense tensor of shape [[batch_size, H, W, channels]] that
    holds every feature at its coordinate and zeros elsewhere.  On a
    well-formed view with a collision it raises DuplicateCoordinate. *)
Theorem densify_sparsify_roundtrip `{Scalar} (B : Dense) :
  wf_Dense B →
  (∀ s v, s ∈ d_sites B → v ∈ s → nonzero v = false → v = f0) →
  ToDense_forward (from_dense B) = ok B ∧
  (∀ x d, ToDense_forward x = ok d →
     NoDup (indices x) ∧
     d_shape d =
       (batch_size x, (spatial_shape x).1, (spatial_shape x).2, t2_cols (features x)) ∧
     wf_Dense d ∧
     (∀ i c f, indices x !! i = Some c → t2_rows (features x) !! i = Some f →
        d_sites d !! Z.to_nat (ravel (spatial_shape x).1 (spatial_shape x).2 c) = Some f) ∧
     (∀ j, (j < length (d_sites d))%nat →
        (∀ c, c ∈ indices x →
           Z.to_nat (ravel (spatial_shape x).1 (spatial_shape x).2 c) ≠ j) →
        d_sites d !! j = Some (replicate (Z.to_nat (t2_cols (features x))) f0))) ∧
  (∀ x, check_view x = true → ¬ NoDup (indices x) →
     ToDense_forward x = raise DuplicateCoordinate).
Proof.
  intros Hwf Hties. split_and!.
  - by apply ToDense_from_dense.
  - intros x d Hd. pose proof (ToDense_forward_wf x d Hd) as Hwfd.
    destruct (ToDense_forward_inv x d Hd) as [Hv Hnd].
    rewrite ToDense_forward_ok in Hd by done. injection Hd as <-.
    apply check_view_spec in Hv as (HN & HH & HW & Hwfx & Hlen & Hin).
    split_and!; [done|done|done|..]; cbn [d_sites].
    + intros i c f Hc Hf. eapply scatter_lookup_hit; eauto. apply length_replicate.
    + intros j Hj Hmiss. rewrite scatter_lookup_miss by done.
      rewrite length_scatter, length_replicate in Hj.
      apply lookup_replicate. split; [done|lia].
  - apply ToDense_forward_duplicate.
Qed.

Lemma densify_sparsify_roundtrip_witness :
  @wf_Dense ZScalar Examples.small_batch ∧
  @ToDense_forward ZScalar (from_dense Examples.small_batch) = ok Examples.small_batch ∧
  @ToDense_forward ZScalar Examples.colliding_view = raise DuplicateCoordinate.
Proof.
  assert (@wf_Dense ZScalar Examples.small_batch) as Hwf
    by (apply check_dense_spec; vm_compute; reflexivity).
  assert (∀ s v, s ∈ @d_sites ZScalar Examples.small_batch → v ∈ s →
                 @nonzero ZScalar v = false → v = @f0 ZScalar) as Hties.
  { intros s v _ _ Hv. simpl in *. apply negb_false_iff, Z.eqb_eq in Hv. exact Hv. }
  destruct (@densify_sparsify_roundtrip ZScalar Examples.small_batch Hwf Hties)
    as (Hround & _ & Hdup).
  split; [exact Hwf|]. split; [exact Hround|].
  apply Hdup; [vm_compute; reflexivity|].
  intros Hnd. apply NoDup_cons in Hnd as [Hnin _]. apply Hnin. left.
Defined.

(** C2.  A [SubMConvBNReLU] stage that returns, in either mode and on any
    input view, returns a view with exactly the coordinates (and the grid and
    batch size) of its input. *)
Theorem submanifold_stage_preserves_coordinates `{Scalar} `{!RandomSource}
    (tr : bool) (i o k s gr : Z) (w : kernel) (bn : BNState)
    (x : SparseConvTensor) (g g' : rng) (m' : module) (v : value) :
  module_forward tr (SubMConvBNReLU i o k s gr w bn) (VSparse x) g = (m', g', ok v) →
  ∃ y, v = VSparse y ∧ indices y = indices x ∧
       spatial_shape y = spatial_shape x ∧ batch_size y = batch_size x.
Proof.
  intros Hfw. apply SubMConvBNReLU_forward_inv in Hfw as (_ & y & -> & Hi & Hs & Hb & _).
  by exists y.
Qed.

Lemma submanifold_stage_preserves_coordinates_witness :
  ∃ y, @module_forward ZScalar ZRandom false
         (SubMConvBNReLU 1 2 3 1 1 (conv_weight Examples.w0 0%nat) Examples.bn0)
         (VSparse (from_dense Examples.small_batch)) 0
       = (SubMConvBNReLU 1 2 3 1 1 (conv_weight Examples.w0 0%nat) Examples.bn0, 0,
          ok (VSparse y)) ∧
       indices y = [(0, 0, 0); (0, 1, 2)].
Proof.
  destruct (@SubMConvBNReLU_eval_returns ZScalar ZRandom 1 2 3 1 1
              (conv_weight Examples.w0 0%nat) Examples.bn0
              (from_dense Examples.small_batch) 0 eq_refl) as [y Hy].
  exists y. split; [exact Hy|].
  destruct (submanifold_stage_preserves_coordinates _ _ _ _ _ _ _ _ _ _ _ _ _ Hy)
    as (y' & Hv & Hi & _).
  injection Hv as <-. rewrite Hi. reflexivity.
Defined.

(** C3.  A strided stage ([SparseConvBNReLU], or the bare [SparseConv2d])
    with positive stride that returns, returns a view over the grid
    [H' = floor((H + 2*padding - kernel_size)/stride) + 1] (same for W),
    where a [SparseConvBNReLU] pads by [(kernel_size - 1) // 2]; a 28 x 28
    input through kernel 2, stride 2 (padding 0) gives 14 x 14. *)
Theorem strided_stage_output_extent `{Scalar} `{!RandomSource}
    (tr : bool) (i o k s gr : Z) (w : kernel) (bn : BNState)
    (x : SparseConvTensor) (g g' : rng) (m' : module) (v : value) :
  0 < s →
  module_forward tr (SparseConvBNReLU i o k s gr w bn) (VSparse x) g = (m', g', ok v) →
  (∃ y, v = VSparse y ∧
        spatial_shape y =
          (((spatial_shape x).1 + 2 * ((k - 1) / 2) - k) / s + 1,
           ((spatial_shape x).2 + 2 * ((k - 1) / 2) - k) / s + 1) ∧
        (spatial_shape x = (28, 28) → k = 2 → s = 2 → spatial_shape y = (14, 14))) ∧
  (∀ cfg w' b y, SparseConv2d_forward cfg w' b x = ok y →
     spatial_shape y =
       (((spatial_shape x).1 + 2 * padding cfg - kernel_size cfg) / stride cfg + 1,
        ((spatial_shape x).2 + 2 * padding cfg - kernel_size cfg) / stride cfg + 1)).
Proof.
  intros Hs Hfw. split.
  - apply SparseConvBNReLU_forward_inv in Hfw as (_ & y & -> & Hsh & _).
    exists y. split_and!; [done|exact Hsh|].
    intros Hx -> ->. rewrite Hsh, Hx. reflexivity.
  - intros cfg w' b y Hy. by apply SparseConv2d_forward_inv in Hy as (_ & _ & Hsh & _).
Qed.

Lemma strided_stage_output_extent_witness :
  ∃ y, @module_forward ZScalar ZRandom false
         (SparseConvBNReLU 1 2 2 2 1 (conv_weight Examples.w0 2%nat) Examples.bn0)
         (VSparse (from_dense Examples.small_batch)) 0
       = (SparseConvBNReLU 1 2 2 2 1 (conv_weight Examples.w0 2%nat) Examples.bn0, 0,
          ok (VSparse y)) ∧
       spatial_shape y = (2, 2).
Proof.
  destruct (@SparseConvBNReLU_eval_returns ZScalar ZRandom 1 2 2 2 1
              (conv_weight Examples.w0 2%nat) Examples.bn0
              (from_dense Examples.small_batch) 0 eq_refl) as [y Hy].
  exists y. split; [exact Hy|].
  destruct (@strided_stage_output_extent ZScalar ZRandom false 1 2 2 2 1 _ _ _ _ _ _ _
              eq_refl Hy)
    as [(y' & Hv & Hsh & _) _].
  injection Hv as <-. rewrite Hsh. reflexivity.
Defined.

(** C4 (as the code has it).  [NetPTQ] is six convolution stages and a
    densify step: two submanifold 3 x 3 stages, three stride-2 stages (kernels
    2, 2 and 3) and the bare kernel-4 stride-4 classifier convolution.  Fed the
    sparse view of a well-formed dense batch of shape [[N, 28, 28, 1]], its
    forward in evaluation mode returns an output of shape [[N, 10]] and leaves
    the network unchanged; in training mode it raises ValueError exactly when
    one of its five batch norms is handed a single row, that is when the
    view, or the output of one of the three stride-2 convolutions, has
    exactly one active site, and returns an output of shape [[N, 10]]
    otherwise.  The rows in question ([NetPTQ.bn_rows]) are the active sites
    that the first one to five stages leave. *)
Theorem NetPTQ_output_shape `{Scalar} `{!RandomSource}
    (w : Weights) (B : Dense) (N : Z) (tr : bool) (g : rng) :
  wf_Dense B → d_shape B = (N, 28, 28, 1) →
  (stage_conv <$> children (NetPTQ.net (NetPTQ.init w)) =
     [Some (true, stage_cfg 1 32 3 1 1); Some (true, stage_cfg 32 64 3 1 1);
      Some (false, stage_cfg 64 64 2 2 1); Some (false, stage_cfg 64 64 2 2 1);
      Some (false, stage_cfg 64 64 3 2 1); Some (false, mkConvCfg 64 10 4 4 0 1);
      None] ∧
   last (children (NetPTQ.net (NetPTQ.init w))) = Some ToDense) ∧
  (∃ out,
     NetPTQ.forward (NetPTQ.eval (NetPTQ.init w))
       (features (from_dense B)) (indices (from_dense B)) (batch_size (from_dense B)) g =
       (NetPTQ.eval (NetPTQ.init w), g, ok out) ∧
     t2_cols out = 10 ∧ length (t2_rows out) = Z.to_nat N ∧ wf_Tensor2 out) ∧
  (∃ self' r,
     NetPTQ.forward (NetPTQ.set_training tr (NetPTQ.init w))
       (features (from_dense B)) (indices (from_dense B)) (batch_size (from_dense B)) g =
       (self', g, r) ∧
     if tr && existsb (Nat.eqb 1) (NetPTQ.bn_rows (indices (from_dense B)))
     then r = inl ValueError
     else ∃ out, r = ok out ∧ t2_cols out = 10 ∧ length (t2_rows out) = Z.to_nat N ∧
                 wf_Tensor2 out) ∧
  (∀ k n, NetPTQ.bn_rows (indices (from_dense B)) !! k = Some n →
     ∃ y, module_forward false (first_stages (S k) (NetPTQ.net (NetPTQ.init w)))
            (VSparse (from_dense B)) g =
            (first_stages (S k) (NetPTQ.net (NetPTQ.init w)), g, ok (VSparse y)) ∧
          length (indices y) = n).
Proof.
  intros Hwf Hshape. pose proof (from_dense_sig B N 28 28 1 Hwf Hshape) as Hsig.
  split; [done|]. split; [by apply NetPTQ_forward_eval|].
  split; [by apply NetPTQ_forward_mode|].
  intros k n. by apply (NetPTQ_bn_rows_sites w (from_dense B) N).
Qed.

Lemma NetPTQ_output_shape_witness :
  ∃ out,
    (@NetPTQ.forward ZScalar ZRandom (NetPTQ.eval (NetPTQ.init Examples.w0))
       (features (from_dense Examples.one_pixel_batch))
       (indices (from_dense Examples.one_pixel_batch))
       (batch_size (from_dense Examples.one_pixel_batch)) 0).2 = ok out ∧
    t2_cols out = 10 ∧ length (t2_rows out) = 1%nat.
Proof.
  assert (@wf_Dense ZScalar Examples.one_pixel_batch) as Hwf
    by (apply check_dense_spec; vm_compute; reflexivity).
  destruct (@NetPTQ_output_shape ZScalar ZRandom Examples.w0 Examples.one_pixel_batch 1
              false 0 Hwf eq_refl) as (_ & (out & Hout & Hc & Hr & _) & _).
  exists out. rewrite Hout. split_and!; [reflexivity|exact Hc|exact Hr].
Defined.

(** C4, the claim as worded fails: the network has two submanifold stages,
    not three, and three stride-2 stages, not two; and in training mode a
    batch with a single active pixel makes the first batch norm raise. *)
Lemma NetPTQ_not_as_described :
  count is_submanifold_stage (children (NetPTQ.net (NetPTQ.init Examples.w0))) = 2%nat ∧
  count (is_strided_stage 2) (children (NetPTQ.net (NetPTQ.init Examples.w0))) = 3%nat ∧
  count (is_strided_stage 4) (children (NetPTQ.net (NetPTQ.init Examples.w0))) = 1%nat ∧
  ¬ (count is_submanifold_stage (children (NetPTQ.net (NetPTQ.init Examples.w0))) = 3%nat ∧
     count (is_strided_stage 2) (children (NetPTQ.net (NetPTQ.init Examples.w0))) = 2%nat) ∧
  (@NetPTQ.forward ZScalar ZRandom (NetPTQ.init Examples.w0)
     (features (from_dense Examples.one_pixel_batch))
     (indices (from_dense Examples.one_pixel_batch))
     (batch_size (from_dense Examples.one_pixel_batch)) 0).2 = inl ValueError.
Proof.
  split_and!; [reflexivity|reflexivity|reflexivity| |].
  - intros [Hsub _]. vm_compute in Hsub. discriminate Hsub.
  - vm_compute. reflexivity.
Qed.

(** The rows the batch norms are handed on two images: one active pixel
    stays one active site through every stage, two pixels far apart stay
    two. *)
Remark NetPTQ_bn_rows_examples :
  NetPTQ.bn_rows (indices (from_dense Examples.one_pixel_batch)) = [1; 1; 1; 1; 1]%nat ∧
  NetPTQ.bn_rows
    (indices (from_dense
       (@mkDense ZScalar (1, 28, 28, 1)
          ((λ v, [v]) <$> @t_data ZScalar MoreExamples.two_pixels)))) = [2; 2; 2; 2; 2]%nat.
Proof. split; vm_compute; reflexivity. Qed.

(** C5 (as the code has it).  No network builds the sparse view from a dense
    batch: a call with a dense batch is rejected, and the loops build the view
    with [from_dense] and pass its (features, indices, batch_size) triple.
    The two forms the code has are the already-built view ([Net.forward]) and
    the explicit triple ([NetV2.forward], [NetPTQ.forward]); for the same
    weights and a view over the 28 x 28 grid both give the same result, and
    [NetPTQ.forward] on the triple runs its sparse stack on that very view. *)
Theorem forward_input_forms `{Scalar} `{!RandomSource}
    (w : Weights) (tr : bool) (x : SparseConvTensor) (d : Dense) (g : rng) :
  spatial_shape x = (28, 28) →
  (∀ self : NetPTQ.t, NetPTQ.call self [ADense d] g = (self, g, raise TypeError)) ∧
  (∀ self : Net.t, Net.call self [ADense d] g = (self, g, raise TypeError) ∧
                   NetV2.call self [ADense d] g = (self, g, raise TypeError)) ∧
  NetV2.call (Net.set_training tr (NetV2.init w))
    [ATensor (features x); AIndices (indices x); AInt (batch_size x)] g =
  Net.call (Net.set_training tr (Net.init w)) [ASparse x] g ∧
  (NetPTQ.call (NetPTQ.set_training tr (NetPTQ.init w))
     [ATensor (features x); AIndices (indices x); AInt (batch_size x)] g).2 =
  log_softmax_value
    (flatten_value (module_forward tr (NetPTQ.net (NetPTQ.init w)) (VSparse x) g).2) ∧
  (∀ (model : NetPTQ.t) fp li data,
     model_call (mkArgs true fp li) model data g =
     match reshape_28_28_1 data with
     | inl e => (model, g, inl e)
     | inr dense =>
         NetPTQ.forward model (features (from_dense dense)) (indices (from_dense dense))
           (batch_size (from_dense dense)) g
     end).
Proof.
  intros Hsh. split_and!.
  - done.
  - done.
  - cbn [NetV2.call Net.call]. by apply NetV2_forward_Net_forward.
  - cbn [NetPTQ.call]. rewrite NetPTQ_forward_output. by rewrite <- Hsh, view_eta.
  - intros model fp li data. unfold model_call. cbn [sparse].
    by destruct (reshape_28_28_1 data).
Qed.

Lemma forward_input_forms_witness :
  @NetV2.call ZScalar ZRandom (Net.set_training false (NetV2.init Examples.w0))
    [ATensor (features (from_dense Examples.one_pixel_batch));
     AIndices (indices (from_dense Examples.one_pixel_batch));
     AInt (batch_size (from_dense Examples.one_pixel_batch))] 0 =
  @Net.call ZScalar ZRandom (Net.set_training false (Net.init Examples.w0))
    [ASparse (from_dense Examples.one_pixel_batch)] 0.
Proof.
  exact (proj1 (proj2 (proj2
    (@forward_input_forms ZScalar ZRandom Examples.w0 false
       (from_dense Examples.one_pixel_batch) Examples.small_batch 0 eq_refl)))).
Defined.

(** C5, the claim as worded fails: [NetPTQ.forward] has no dense-batch form;
    called with a dense batch the model raises TypeError. *)
Lemma NetPTQ_rejects_dense_batch :
  @NetPTQ.call ZScalar ZRandom (NetPTQ.init Examples.w0) [ADense Examples.one_pixel_batch] 0 =
  (NetPTQ.init Examples.w0, 0, raise TypeError).
Proof. reflexivity. Qed.

(** C6.  In evaluation mode [NetPTQ.forward] is deterministic: called twice
    on the same input (whatever the generator, and with the observers of a
    prepared model in whatever state), it gives the same output; it draws
    nothing from the generator and changes no parameter and no batch-norm
    statistic.  The float networks ([NetPTQ] and, with its dropout layers,
    [Net]) come out of an evaluation-mode call unchanged. *)
Theorem eval_forward_deterministic `{Scalar} `{!RandomSource}
    (self : NetPTQ.t) (w : Weights) (f : Tensor2) (i : list coord) (b : Z)
    (x : SparseConvTensor) (g1 g2 : rng) :
  let o1 := NetPTQ.forward (NetPTQ.eval self) f i b g1 in
  let o2 := NetPTQ.forward o1.1.1 f i b g2 in
  (o1.2 = o2.2 ∧ o1.1.2 = g1 ∧ o2.1.2 = g2 ∧
   NetPTQ.parameters o1.1.1 = NetPTQ.parameters self ∧
   NetPTQ.bn_buffers o1.1.1 = NetPTQ.bn_buffers self ∧
   NetPTQ.bn_buffers o2.1.1 = NetPTQ.bn_buffers self) ∧
  (NetPTQ.forward (NetPTQ.eval (NetPTQ.init w)) f i b g1).1 =
    (NetPTQ.eval (NetPTQ.init w), g1) ∧
  (Net.forward (Net.eval (Net.init w)) x g1).1 = (Net.eval (Net.init w), g1) ∧
  (Net.forward (Net.eval (Net.init w)) x g1).2 = (Net.forward (Net.eval (Net.init w)) x g2).2.
Proof.
  cbv zeta. split; [|split; [|split]].
  - destruct (NetPTQ_forward_eval_rel (NetPTQ.eval self) (NetPTQ.eval self) f i b g1 g1
                eq_refl eq_refl) as (_ & Hg & Hm).
    destruct (NetPTQ.forward (NetPTQ.eval self) f i b g1) as [[s1 g1'] r1] eqn:E1.
    cbn [fst snd] in *.
    assert (NetPTQ.training s1 = false) as Htr.
    { apply NetPTQ_reset_observers_inv in Hm as (-> & _). done. }
    destruct (NetPTQ_forward_eval_rel s1 (NetPTQ.eval self) f i b g2 g1 Htr Hm)
      as (Hr2 & Hg2 & Hm2).
    destruct (NetPTQ_forward_eval_rel (NetPTQ.eval self) s1 f i b g1 g2 eq_refl (eq_sym Hm))
      as (Hr1 & _ & _).
    rewrite E1 in Hr1. cbn [snd] in Hr1.
    assert (∀ m : NetPTQ.t,
              NetPTQ.reset_observers m = NetPTQ.reset_observers (NetPTQ.eval self) →
              NetPTQ.parameters m = NetPTQ.parameters self ∧
              NetPTQ.bn_buffers m = NetPTQ.bn_buffers self) as Hframe.
    { intros m Hmeq.
      rewrite <- (NetPTQ_parameters_reset m), <- (NetPTQ_bn_buffers_reset m), Hmeq.
      by rewrite NetPTQ_parameters_reset, NetPTQ_bn_buffers_reset. }
    destruct (Hframe _ Hm) as [Hp Hb].
    destruct (Hframe (NetPTQ.forward s1 f i b g2).1.1) as [_ Hb2]; [congruence|].
    split_and!; done.
  - apply NetPTQ_forward_eval_state.
  - apply Net_forward_eval_state.
  - change (Net.eval (Net.init w)) with (Net.set_training false (Net.init w)).
    rewrite !Net_forward_output. cbv zeta.
    rewrite (module_forward_eval_output _ _ (VSparse x) g1 g2 eq_refl).
    unfold Dropout2d_forward. reflexivity.
Qed.

(** C7 (as the code has it).  [Net.forward] is the sparse stages ending in
    the densify step, then flatten, dropout1, fc1, relu, dropout2, fc2 and
    log_softmax, where dropout is the identity at evaluation.
    [NetPTQ.forward] is the sparse stages (the last one the classifier
    convolution) ending in the densify step, then flatten and log_softmax: it
    holds no linear layer and no dropout.  [NetV2.forward] calls the quant
    stub on the features, builds the sparse tensor over the 28 x 28 grid from
    its three arguments, runs the pipeline of [Net.forward] on it and calls
    the dequant stub before log_softmax; both stubs are the identity, so it
    is [Net.forward] on that tensor. *)
Theorem forward_pipeline `{Scalar} `{!RandomSource}
    (w : Weights) (tr : bool) (x : SparseConvTensor)
    (f : Tensor2) (i : list coord) (b : Z) (g : rng) :
  (last (children (Net.net (Net.init w))) = Some ToDense ∧
   (Net.forward (Net.set_training tr (Net.init w)) x g).2 =
     (let o := module_forward tr (Net.net (Net.init w)) (VSparse x) g in
      v <- o.2 ;; t <- flatten v ;;
      let d1 := Dropout2d_forward tr (fliteral 25 (-2)) t o.1.2 in
      y1 <- Linear_forward (14 * 14 * 64) 128 (fc1_weight w) (fc1_bias w) d1.1 ;;
      let d2 := Dropout2d_forward tr (fliteral 5 (-1))
                  (mkTensor2 (relu <$> t2_rows y1) (t2_cols y1)) d1.2 in
      y2 <- Linear_forward 128 10 (fc2_weight w) (fc2_bias w) d2.1 ;;
      ok (log_softmax y2)) ∧
   (∀ p t g', Dropout2d_forward false p t g' = (t, g'))) ∧
  (last (children (NetPTQ.net (NetPTQ.init w))) = Some ToDense ∧
   (NetPTQ.forward (NetPTQ.set_training tr (NetPTQ.init w)) f i b g).2 =
     log_softmax_value
       (flatten_value
          (module_forward tr (NetPTQ.net (NetPTQ.init w))
             (VSparse (SparseConvTensor_init f i (28, 28) b)) g).2) ∧
   count is_linear (NetPTQ.modules (NetPTQ.init w)) = 0%nat ∧
   count is_dropout (NetPTQ.modules (NetPTQ.init w)) = 0%nat) ∧
  (Net.quant (NetV2.init w) = QuantStub ∧ Net.dequant (NetV2.init w) = DeQuantStub ∧
   (∀ tr' v g', module_forward tr' QuantStub v g' = (QuantStub, g', ok v)) ∧
   (∀ tr' v g', module_forward tr' DeQuantStub v g' = (DeQuantStub, g', ok v)) ∧
   NetV2.forward (Net.set_training tr (NetV2.init w)) f i b g =
     Net.forward (Net.set_training tr (Net.init w)) (SparseConvTensor_init f i (28, 28) b) g).
Proof.
  split; [|split].
  - split_and!; try reflexivity. apply Net_forward_output.
  - split_and!; try reflexivity. apply NetPTQ_forward_output.
  - split_and!; try reflexivity.
    by apply (NetV2_forward_Net_forward (Net.set_training tr (Net.init w))
                (SparseConvTensor_init f i (28, 28) b) g).
Qed.

(** C7, the claim as worded fails for the network that [main] builds:
    [NetPTQ] has no linear layer and no dropout among its modules, unlike
    [Net] with its two of each. *)
Lemma NetPTQ_has_no_linear_or_dropout :
  count is_linear (NetPTQ.modules (NetPTQ.init Examples.w0)) = 0%nat ∧
  count is_dropout (NetPTQ.modules (NetPTQ.init Examples.w0)) = 0%nat ∧
  count is_linear (Net.modules (Net.init Examples.w0)) = 2%nat ∧
  count is_dropout (Net.modules (Net.init Examples.w0)) = 2%nat.
Proof. split_and!; reflexivity. Qed.

(** C8.  Under fp16 the loss is float32 at the assert of [train], for every
    batch, and the assert passes.  With the model on a CUDA device autocast
    is in effect and [F.nll_loss] runs in float32 whatever the element type
    of the batch and of the network's output; on the CPU autocast does
    nothing and the loss has the element type of the batch, float32 for the
    batches of the loaders.  So a batch whose forward pass and loss succeed
    goes on to the scaled step, and an AssertionError out of [train] can only
    be one that a model call raised. *)
Theorem fp16_loss_is_float32 `{Scalar} `{!RandomSource} `{!Collaborators}
    (args : Args) (device : torch_device) (sparse_policy : cast_policy) (model : NetPTQ.t)
    (fresh_scaler : grad_scaler) (train_loader : list (Tensor * list Z))
    (opt : optimizer) (g : rng) (st : TrainState) (data : Tensor) (target : list Z) :
  fp16 args = true →
  device = cuda ∨ t_dtype data = float32 →
  Forall (λ b, device = cuda ∨ t_dtype b.1 = float32) train_loader →
  op_dtype (autocast_in_effect args device) sparse_policy OpNllLoss
    (NetPTQ.forward_dtype (autocast_in_effect args device) sparse_policy (t_dtype data)) =
    float32 ∧
  (∀ model' g' output loss,
     model_call args (ts_model st) data (ts_rng st) = (model', g', ok output) →
     nll_loss output target = ok loss →
     train_batch args device sparse_policy st data target =
       (mkTrainState
          (scaled_step (ts_scaler st) (zero_grad (ts_optimizer st)) model' data target loss).2
          (scaled_step (ts_scaler st) (zero_grad (ts_optimizer st)) model' data target loss).1.2
          (scaled_step (ts_scaler st) (zero_grad (ts_optimizer st)) model' data target loss).1.1
          g',
        if log_interval args =? 0 then raise ZeroDivisionError else ok tt)) ∧
  (∀ e, (train_batch args device sparse_policy st data target).2 = inl e →
        (model_call args (ts_model st) data (ts_rng st)).2 = inl e ∨
        (∃ output, (model_call args (ts_model st) data (ts_rng st)).2 = ok output ∧
                   nll_loss output target = inl e) ∨
        (e = ZeroDivisionError ∧ log_interval args = 0)) ∧
  ((train args sparse_policy model device fresh_scaler train_loader opt g).2 =
     inl AssertionError →
   ∃ st' data' target', (data', target') ∈ train_loader ∧
     (model_call args (ts_model st') data' (ts_rng st')).2 = inl AssertionError).
Proof.
  intros Hfp Hd Hl. split; [|split; [|split]].
  - by apply loss_dtype_float32.
  - intros model' g' output loss. by apply train_batch_fp16.
  - intros e. by apply train_batch_fp16_error.
  - unfold train. by apply train_loop_fp16_assertion.
Qed.

Lemma fp16_loss_is_float32_witness :
  (@train_batch ZScalar ZRandom ZCollaborators (mkArgs true true 10) cuda to_float16
     (@mkTrainState ZScalar ZRandom ZCollaborators (NetPTQ.train (NetPTQ.init Examples.w0)) 0 1 0)
     MoreExamples.two_pixels [3]).2 = ok tt ∧
  @ts_scaler ZScalar ZRandom ZCollaborators
    (@train_batch ZScalar ZRandom ZCollaborators (mkArgs true true 10) cuda to_float16
       (@mkTrainState ZScalar ZRandom ZCollaborators (NetPTQ.train (NetPTQ.init Examples.w0))
          0 1 0)
       MoreExamples.two_pixels [3]).1 = 2.
Proof.
  pose proof (@fp16_loss_is_float32 ZScalar ZRandom ZCollaborators (mkArgs true true 10) cuda
                to_float16 (NetPTQ.init Examples.w0) 1 [(MoreExamples.two_pixels, [3])] 0 0
                (@mkTrainState ZScalar ZRandom ZCollaborators
                   (NetPTQ.train (NetPTQ.init Examples.w0)) 0 1 0)
                MoreExamples.two_pixels [3] eq_refl (or_introl eq_refl)
                ltac:(repeat constructor)) as (_ & Hstep & _).
  set (c := @model_call ZScalar ZRandom (mkArgs true true 10)
              (NetPTQ.train (NetPTQ.init Examples.w0)) MoreExamples.two_pixels 0).
  set (output := match c.2 with inr o => o | inl _ => @mkTensor2 ZScalar [] 0 end).
  assert (c = (c.1.1, c.1.2, ok output)) as Hcall by (vm_compute; reflexivity).
  set (loss := match @nll_loss ZScalar output [3] with inr l => l | inl _ => 0 end).
  assert (@nll_loss ZScalar output [3] = ok loss) as Hloss by (vm_compute; reflexivity).
  rewrite (Hstep c.1.1 c.1.2 output loss Hcall Hloss). split; reflexivity.
Defined.

(** C9.  [calibrate] changes no parameter: whatever the batches, the model it
    leaves has the parameters and the batch-norm buffers it was given, and
    differs from the model in evaluation mode in the observers' running
    statistics only; the generator is untouched. *)
Theorem calibrate_changes_no_parameter `{Scalar} `{!RandomSource} `{!Collaborators}
    (args : Args) (model : NetPTQ.t) (data_loader : list (Tensor * list Z)) (g : rng) :
  ∃ model' r,
    calibrate args model data_loader g = (model', g, r) ∧
    NetPTQ.parameters model' = NetPTQ.parameters model ∧
    NetPTQ.bn_buffers model' = NetPTQ.bn_buffers model ∧
    NetPTQ.reset_observers model' = NetPTQ.reset_observers (NetPTQ.eval model).
Proof.
  unfold calibrate.
  destruct (calibrate_loop_frame args data_loader (NetPTQ.eval model) g eq_refl)
    as (model' & r & Heq & Hm).
  exists model', r. split_and!; [done| | |done].
  - rewrite <- (NetPTQ_parameters_reset model'), Hm. by rewrite NetPTQ_parameters_reset.
  - rewrite <- (NetPTQ_bn_buffers_reset model'), Hm. by rewrite NetPTQ_bn_buffers_reset.
Qed.

(** The observers do move: a prepared model whose [quant] is an empty
    observer has seen the range of the features after one batch. *)
Remark calibrate_updates_observers :
  NetPTQ.observers
    (@calibrate ZScalar ZRandom (mkArgs true false 10)
       (NetPTQ.mk true (NetPTQ.net (NetPTQ.init Examples.w0)) (Observer None) DeQuantStub)
       [(Examples.one_pixel, [3])] 0).1.1 = [Some (5, 5)].
Proof. vm_compute. reflexivity. Qed.

(** C10.  Both stage constructors hand their convolution the padding
    [(kernel_size - 1) // 2], whatever the other arguments.  With an odd
    kernel and stride 1 the extent formula gives back the input extent, and a
    stride-1 stage of either kind that returns keeps the spatial shape of its
    input; with an even kernel twice the padding is below the kernel size. *)
Theorem stage_padding_from_kernel_size `{Scalar} `{!RandomSource}
    (i o k s gr : Z) (w : kernel) (bn : BNState) :
  stage_conv (SubMConvBNReLU i o k s gr w bn) = Some (true, stage_cfg i o k s gr) ∧
  stage_conv (SparseConvBNReLU i o k s gr w bn) = Some (false, stage_cfg i o k s gr) ∧
  padding (stage_cfg i o k s gr) = (k - 1) / 2 ∧
  (Z.odd k = true →
     (∀ size, conv_out_size size k 1 ((k - 1) / 2) = size) ∧
     (∀ tr x g m' g' v,
        module_forward tr (SubMConvBNReLU i o k 1 gr w bn) (VSparse x) g = (m', g', ok v) ∨
        module_forward tr (SparseConvBNReLU i o k 1 gr w bn) (VSparse x) g = (m', g', ok v) →
        ∃ y, v = VSparse y ∧ spatial_shape y = spatial_shape x)) ∧
  (Z.even k = true → 2 * ((k - 1) / 2) < k).
Proof.
  split_and!; try reflexivity.
  - intros Hodd. split; [intros size; by apply padding_odd_kernel|].
    intros tr x g m' g' v [Hfw|Hfw].
    + apply SubMConvBNReLU_forward_inv in Hfw as (_ & y & -> & _ & Hsh & _). by exists y.
    + apply SparseConvBNReLU_forward_inv in Hfw as (_ & y & -> & Hsh & _).
      exists y. split; [done|]. rewrite Hsh, !padding_odd_kernel by done.
      by destruct (spatial_shape x).
  - apply padding_even_kernel.
Qed.

Lemma stage_padding_from_kernel_size_witness :
  (∀ size, @conv_out_size size 3 1 ((3 - 1) / 2) = size) ∧ 2 * ((2 - 1) / 2) < 2.
Proof.
  split.
  - exact (proj1 (proj1 (proj2 (proj2 (proj2
      (@stage_padding_from_kernel_size ZScalar ZRandom 1 2 3 1 1
         (conv_weight Examples.w0 0%nat) Examples.bn0)))) eq_refl)).
  - exact (proj2 (proj2 (proj2 (proj2
      (@stage_padding_from_kernel_size ZScalar ZRandom 1 2 2 1 1
         (conv_weight Examples.w0 0%nat) Examples.bn0)))) eq_refl).
Defined.

(** * Further properties *)

Section ForwardFrame.
Context `{Scalar} `{!RandomSource}.

Lemma on_features_fst (fwd : value → rng → outcome) x g (P : module → Prop) :
  (∀ x g, P (fwd x g).1.1) → P (on_features fwd x g).1.1.
Proof.
  intros Hf. destruct x as [s|d|t]; cbn [on_features]; [|apply Hf..].
  specialize (Hf (VTensor (features s)) g). by destruct (fwd _ g) as [[m' g'] r].
Qed.

Lemma seq_forward_parameters (fwd : module → value → rng → outcome) ms :
  Forall (λ m, ∀ x g, parameters (fwd m x g).1.1 = parameters m) ms →
  ∀ x g, (seq_forward fwd ms x g).1.1 ≫= parameters = ms ≫= parameters.
Proof.
  induction 1 as [|c ms Hc _ IH]; intros x g; cbn [seq_forward]; [done|].
  specialize (Hc x g). destruct (fwd c x g) as [[c' g'] [e|y]]; cbn [fst] in *.
  - rewrite !bind_cons. by f_equal.
  - specialize (IH y g'). destruct (seq_forward fwd ms y g') as [[ms' g''] r].
    cbn [fst] in *. rewrite !bind_cons. by f_equal.
Qed.

(** A module call, in either mode, hands back the parameters it was given. *)
Lemma module_forward_parameters tr m :
  ∀ x g, parameters (module_forward tr m x g).1.1 = parameters m.
Proof.
  induction m as [ms IH|m Hc Hns] using module_tree_ind; intros x g.
  - cbn [module_forward].
    pose proof (seq_forward_parameters
      (λ c x g, if is_spconv_module c then module_forward tr c x g
                else on_features (module_forward tr c) x g) ms) as Hseq.
    assert (Forall (λ m, ∀ x g, parameters
              ((λ c x g, if is_spconv_module c then module_forward tr c x g
                         else on_features (module_forward tr c) x g) m x g).1.1
              = parameters m) ms) as Hall.
    { eapply Forall_impl; [exact IH|]. intros c Hcc x' g'. cbn beta.
      destruct (is_spconv_module c); [apply Hcc|].
      apply (on_features_fst _ _ _ (λ m', parameters m' = parameters c)). apply Hcc. }
    specialize (Hseq Hall x g).
    destruct (seq_forward _ ms x g) as [[ms' g'] r]. cbn [fst] in *.
    by rewrite !parameters_seq.
  - destruct m as [cfg w b|cfg w b| |ms|nf mom st| |i o w b|p| | |r];
      try (by destruct (Hns ms)); cbn [module_forward]; try done.
    + destruct x as [s|d|t]; try done. unfold BatchNorm1d_forward.
      destruct (negb _); [done|]. destruct tr; [|done].
      by destruct (length (t2_rows t) =? 1)%nat.
    + destruct x as [s|d|t]; try done. by destruct (Dropout2d_forward tr p t g).
Qed.

Lemma step_parameters tr m r g :
  parameters (step tr m r g).1.1 = parameters m.
Proof. destruct r as [e|x]; cbn [step]; [done|]. apply module_forward_parameters. Qed.

Lemma count_zero_Forall (p : module → bool) ms :
  count p ms = 0%nat ↔ Forall (λ m, p m = false) ms.
Proof.
  unfold count. induction ms as [|m ms IH]; simpl; [by split; [constructor|]|].
  destruct (p m) eqn:Hp; simpl.
  - split; [lia|]. intros Hall. apply Forall_cons in Hall as [Hm _]. congruence.
  - rewrite IH. split; [by constructor|]. by intros [_ ?]%Forall_cons.
Qed.

Lemma seq_forward_generator (fwd : module → value → rng → outcome) ms :
  Forall (λ m, ∀ x g, (fwd m x g).1.2 = g) ms →
  ∀ x g, (seq_forward fwd ms x g).1.2 = g.
Proof.
  induction 1 as [|c ms Hc _ IH]; intros x g; cbn [seq_forward]; [done|].
  specialize (Hc x g). destruct (fwd c x g) as [[c' g'] [e|y]]; cbn [fst snd] in *; [done|].
  subst g'. specialize (IH y g). by destruct (seq_forward fwd ms y g) as [[ms' g''] r].
Qed.

Lemma on_features_generator (fwd : value → rng → outcome) x g :
  (∀ x g, (fwd x g).1.2 = g) → (on_features fwd x g).1.2 = g.
Proof.
  intros Hf. destruct x as [s|d|t]; cbn [on_features]; [|apply Hf..].
  specialize (Hf (VTensor (features s)) g). by destruct (fwd _ g) as [[m' g'] r].
Qed.

(** A module tree without a dropout layer never advances the generator, in
    either mode. *)
Lemma module_forward_generator tr m :
  Forall (λ c, is_dropout c = false) (submodules m) →
  ∀ x g, (module_forward tr m x g).1.2 = g.
Proof.
  induction m as [ms IH|m Hc Hns] using module_tree_ind; intros Hnd x g.
  - rewrite submodules_seq in Hnd. apply Forall_cons in Hnd as [_ Hnd].
    cbn [module_forward].
    pose proof (seq_forward_generator
      (λ c x g, if is_spconv_module c then module_forward tr c x g
                else on_features (module_forward tr c) x g) ms) as Hseq.
    assert (Forall (λ m, ∀ x g,
              ((λ c x g, if is_spconv_module c then module_forward tr c x g
                         else on_features (module_forward tr c) x g) m x g).1.2 = g) ms)
      as Hall.
    { clear Hseq x g. induction IH as [|c ms Hcc _ IHms]; [constructor|].
      rewrite bind_cons in Hnd. apply Forall_app in Hnd as [Hc Hms].
      constructor; [|by apply IHms]. intros x g. cbn beta.
      destruct (is_spconv_module c); [by apply Hcc|].
      apply on_features_generator. by apply Hcc. }
    specialize (Hseq Hall x g).
    by destruct (seq_forward _ ms x g) as [[ms' g'] r].
  - destruct m as [cfg w b|cfg w b| |ms|nf mom st| |i o w b|p| | |r];
      try (by destruct (Hns ms)); cbn [module_forward]; try done.
    + destruct x as [s|d|t]; try done.
      by destruct (BatchNorm1d_forward tr nf mom st t).
    + cbn [submodules] in Hnd. apply Forall_cons in Hnd as [Hd _]. discriminate Hd.
Qed.

Lemma step_generator tr m r g :
  Forall (λ c, is_dropout c = false) (submodules m) → (step tr m r g).1.2 = g.
Proof.
  intros Hnd. destruct r as [e|x]; cbn [step]; [done|]. by apply module_forward_generator.
Qed.

Lemma reset_buffers_seq ms :
  reset_buffers (SparseSequential ms) = SparseSequential (reset_buffers <$> ms).
Proof. cbn [reset_buffers]. by f_equal. Qed.

Lemma seq_forward_reset_buffers (fwd : module → value → rng → outcome) ms :
  Forall (λ m, ∀ x g, reset_buffers (fwd m x g).1.1 = reset_buffers m) ms →
  ∀ x g, reset_buffers <$> (seq_forward fwd ms x g).1.1 = reset_buffers <$> ms.
Proof.
  induction 1 as [|c ms Hc _ IH]; intros x g; cbn [seq_forward]; [done|].
  specialize (Hc x g). destruct (fwd c x g) as [[c' g'] [e|y]]; cbn [fst] in *.
  - rewrite !fmap_cons. by f_equal.
  - specialize (IH y g'). destruct (seq_forward fwd ms y g') as [[ms' g''] r].
    cbn [fst] in *. rewrite !fmap_cons. by f_equal.
Qed.

(** A module call, in either mode, changes batch-norm buffers and observers
    only. *)
Lemma module_forward_reset_buffers tr m :
  ∀ x g, reset_buffers (module_forward tr m x g).1.1 = reset_buffers m.
Proof.
  induction m as [ms IH|m Hc Hns] using module_tree_ind; intros x g.
  - cbn [module_forward].
    pose proof (seq_forward_reset_buffers
      (λ c x g, if is_spconv_module c then module_forward tr c x g
                else on_features (module_forward tr c) x g) ms) as Hseq.
    assert (Forall (λ m, ∀ x g, reset_buffers
              ((λ c x g, if is_spconv_module c then module_forward tr c x g
                         else on_features (module_forward tr c) x g) m x g).1.1
              = reset_buffers m) ms) as Hall.
    { eapply Forall_impl; [exact IH|]. intros c Hcc x' g'. cbn beta.
      destruct (is_spconv_module c); [apply Hcc|].
      apply (on_features_fst _ _ _ (λ m', reset_buffers m' = reset_buffers c)). apply Hcc. }
    specialize (Hseq Hall x g).
    destruct (seq_forward _ ms x g) as [[ms' g'] r]. cbn [fst] in *.
    by rewrite !reset_buffers_seq, Hseq.
  - destruct m as [cfg w b|cfg w b| |ms|nf mom st| |i o w b|p| | |r];
      try (by destruct (Hns ms)); cbn [module_forward]; try done.
    + destruct x as [s|d|t]; try done. unfold BatchNorm1d_forward.
      destruct (negb _); [done|]. destruct tr; [|done].
      by destruct (length (t2_rows t) =? 1)%nat.
    + destruct x as [s|d|t]; try done. by destruct (Dropout2d_forward tr p t g).
Qed.

Lemma step_reset_buffers tr m r g :
  reset_buffers (step tr m r g).1.1 = reset_buffers m.
Proof. destruct r as [e|x]; cbn [step]; [done|]. apply module_forward_reset_buffers. Qed.

Lemma NetPTQ_forward_reset_buffers (self : NetPTQ.t) f i b g :
  NetPTQ.reset_buffers (NetPTQ.forward self f i b g).1.1 = NetPTQ.reset_buffers self.
Proof.
  unfold NetPTQ.forward, NetPTQ.reset_buffers.
  pose proof (module_forward_reset_buffers (NetPTQ.training self) (NetPTQ.quant self)
                (VTensor f) g) as Pq.
  destruct (module_forward _ (NetPTQ.quant self) _ g) as [[q g1] r1].
  cbn [fst snd] in Pq.
  destruct (as_tensor r1) as [e|f'].
  { cbn [fst snd NetPTQ.net NetPTQ.quant NetPTQ.dequant NetPTQ.training]. by rewrite Pq. }
  pose proof (module_forward_reset_buffers (NetPTQ.training self) (NetPTQ.net self)
                (VSparse (SparseConvTensor_init f' i (28, 28) b)) g1) as Pn.
  destruct (module_forward _ (NetPTQ.net self) _ g1) as [[n g2] r2].
  cbn [fst snd] in Pn.
  pose proof (step_reset_buffers (NetPTQ.training self) (NetPTQ.dequant self)
                (flatten_value r2) g2) as Pd.
  destruct (step _ (NetPTQ.dequant self) _ g2) as [[d g3] r3].
  cbn [fst snd NetPTQ.net NetPTQ.quant NetPTQ.dequant NetPTQ.training] in *.
  by rewrite Pq, Pn, Pd.
Qed.

End ForwardFrame.

(** X1.  [NetPTQ.forward], in training as in evaluation and whatever the
    modules of the network are, hands back the parameters it was given: a
    forward pass alone never trains.  Nothing but batch-norm buffers and
    observers can differ afterwards: with these cleared, the network after
    the call is the network before it.  If the network holds no dropout
    layer (as the one [NetPTQ.__init__] builds), the call does not advance
    the random generator either. *)
Theorem NetPTQ_forward_keeps_parameters `{Scalar} `{!RandomSource}
    (self : NetPTQ.t) (f : Tensor2) (i : list coord) (b : Z) (g : rng) :
  NetPTQ.parameters (NetPTQ.forward self f i b g).1.1 = NetPTQ.parameters self ∧
  NetPTQ.training (NetPTQ.forward self f i b g).1.1 = NetPTQ.training self ∧
  NetPTQ.reset_buffers (NetPTQ.forward self f i b g).1.1 = NetPTQ.reset_buffers self ∧
  (count is_dropout (NetPTQ.modules self) = 0%nat →
   (NetPTQ.forward self f i b g).1.2 = g).
Proof.
  pose proof (NetPTQ_forward_reset_buffers self f i b g) as Hframe. revert Hframe.
  unfold NetPTQ.forward, NetPTQ.parameters, NetPTQ.modules.
  pose proof (module_forward_parameters (NetPTQ.training self) (NetPTQ.quant self)
                (VTensor f) g) as Pq.
  pose proof (module_forward_generator (NetPTQ.training self) (NetPTQ.quant self)) as Gq.
  destruct (module_forward _ (NetPTQ.quant self) _ g) as [[q g1] r1] eqn:Eq.
  cbn [fst snd] in Pq.
  destruct (as_tensor r1) as [e|f'].
  { cbn [fst snd NetPTQ.net NetPTQ.quant NetPTQ.dequant NetPTQ.training].
    intros Hframe. split_and!; [by rewrite Pq|done|exact Hframe|].
    intros Hnd. apply count_zero_Forall in Hnd. rewrite !Forall_app in Hnd.
    destruct Hnd as (_ & Hdq & _). specialize (Gq Hdq (VTensor f) g).
    by rewrite Eq in Gq. }
  pose proof (module_forward_parameters (NetPTQ.training self) (NetPTQ.net self)
                (VSparse (SparseConvTensor_init f' i (28, 28) b)) g1) as Pn.
  pose proof (module_forward_generator (NetPTQ.training self) (NetPTQ.net self)) as Gn.
  destruct (module_forward _ (NetPTQ.net self) _ g1) as [[n g2] r2] eqn:En.
  cbn [fst snd] in Pn.
  pose proof (step_parameters (NetPTQ.training self) (NetPTQ.dequant self)
                (flatten_value r2) g2) as Pd.
  pose proof (step_generator (NetPTQ.training self) (NetPTQ.dequant self)
                (flatten_value r2) g2) as Gd.
  destruct (step _ (NetPTQ.dequant self) _ g2) as [[d g3] r3] eqn:Ed.
  cbn [fst snd NetPTQ.net NetPTQ.quant NetPTQ.dequant NetPTQ.training] in *.
  intros Hframe. split_and!; [by rewrite Pq, Pn, Pd|done|exact Hframe|].
  intros Hnd. apply count_zero_Forall in Hnd. rewrite !Forall_app in Hnd.
  destruct Hnd as (Hn & Hq & Hd).
  specialize (Gq Hq (VTensor f) g). rewrite Eq in Gq. cbn [fst snd] in Gq. subst g1.
  specialize (Gn Hn (VSparse (SparseConvTensor_init f' i (28, 28) b)) g).
  rewrite En in Gn. cbn [fst snd] in Gn. subst g2.
  by apply Gd.
Qed.

Lemma NetPTQ_forward_keeps_parameters_witness :
  (@NetPTQ.forward ZScalar ZRandom (NetPTQ.init Examples.w0)
     (features (from_dense Examples.one_pixel_batch))
     (indices (from_dense Examples.one_pixel_batch))
     (batch_size (from_dense Examples.one_pixel_batch)) 7).1.2 = 7.
Proof.
  exact (proj2 (proj2 (proj2
    (@NetPTQ_forward_keeps_parameters ZScalar ZRandom (NetPTQ.init Examples.w0)
       (features (from_dense Examples.one_pixel_batch))
       (indices (from_dense Examples.one_pixel_batch))
       (batch_size (from_dense Examples.one_pixel_batch)) 7))) eq_refl).
Defined.

Section NetShape.
Context `{Scalar} `{!RandomSource}.

Lemma Linear_forward_shape i o w b (t : Tensor2) :
  t2_cols t = i → 0 ≤ o →
  ∃ t', Linear_forward i o w b t = ok t' ∧ t2_cols t' = o ∧
        length (t2_rows t') = length (t2_rows t) ∧ wf_Tensor2 t'.
Proof.
  intros Hc Ho. unfold Linear_forward. rewrite Hc, Z.eqb_refl.
  eexists. split; [done|]. cbn [t2_cols t2_rows]. split_and!; [done|by rewrite length_fmap|].
  split; [done|]. cbn [t2_cols t2_rows]. apply Forall_fmap, Forall_forall. intros r _.
  cbn. by rewrite length_fmap, length_seq.
Qed.

Lemma Linear_forward_mismatch i o w b (t : Tensor2) :
  t2_cols t ≠ i → Linear_forward i o w b t = raise RuntimeError.
Proof.
  intros Hc. unfold Linear_forward. destruct (t2_cols t =? i) eqn:E; [|done].
  by apply Z.eqb_eq in E.
Qed.

(** The sparse part of [Net] in evaluation: a well-formed view of [N]
    single-channel 28 x 28 samples comes out as a well-formed dense batch of
    shape [[N, 14, 14, 64]]. *)
Lemma Net_net_eval (w : Weights) (x : SparseConvTensor) N g :
  view_sig N 28 28 1 x →
  ∃ d, module_forward false (Net.net (Net.init w)) (VSparse x) g =
         (Net.net (Net.init w), g, ok (VDense d)) ∧
       wf_Dense d ∧ d_shape d = (N, 14, 14, 64).
Proof.
  intros Hx0. cbn [Net.net Net.init].
  destruct (SubMConvBNReLU_eval_sig N 28 28 1 32 3 1 1 (conv_weight w 0%nat)
              (conv_bn w 0%nat) x g Hx0) as (x1 & E1 & Hx1 & _); [done..|].
  destruct (SubMConvBNReLU_eval_sig N 28 28 32 64 3 1 1 (conv_weight w 1%nat)
              (conv_bn w 1%nat) x1 g Hx1) as (x2 & E2 & Hx2 & _); [done..|].
  destruct (SparseConvBNReLU_eval_sig N 28 28 64 64 2 2 1 (conv_weight w 2%nat)
              (conv_bn w 2%nat) x2 g Hx2) as (x3 & E3 & Hx3); [done..|].
  change (conv_out_size 28 2 2 ((2 - 1) / 2)) with 14 in Hx3.
  destruct (ToDense_module_sig false N 14 14 64 x3 g Hx3) as (d & E4 & Hwf & Hshape).
  exists d. split; [|done].
  repeat (eapply SparseSequential_cons; [done|eassumption|]).
  apply SparseSequential_nil.
Qed.

End NetShape.

(** X2.  [Net] and [NetV2] are consistent with their own layer sizes: on the
    sparse view of a well-formed dense batch of shape [[N, 28, 28, 1]] the
    sparse stack ends in a dense [[N, 14, 14, 64]] batch, whose flattened
    width is the [14 * 14 * 64] inputs of [fc1]; in evaluation mode
    [Net.forward] (and [NetV2.forward] on the view's triple) returns
    log-probabilities of shape [[N, 10]] and leaves the network as it was. *)
Theorem Net_output_shape `{Scalar} `{!RandomSource}
    (w : Weights) (B : Dense) (N : Z) (g : rng) :
  wf_Dense B → d_shape B = (N, 28, 28, 1) →
  ∃ out,
    Net.forward (Net.eval (Net.init w)) (from_dense B) g =
      (Net.eval (Net.init w), g, ok out) ∧
    NetV2.forward (Net.eval (NetV2.init w))
      (features (from_dense B)) (indices (from_dense B)) (batch_size (from_dense B)) g =
      (Net.eval (Net.init w), g, ok out) ∧
    t2_cols out = 10 ∧ length (t2_rows out) = Z.to_nat N ∧ wf_Tensor2 out.
Proof.
  intros Hwf Hshape. pose proof (from_dense_sig B N 28 28 1 Hwf Hshape) as Hsig.
  pose proof (Net_forward_eval_state w (from_dense B) g) as Hstate.
  pose proof (Net_forward_output false w (from_dense B) g) as Hout.
  change (Net.set_training false (Net.init w)) with (Net.eval (Net.init w)) in Hout.
  destruct (Net.forward (Net.eval (Net.init w)) (from_dense B) g) as [[self' g'] r] eqn:E.
  cbn [fst snd] in Hstate, Hout. injection Hstate as -> ->.
  cbv zeta in Hout.
  destruct (Net_net_eval w (from_dense B) N g Hsig) as (d & En & Hwfd & Hshd).
  rewrite En in Hout. cbn [fst snd bind ok] in Hout.
  destruct (flatten_dense_shape d N 14 14 64 Hwfd Hshd) as (t & Et & Hc & Hr & Hwt).
  rewrite Et in Hout. cbn [bind ok] in Hout. rewrite !Dropout2d_forward_eval in Hout.
  cbn [fst snd] in Hout.
  destruct (Linear_forward_shape (14 * 14 * 64) 128 (fc1_weight w) (fc1_bias w) t Hc)
    as (y1 & E1 & Hc1 & Hr1 & Hw1); [done|].
  rewrite E1 in Hout. cbn [bind ok] in Hout. rewrite !Dropout2d_forward_eval in Hout.
  cbn [fst snd] in Hout.
  destruct (Linear_forward_shape 128 10 (fc2_weight w) (fc2_bias w)
              (mkTensor2 (relu <$> t2_rows y1) (t2_cols y1)) Hc1)
    as (y2 & E2 & Hc2 & Hr2 & Hw2); [done|].
  rewrite E2 in Hout. cbn [bind ok] in Hout. subst r.
  destruct (log_softmax_shape y2) as (Hc' & Hr' & Hw').
  exists (log_softmax y2). split_and!; [done| |congruence| |auto].
  - assert (spatial_shape (from_dense B) = (28, 28)) as Hsh by (by destruct Hsig as (_&_&_&?&_)).
    unfold NetV2.init. rewrite NetV2_forward_Net_forward by done. exact E.
  - rewrite Hr', Hr2. cbn [t2_rows]. rewrite length_fmap. congruence.
Qed.

Lemma Net_output_shape_witness :
  ∃ out,
    (@Net.forward ZScalar ZRandom (Net.eval (Net.init Examples.w0))
       (from_dense Examples.one_pixel_batch) 0).2 = ok out ∧
    t2_cols out = 10 ∧ length (t2_rows out) = 1%nat.
Proof.
  assert (@wf_Dense ZScalar Examples.one_pixel_batch) as Hwf
    by (apply check_dense_spec; vm_compute; reflexivity).
  destruct (@Net_output_shape ZScalar ZRandom Examples.w0 Examples.one_pixel_batch 1 0
              Hwf eq_refl) as (out & Hout & _ & Hc & Hr & _).
  exists out. rewrite Hout. split_and!; [reflexivity|exact Hc|exact Hr].
Defined.

(** X3.  [NetV2.forward] calls [self.quant] on the features but builds the
    sparse tensor from the [features] argument itself: whatever two modules
    stand for [quant], as long as both calls return and leave the generator
    in the same state, the output is the same.  The value [quant] returns
    never reaches the sparse stack. *)
Theorem NetV2_ignores_quant_output `{Scalar} `{!RandomSource}
    (tr : bool) (net fc1 fc2 dropout1 dropout2 dequant q1 q2 q1' q2' : module)
    (f : Tensor2) (i : list coord) (b : Z) (g g' : rng) (v1 v2 : value) :
  module_forward tr q1 (VTensor f) g = (q1', g', ok v1) →
  module_forward tr q2 (VTensor f) g = (q2', g', ok v2) →
  (NetV2.forward (Net.mk tr net fc1 fc2 dropout1 dropout2 q1 dequant) f i b g).2 =
  (NetV2.forward (Net.mk tr net fc1 fc2 dropout1 dropout2 q2 dequant) f i b g).2.
Proof.
  intros H1 H2. unfold NetV2.forward.
  cbn [Net.training Net.net Net.fc1 Net.fc2 Net.dropout1 Net.dropout2 Net.quant Net.dequant].
  rewrite H1, H2. unfold Net.trunk.
  cbn [Net.training Net.net Net.fc1 Net.fc2 Net.dropout1 Net.dropout2 Net.quant Net.dequant].
  destruct (module_forward tr net _ g') as [[n1 g1] r1].
  destruct (step tr dropout1 _ g1) as [[d1 g2] r2].
  destruct (step tr fc1 _ g2) as [[l1 g3] r3].
  destruct (step tr dropout2 _ g3) as [[d2 g4] r4].
  destruct (step tr fc2 _ g4) as [[l2 g5] r5].
  cbn [Net.training Net.net Net.fc1 Net.fc2 Net.dropout1 Net.dropout2 Net.quant Net.dequant].
  by destruct (step tr dequant r5 g5) as [[dq g6] r6].
Qed.

Lemma NetV2_ignores_quant_output_witness :
  (@NetV2.forward ZScalar ZRandom (MoreExamples.net_with_quant QuantStub)
     MoreExamples.negative_features [(0, 3, 4)] 1 0).2 =
  (@NetV2.forward ZScalar ZRandom (MoreExamples.net_with_quant ReLU)
     MoreExamples.negative_features [(0, 3, 4)] 1 0).2.
Proof.
  exact (@NetV2_ignores_quant_output ZScalar ZRandom false _ _ _ _ _ _ QuantStub ReLU
           QuantStub ReLU MoreExamples.negative_features [(0, 3, 4)] 1 0 0
           (VTensor MoreExamples.negative_features)
           (VTensor (@mkTensor2 ZScalar [[0]] 1)) eq_refl eq_refl).
Defined.

Section Reshape.
Context `{Scalar}.

(** [reshape(-1, 28, 28, 1)] of a batch of [N >= 1] images of 784 scalars is
    a well-formed dense batch of shape [[N, 28, 28, 1]]. *)
Lemma reshape_28_28_1_ok (data : Tensor) (N : Z) :
  1 ≤ N → length (t_data data) = Z.to_nat (784 * N) →
  ∃ d, reshape_28_28_1 data = ok d ∧ wf_Dense d ∧ d_shape d = (N, 28, 28, 1).
Proof.
  intros HN Hlen. unfold reshape_28_28_1. rewrite Hlen, Z2Nat.id by lia.
  rewrite Z.mul_comm, Z.mod_mul by lia. cbn [Z.eqb].
  rewrite Z.div_mul by lia. eexists. split; [done|]. split; [|done].
  unfold wf_Dense. cbn [d_shape d_sites]. split_and!; try lia.
  - rewrite length_fmap, Hlen. f_equal. lia.
  - apply Forall_fmap, Forall_forall. by intros v _.
Qed.

Lemma reshape_28_28_1_error (data : Tensor) :
  Z.of_nat (length (t_data data)) mod 784 ≠ 0 →
  reshape_28_28_1 data = raise RuntimeError.
Proof.
  intros Hbad. unfold reshape_28_28_1.
  destruct (Z.eqb_spec (Z.of_nat (length (t_data data)) mod 784) 0); done.
Qed.

End Reshape.

Section ModelCall.
Context `{Scalar} `{!RandomSource}.

Lemma model_call_eval_ok (w : Weights) (data : Tensor) (N : Z) (fp : bool) (li : Z) (g : rng) :
  1 ≤ N → length (t_data data) = Z.to_nat (784 * N) →
  ∃ out, model_call (mkArgs true fp li) (NetPTQ.eval (NetPTQ.init w)) data g =
           (NetPTQ.eval (NetPTQ.init w), g, ok out) ∧
         t2_cols out = 10 ∧ length (t2_rows out) = Z.to_nat N ∧ wf_Tensor2 out.
Proof.
  intros HN Hlen. unfold model_call. cbn [sparse].
  destruct (reshape_28_28_1_ok data N HN Hlen) as (d & -> & Hwf & Hshape).
  cbn [NetPTQ.call].
  apply NetPTQ_forward_eval. by apply from_dense_sig.
Qed.

End ModelCall.

(** X4.  The model call of the loops, end to end: a loader batch of [N >= 1]
    images of 28 * 28 scalars goes through [reshape(-1, 28, 28, 1)],
    [from_dense] and the float [NetPTQ] in evaluation mode, and comes back as
    log-probabilities of shape [[N, 10]] with the model unchanged.  A batch
    whose element count is no multiple of 784 raises RuntimeError in the
    reshape, before any model is called. *)
Theorem model_call_on_image_batch `{Scalar} `{!RandomSource}
    (w : Weights) (model : NetPTQ.t) (data : Tensor) (N : Z) (fp : bool) (li : Z) (g : rng) :
  (1 ≤ N → length (t_data data) = Z.to_nat (784 * N) →
   ∃ out, model_call (mkArgs true fp li) (NetPTQ.eval (NetPTQ.init w)) data g =
            (NetPTQ.eval (NetPTQ.init w), g, ok out) ∧
          t2_cols out = 10 ∧ length (t2_rows out) = Z.to_nat N ∧ wf_Tensor2 out) ∧
  (Z.of_nat (length (t_data data)) mod 784 ≠ 0 →
   model_call (mkArgs true fp li) model data g = (model, g, raise RuntimeError)).
Proof.
  split.
  - apply model_call_eval_ok.
  - intros Hbad. unfold model_call. cbn [sparse]. by rewrite reshape_28_28_1_error.
Qed.

Lemma model_call_on_image_batch_witness :
  (∃ out, (@model_call ZScalar ZRandom (mkArgs true false 10)
             (NetPTQ.eval (NetPTQ.init Examples.w0)) Examples.one_pixel 0).2 = ok out ∧
          t2_cols out = 10) ∧
  (@model_call ZScalar ZRandom (mkArgs true false 10) (NetPTQ.init Examples.w0)
     (@mkTensor ZScalar float32 [3] [1; 2; 3]) 0).2 = raise RuntimeError.
Proof.
  split.
  - destruct (proj1 (@model_call_on_image_batch ZScalar ZRandom Examples.w0
                       (NetPTQ.init Examples.w0) Examples.one_pixel 1 false 10 0)
                ltac:(lia) eq_refl) as (out & Hout & Hc & _).
    exists out. rewrite Hout. split; [reflexivity|exact Hc].
  - rewrite (proj2 (@model_call_on_image_batch ZScalar ZRandom Examples.w0
                      (NetPTQ.init Examples.w0) (@mkTensor ZScalar float32 [3] [1; 2; 3])
                      1 false 10 0)); [reflexivity|]. vm_compute. discriminate.
Defined.

Section TestFacts.
Context `{Scalar} `{!RandomSource} `{!ScalarOrder}.

Lemma test_loop_frame args test_loader :
  ∀ (model : NetPTQ.t) g test_loss correct, NetPTQ.training model = false →
  ∃ model' r, test_loop args model test_loader g test_loss correct = (model', g, r) ∧
              NetPTQ.reset_observers model' = NetPTQ.reset_observers model.
Proof.
  induction test_loader as [|[data target] rest IH]; intros model g test_loss correct Htr;
    cbn [test_loop].
  - eauto.
  - destruct (model_call_eval_frame args model data g Htr) as (model1 & r1 & -> & Hm1).
    destruct r1 as [e|out]; [by eauto|].
    destruct (nll_loss_sum out target) as [e|loss]; [by eauto|].
    destruct (count_correct out target) as [e|c]; [by eauto|].
    assert (NetPTQ.training model1 = false) as Htr1.
    { apply NetPTQ_reset_observers_inv in Hm1 as (-> & _). done. }
    destruct (IH model1 g (fadd test_loss loss) (correct + c) Htr1) as (model' & r & -> & Hm).
    exists model', r. split; [done|]. congruence.
Qed.

Lemma argmax_from_bound (row : list scalar) :
  ∀ best best_i i, 0 ≤ best_i < i →
  0 ≤ argmax_from best best_i i row < i + Z.of_nat (length row).
Proof.
  induction row as [|v rest IH]; intros best best_i i Hb; cbn [argmax_from length].
  - lia.
  - destruct (fgtb v best).
    + pose proof (IH v i (i + 1) ltac:(lia)). lia.
    + pose proof (IH best best_i (i + 1) ltac:(lia)). lia.
Qed.

Lemma argmax_ok (rows : list (list scalar)) (n : nat) :
  Forall (λ r, length r = n) rows → n ≠ 0%nat →
  ∃ pred, argmax rows = ok pred ∧ length pred = length rows ∧
          Forall (λ p, 0 ≤ p < Z.of_nat n) pred.
Proof.
  intros Hrows Hn. induction Hrows as [|r rest Hr _ IH]; cbn [argmax].
  - by exists [].
  - destruct IH as (js & -> & Hlen & Hjs).
    destruct r as [|v r']; [by subst n|]. cbn [argmax_row bind ok].
    eexists. split; [done|]. cbn [length]. split; [by rewrite Hlen|].
    constructor; [|done].
    pose proof (argmax_from_bound r' v 0 1 ltac:(lia)). cbn [length] in Hr. lia.
Qed.

Lemma count_correct_ok (output : Tensor2) (target : list Z) :
  wf_Tensor2 output → 0 < t2_cols output →
  length (t2_rows output) = length target →
  ∃ c, count_correct output target = ok c ∧ 0 ≤ c ≤ Z.of_nat (length target).
Proof.
  intros [_ Hwf] Hc Hlen. unfold count_correct.
  destruct (argmax_ok (t2_rows output) (Z.to_nat (t2_cols output)) Hwf ltac:(lia))
    as (pred & -> & Hp & _).
  cbn [bind ok]. rewrite Hp, Hlen, Nat.eqb_refl. eexists. split; [done|].
  split; [lia|]. apply Nat2Z.inj_le.
  etrans; [apply List.filter_length_le|]. rewrite length_zip. lia.
Qed.

Lemma nll_loss_sum_ok (output : Tensor2) (target : list Z) :
  length (t2_rows output) = length target →
  Forall (λ c, 0 ≤ c < t2_cols output) target →
  ∃ loss, nll_loss_sum output target = ok loss.
Proof.
  intros Hlen Ht. unfold nll_loss_sum. rewrite Hlen, Nat.eqb_refl. cbn [negb].
  assert (forallb (λ c, (0 <=? c) && (c <? t2_cols output)) target = true) as ->;
    [|by eexists].
  clear Hlen. induction Ht as [|c rest Hc _ IH]; [done|]. cbn [forallb].
  rewrite IH, andb_true_r. apply andb_true_iff.
  split; [apply Z.leb_le|apply Z.ltb_lt]; lia.
Qed.

Lemma count_correct_bound (output : Tensor2) (target : list Z) (c : Z) :
  count_correct output target = ok c → 0 ≤ c ≤ Z.of_nat (length target).
Proof.
  unfold count_correct. destruct (argmax (t2_rows output)) as [e|pred]; [done|].
  cbn [bind ok]. destruct (length pred =? length target)%nat; [|done].
  intros [= <-]. split; [lia|]. apply Nat2Z.inj_le.
  etrans; [apply List.filter_length_le|]. rewrite length_zip. lia.
Qed.

(** Whatever the model, a run of the loop that completes has counted at most
    one correct prediction per label. *)
Lemma test_loop_count_bound args test_loader :
  ∀ (model : NetPTQ.t) g test_loss correct model' g' test_loss' correct',
  test_loop args model test_loader g test_loss correct =
    (model', g', ok (test_loss', correct')) →
  correct ≤ correct' ≤ correct + Z.of_nat (length (concat test_loader.*2)).
Proof.
  induction test_loader as [|[data target] rest IH];
    intros model g test_loss correct model' g' test_loss' correct';
    cbn [test_loop fmap list_fmap concat].
  - intros [= _ _ _ <-]. cbn [length]. lia.
  - destruct (model_call args model data g) as [[model1 g1] [e|out]]; [done|].
    destruct (nll_loss_sum out target) as [e|loss]; [done|].
    destruct (count_correct out target) as [e|c] eqn:Hc; [done|].
    intros Hrun. apply IH in Hrun. apply count_correct_bound in Hc.
    rewrite length_app. cbn [snd]. lia.
Qed.

Lemma test_loop_mnist (w : Weights) fp li test_loader :
  Forall mnist_batch test_loader →
  ∀ g test_loss correct,
  ∃ loss' correct',
    test_loop (mkArgs true fp li) (NetPTQ.eval (NetPTQ.init w)) test_loader g test_loss correct =
      (NetPTQ.eval (NetPTQ.init w), g, ok (loss', correct')) ∧
    correct ≤ correct' ≤ correct + Z.of_nat (length (concat test_loader.*2)).
Proof.
  induction 1 as [|[data target] rest (Hne & Hlen & Ht) _ IH]; intros g test_loss correct;
    cbn [test_loop fmap list_fmap concat].
  - eexists _, _. split; [done|]. cbn [length]. lia.
  - cbn [fst snd] in Hne, Hlen, Ht.
    destruct (model_call_eval_ok w data (Z.of_nat (length target)) fp li g)
      as (out & -> & Hc & Hr & Hwf).
    { destruct target; [done|]. cbn [length]. lia. }
    { rewrite Hlen. lia. }
    rewrite Nat2Z.id in Hr. cbn [ok].
    destruct (nll_loss_sum_ok out target Hr) as (loss & ->); [by rewrite Hc|]. cbn [ok].
    destruct (count_correct_ok out target Hwf ltac:(lia) Hr) as (c & -> & Hcb). cbn [ok].
    destruct (IH g (fadd test_loss loss) (correct + c)) as (loss' & correct' & -> & Hb).
    eexists _, _. split; [done|]. rewrite length_app. cbn [snd]. lia.
Qed.

End TestFacts.

(** X5.  [test] changes no parameter: whatever the model, the batches and
    the outcome, the model it leaves has the parameters and the batch-norm
    buffers it was given and is in evaluation mode, and the generator is
    untouched; when it completes, the count it reports lies between 0 and
    the number of labels in the loader. *)
Theorem test_changes_no_parameter `{Scalar} `{!RandomSource} `{!ScalarOrder}
    (args : Args) (model : NetPTQ.t) (test_loader : list (Tensor * list Z))
    (dataset_len : Z) (g : rng) :
  ∃ model' r,
    test args model test_loader dataset_len g = (model', g, r) ∧
    NetPTQ.parameters model' = NetPTQ.parameters model ∧
    NetPTQ.bn_buffers model' = NetPTQ.bn_buffers model ∧
    NetPTQ.training model' = false ∧
    ∀ test_loss correct, r = ok (test_loss, correct) →
      0 ≤ correct ≤ Z.of_nat (length (concat test_loader.*2)).
Proof.
  unfold test.
  pose proof (test_loop_count_bound args test_loader (NetPTQ.eval model) g f0 0) as Hbound.
  destruct (test_loop_frame args test_loader (NetPTQ.eval model) g f0 0 eq_refl)
    as (model' & r & Heq & Hm).
  rewrite Heq in Hbound |- *.
  exists model'.
  assert (NetPTQ.parameters model' = NetPTQ.parameters model ∧
          NetPTQ.bn_buffers model' = NetPTQ.bn_buffers model ∧
          NetPTQ.training model' = false) as (Hp & Hb & Ht).
  { split_and!.
    - rewrite <- (NetPTQ_parameters_reset model'), Hm. by rewrite NetPTQ_parameters_reset.
    - rewrite <- (NetPTQ_bn_buffers_reset model'), Hm. by rewrite NetPTQ_bn_buffers_reset.
    - by apply NetPTQ_reset_observers_inv in Hm as (-> & _). }
  destruct r as [e|[test_loss correct]].
  { exists (inl e). by split_and!. }
  specialize (Hbound model' g test_loss correct eq_refl).
  destruct (dataset_len =? 0).
  - eexists. by split_and!.
  - eexists. split_and!; [done..|]. intros l c [= _ <-]. lia.
Qed.

(** X6.  On batches as the MNIST loaders yield them, [test] on the float
    [NetPTQ] completes: no batch raises, the count of correct predictions
    lies between 0 and the number of labels seen, and the only exception left
    is the ZeroDivisionError of [test_loss /= len(test_loader.dataset)] on an
    empty dataset. *)
Theorem test_completes_on_mnist_batches `{Scalar} `{!RandomSource} `{!ScalarOrder}
    (w : Weights) (test_loader : list (Tensor * list Z)) (dataset_len : Z)
    (fp : bool) (li : Z) (g : rng) :
  Forall mnist_batch test_loader →
  ∃ test_loss correct,
    0 ≤ correct ≤ Z.of_nat (length (concat test_loader.*2)) ∧
    test (mkArgs true fp li) (NetPTQ.init w) test_loader dataset_len g =
      (NetPTQ.eval (NetPTQ.init w), g,
       if dataset_len =? 0 then raise ZeroDivisionError
       else ok (fdiv test_loss (fof_Z dataset_len), correct)).
Proof.
  intros Hl. unfold test.
  destruct (test_loop_mnist w fp li test_loader Hl g f0 0)
    as (test_loss & correct & -> & Hb).
  exists test_loss, correct. split; [lia|]. cbn [ok].
  by destruct (dataset_len =? 0).
Qed.

Lemma test_completes_on_mnist_batches_witness :
  ∃ test_loss correct,
    (@test ZScalar ZRandom ZOrder (mkArgs true false 10) (NetPTQ.init Examples.w0)
       [(Examples.one_pixel, [3])] 1 0).2 = ok (test_loss, correct) ∧
    0 ≤ correct ≤ 1.
Proof.
  destruct (@test_completes_on_mnist_batches ZScalar ZRandom ZOrder Examples.w0
              [(Examples.one_pixel, [3])] 1 false 10 0) as (test_loss & correct & Hb & Heq).
  - constructor; [|constructor].
    split; [done|]. split; [reflexivity|]. repeat constructor; lia.
  - exists (fdiv test_loss (fof_Z 1)), correct. rewrite Heq. split; [reflexivity|exact Hb].
Defined.

(** X7.  With [--log-interval 0] the test [batch_idx % args.log_interval]
    divides by zero: [train] on a non-empty loader never completes.  The test
    comes after the update, so when the forward pass and the loss of the
    first batch succeed (without fp16), [train] stops with ZeroDivisionError
    on a model and an optimizer that have already taken the step of that
    batch. *)
Theorem train_log_interval_zero `{Scalar} `{!RandomSource} `{!Collaborators}
    (args : Args) (sparse_policy : cast_policy) (model : NetPTQ.t) (device : torch_device)
    (fresh_scaler : grad_scaler) (data : Tensor) (target : list Z)
    (rest : list (Tensor * list Z)) (opt : optimizer) (g : rng) :
  log_interval args = 0 →
  (train args sparse_policy model device fresh_scaler ((data, target) :: rest) opt g).2 ≠
    ok tt ∧
  (∀ model' g' output loss,
     fp16 args = false →
     model_call args (NetPTQ.train model) data g = (model', g', ok output) →
     nll_loss output target = ok loss →
     train args sparse_policy model device fresh_scaler ((data, target) :: rest) opt g =
       (mkTrainState (backward_step (zero_grad opt) model' data target loss).2
                     (backward_step (zero_grad opt) model' data target loss).1
                     fresh_scaler g',
        raise ZeroDivisionError)).
Proof.
  intros Hli. unfold train. cbn [train_loop]. unfold train_batch.
  cbn [ts_model ts_optimizer ts_scaler ts_rng]. rewrite Hli. cbn [Z.eqb].
  split.
  - destruct (model_call args (NetPTQ.train model) data g) as [[model' g'] [e|output]];
      [done|].
    destruct (nll_loss output target) as [e|loss]; [done|].
    destruct (fp16 args).
    + destruct (dtype_is _ _); [|done]. by destruct (scaled_step _ _ _ _ _ _) as [[? ?] ?].
    + by destruct (backward_step _ _ _ _ _).
  - intros model' g' output loss Hfp Hcall Hloss. rewrite Hcall, Hfp. cbn [ok].
    rewrite Hloss. cbn [ok]. by destruct (backward_step _ _ _ _ _).
Qed.

Lemma train_log_interval_zero_witness :
  (@train ZScalar ZRandom ZCollaborators (mkArgs true false 0) to_float16
     (NetPTQ.init Examples.w0) cpu 1 [(MoreExamples.two_pixels, [3])] 0 0).2 =
    raise ZeroDivisionError ∧
  @ts_optimizer ZScalar ZRandom ZCollaborators
    (@train ZScalar ZRandom ZCollaborators (mkArgs true false 0) to_float16
       (NetPTQ.init Examples.w0) cpu 1 [(MoreExamples.two_pixels, [3])] 0 0).1 = 1.
Proof.
  pose proof (@train_log_interval_zero ZScalar ZRandom ZCollaborators (mkArgs true false 0)
                to_float16 (NetPTQ.init Examples.w0) cpu 1 MoreExamples.two_pixels [3] [] 0 0
                eq_refl) as [_ Hstep].
  set (c := @model_call ZScalar ZRandom (mkArgs true false 0)
              (NetPTQ.train (NetPTQ.init Examples.w0)) MoreExamples.two_pixels 0).
  set (output := match c.2 with inr o => o | inl _ => @mkTensor2 ZScalar [] 0 end).
  assert (c = (c.1.1, c.1.2, ok output)) as Hcall by (vm_compute; reflexivity).
  set (loss := match @nll_loss ZScalar output [3] with inr l => l | inl _ => 0 end).
  assert (@nll_loss ZScalar output [3] = ok loss) as Hloss by (vm_compute; reflexivity).
  rewrite (Hstep c.1.1 c.1.2 output loss eq_refl Hcall Hloss). split; reflexivity.
Defined.

(** X8.  The grid sizes the comments of [NetPTQ.__init__] give are the ones
    the stages produce.  In evaluation, on a well-formed view of [N]
    single-channel 28 x 28 samples, the two submanifold stages keep the
    28 x 28 grid and the coordinates, the three strided stages leave
    14 x 14, 7 x 7 and 4 x 4 grids of 64 channels, and the final 4 x 4
    convolution of stride 4 leaves one site of 10 channels per sample
    position: a 1 x 1 grid. *)
Theorem NetPTQ_stage_grids `{Scalar} `{!RandomSource}
    (w : Weights) (x : SparseConvTensor) (N : Z) (g : rng) :
  view_sig N 28 28 1 x →
  ∃ x2 x3 x4 x5 x6,
    (module_forward false (first_stages 2 (NetPTQ.net (NetPTQ.init w))) (VSparse x) g =
       (first_stages 2 (NetPTQ.net (NetPTQ.init w)), g, ok (VSparse x2)) ∧
     view_sig N 28 28 64 x2 ∧ indices x2 = indices x) ∧
    (module_forward false (first_stages 3 (NetPTQ.net (NetPTQ.init w))) (VSparse x) g =
       (first_stages 3 (NetPTQ.net (NetPTQ.init w)), g, ok (VSparse x3)) ∧
     view_sig N 14 14 64 x3) ∧
    (module_forward false (first_stages 4 (NetPTQ.net (NetPTQ.init w))) (VSparse x) g =
       (first_stages 4 (NetPTQ.net (NetPTQ.init w)), g, ok (VSparse x4)) ∧
     view_sig N 7 7 64 x4) ∧
    (module_forward false (first_stages 5 (NetPTQ.net (NetPTQ.init w))) (VSparse x) g =
       (first_stages 5 (NetPTQ.net (NetPTQ.init w)), g, ok (VSparse x5)) ∧
     view_sig N 4 4 64 x5) ∧
    (module_forward false (first_stages 6 (NetPTQ.net (NetPTQ.init w))) (VSparse x) g =
       (first_stages 6 (NetPTQ.net (NetPTQ.init w)), g, ok (VSparse x6)) ∧
     view_sig N 1 1 10 x6).
Proof.
  intros Hx0. unfold first_stages. cbn [NetPTQ.net NetPTQ.init children firstn].
  destruct (SubMConvBNReLU_eval_sig N 28 28 1 32 3 1 1 (conv_weight w 0%nat)
              (conv_bn w 0%nat) x g Hx0) as (x1 & E1 & Hx1 & Hi1); [done..|].
  destruct (SubMConvBNReLU_eval_sig N 28 28 32 64 3 1 1 (conv_weight w 1%nat)
              (conv_bn w 1%nat) x1 g Hx1) as (x2 & E2 & Hx2 & Hi2); [done..|].
  destruct (SparseConvBNReLU_eval_sig N 28 28 64 64 2 2 1 (conv_weight w 2%nat)
              (conv_bn w 2%nat) x2 g Hx2) as (x3 & E3 & Hx3); [done..|].
  change (conv_out_size 28 2 2 ((2 - 1) / 2)) with 14 in Hx3.
  destruct (SparseConvBNReLU_eval_sig N 14 14 64 64 2 2 1 (conv_weight w 3%nat)
              (conv_bn w 3%nat) x3 g Hx3) as (x4 & E4 & Hx4); [done..|].
  change (conv_out_size 14 2 2 ((2 - 1) / 2)) with 7 in Hx4.
  destruct (SparseConvBNReLU_eval_sig N 7 7 64 64 3 2 1 (conv_weight w 4%nat)
              (conv_bn w 4%nat) x4 g Hx4) as (x5 & E5 & Hx5); [done..|].
  change (conv_out_size 7 3 2 ((3 - 1) / 2)) with 4 in Hx5.
  destruct (SparseConv2d_module_sig false (mkConvCfg 64 10 4 4 0 1) (conv_weight w 5%nat)
              (last_bias w) N 4 4 x5 g Hx5) as (x6 & E6 & Hx6); [done..|].
  change (conv_out_size 4 _ _ _) with 1 in Hx6. cbn [out_channels] in Hx6.
  exists x2, x3, x4, x5, x6.
  assert (∀ y, module_forward false (SparseSequential []) (VSparse y) g =
               (SparseSequential [], g, ok (VSparse y))) as Hnil
    by (intros y; apply SparseSequential_nil).
  split; [split; [|split; [exact Hx2|congruence]]|].
  { repeat (eapply SparseSequential_cons; [done|eassumption|]). apply Hnil. }
  split; [split; [|exact Hx3]|].
  { repeat (eapply SparseSequential_cons; [done|eassumption|]). apply Hnil. }
  split; [split; [|exact Hx4]|].
  { repeat (eapply SparseSequential_cons; [done|eassumption|]). apply Hnil. }
  split; [split; [|exact Hx5]|].
  { repeat (eapply SparseSequential_cons; [done|eassumption|]). apply Hnil. }
  split; [|exact Hx6].
  repeat (eapply SparseSequential_cons; [done|eassumption|]). apply Hnil.
Qed.

Lemma NetPTQ_stage_grids_witness :
  ∃ x5, (@module_forward ZScalar ZRandom false
           (first_stages 5 (NetPTQ.net (NetPTQ.init Examples.w0)))
           (VSparse (from_dense Examples.one_pixel_batch)) 0).2 = ok (VSparse x5) ∧
        spatial_shape x5 = (4, 4).
Proof.
  destruct (@NetPTQ_stage_grids ZScalar ZRandom Examples.w0
              (from_dense Examples.one_pixel_batch) 1 0)
    as (x2 & x3 & x4 & x5 & x6 & _ & _ & _ & (E5 & Hx5) & _).
  - apply from_dense_sig; [|reflexivity].
    apply check_dense_spec. vm_compute. reflexivity.
  - exists x5. rewrite E5. split; [reflexivity|]. by destruct Hx5 as (_ & _ & _ & ? & _).
Defined.

Section DenseFacts.
Context `{Scalar} `{!RandomSource}.

Lemma Conv2d_forward_shape ic oc k s w b (x : Tensor) N Hh Ww :
  t_shape x = [N; ic; Hh; Ww] → k ≤ Hh → k ≤ Ww →
  ∃ y, Conv2d_forward ic oc k s w b x = ok y ∧
       t_shape y = [N; oc; (Hh - k) / s + 1; (Ww - k) / s + 1].
Proof.
  intros Hs HkH HkW. unfold Conv2d_forward. rewrite Hs, Z.eqb_refl.
  destruct (Z.leb_spec k Hh); [|lia]. destruct (Z.leb_spec k Ww); [|lia].
  cbn [andb]. eexists. split; reflexivity.
Qed.

Lemma max_pool2d_2_shape (x : Tensor) N C Hh Ww :
  t_shape x = [N; C; Hh; Ww] → 2 ≤ Hh → 2 ≤ Ww →
  ∃ y, max_pool2d_2 x = ok y ∧ t_shape y = [N; C; (Hh - 2) / 2 + 1; (Ww - 2) / 2 + 1].
Proof.
  intros Hs HkH HkW. unfold max_pool2d_2. rewrite Hs.
  destruct (Z.leb_spec 2 Hh); [|lia]. destruct (Z.leb_spec 2 Ww); [|lia].
  cbn [andb]. eexists. split; reflexivity.
Qed.

Lemma flatten_tensor_shape (x : Tensor) N C Hh Ww :
  t_shape x = [N; C; Hh; Ww] →
  ∃ y, flatten_tensor x = ok y ∧ t2_cols y = C * (Hh * Ww) ∧
       length (t2_rows y) = Z.to_nat N.
Proof.
  intros Hs. unfold flatten_tensor. rewrite Hs. eexists. split; [reflexivity|].
  cbn [t2_cols t2_rows foldr]. rewrite length_fmap, length_seq. split; [|done].
  by rewrite Z.mul_1_r.
Qed.

(** The convolutions and the pooling of [NetDense] on an [Hh] x [Ww] image:
    a [[N, 64, (Hh - 4) / 2, (Ww - 4) / 2]] tensor. *)
Lemma NetDense_features (self : NetDense.t) (x : Tensor) N Hh Ww :
  t_shape x = [N; 1; Hh; Ww] → 6 ≤ Hh → 6 ≤ Ww →
  ∃ y, (x <- Conv2d_forward 1 32 3 1 (NetDense.conv1_weight self) (NetDense.conv1_bias self) x ;;
        x <- Conv2d_forward 32 64 3 1 (NetDense.conv2_weight self) (NetDense.conv2_bias self)
               (relu_tensor x) ;;
        max_pool2d_2 (relu_tensor x)) = ok y ∧
       t_shape y = [N; 64; (Hh - 4) / 2; (Ww - 4) / 2].
Proof.
  intros Hs HH HW.
  destruct (Conv2d_forward_shape 1 32 3 1 (NetDense.conv1_weight self)
              (NetDense.conv1_bias self) x N Hh Ww Hs) as (x1 & -> & Hs1); [lia..|].
  cbn [bind ok]. rewrite !Z.div_1_r in Hs1.
  destruct (Conv2d_forward_shape 32 64 3 1 (NetDense.conv2_weight self)
              (NetDense.conv2_bias self) (relu_tensor x1) N _ _ Hs1) as (x2 & -> & Hs2);
    [lia..|].
  cbn [bind ok]. rewrite !Z.div_1_r in Hs2.
  destruct (max_pool2d_2_shape (relu_tensor x2) N 64 _ _ Hs2) as (x3 & -> & Hs3); [lia..|].
  exists x3. split; [done|]. rewrite Hs3. do 2 f_equal.
  assert (∀ h, (h - 3 + 1 - 3 + 1 - 2) / 2 + 1 = (h - 4) / 2) as Hpool.
  { intros h. replace (h - 4) with (h - 3 + 1 - 3 + 1 - 2 + 1 * 2) by lia.
    by rewrite Z.div_add. }
  by rewrite !Hpool.
Qed.

End DenseFacts.

(** X9.  [NetDense] is tied to its input size by the 9216 inputs of [fc1]:
    on an [[N, 1, Hh, Ww]] batch the two 3 x 3 convolutions and the pooling
    leave 64 maps of [(Hh - 4) / 2] by [(Ww - 4) / 2] entries, and in
    evaluation mode the forward pass returns log-probabilities of shape
    [[N, 10]] exactly when these are 144 entries per map, as for the
    28 x 28 images of MNIST; any other size raises RuntimeError in [fc1]. *)
Theorem NetDense_input_size `{Scalar} `{!RandomSource}
    (self : NetDense.t) (x : Tensor) (N Hh Ww : Z) (g : rng) :
  t_shape x = [N; 1; Hh; Ww] → 6 ≤ Hh → 6 ≤ Ww →
  ((Hh - 4) / 2 * ((Ww - 4) / 2) = 144 →
   ∃ out, NetDense.forward (NetDense.eval self) x g = (g, ok out) ∧
          t2_cols out = 10 ∧ length (t2_rows out) = Z.to_nat N ∧ wf_Tensor2 out) ∧
  ((Hh - 4) / 2 * ((Ww - 4) / 2) ≠ 144 →
   NetDense.forward (NetDense.eval self) x g = (g, raise RuntimeError)).
Proof.
  intros Hs HH HW. unfold NetDense.forward.
  destruct (NetDense_features (NetDense.eval self) x N Hh Ww Hs HH HW) as (y & -> & Hy).
  cbn [ok NetDense.training NetDense.eval Dropout_forward].
  destruct (flatten_tensor_shape y N 64 _ _ Hy) as (z & -> & Hc & Hr). cbn [bind ok].
  split; intros Hsize.
  - destruct (Linear_forward_shape 9216 128 (NetDense.fc1_weight (NetDense.eval self))
                (NetDense.fc1_bias (NetDense.eval self)) z) as (z1 & -> & Hc1 & Hr1 & _); [lia|done|].
    cbn [ok Dropout2d_forward].
    destruct (Linear_forward_shape 128 10 (NetDense.fc2_weight (NetDense.eval self))
                (NetDense.fc2_bias (NetDense.eval self)) (mkTensor2 (relu <$> t2_rows z1) (t2_cols z1)))
      as (z2 & -> & Hc2 & Hr2 & Hwf2); [done..|].
    cbn [bind ok t2_rows] in *. eexists. split; [done|].
    rewrite length_fmap in Hr2.
    split; [done|]. split; [unfold log_softmax; cbn [t2_rows]; rewrite length_fmap; congruence|].
    by apply log_softmax_shape.
  - rewrite Linear_forward_mismatch; [done|]. lia.
Qed.

Lemma NetDense_input_size_witness :
  (∃ out, (@NetDense.forward ZScalar ZRandom (NetDense.eval MoreExamples.dense0)
             Examples.one_pixel 0).2 = ok out ∧ t2_cols out = 10) ∧
  (@NetDense.forward ZScalar ZRandom (NetDense.eval MoreExamples.dense0)
     MoreExamples.large_image 0).2 = raise RuntimeError.
Proof.
  split.
  - destruct (proj1 (@NetDense_input_size ZScalar ZRandom MoreExamples.dense0
                       Examples.one_pixel 1 28 28 0 eq_refl ltac:(lia) ltac:(lia)) eq_refl)
      as (out & Hout & Hc & _).
    exists out. rewrite Hout. split; [reflexivity|exact Hc].
  - rewrite (proj2 (@NetDense_input_size ZScalar ZRandom MoreExamples.dense0
                      MoreExamples.large_image 1 32 32 0 eq_refl ltac:(lia) ltac:(lia)));
      [reflexivity|discriminate].
Defined.

Section CalibrateFloat.
Context `{Scalar} `{!RandomSource}.

Lemma image_batch_count (data : Tensor) :
  image_batch data →
  1 ≤ Z.of_nat (length (t_data data)) / 784 ∧
  length (t_data data) = Z.to_nat (784 * (Z.of_nat (length (t_data data)) / 784)).
Proof.
  intros [Hne Hmod].
  pose proof (Z.div_mod (Z.of_nat (length (t_data data))) 784 ltac:(lia)) as Hdm.
  rewrite Hmod in Hdm. split; lia.
Qed.

Lemma calibrate_loop_float (w : Weights) fp li data_loader g :
  Forall (λ b, image_batch b.1) data_loader →
  (calibrate_loop (mkArgs true fp li) (NetPTQ.eval (NetPTQ.init w)) data_loader g =
     (NetPTQ.eval (NetPTQ.init w), g, ok tt)) ∧
  ∀ bad target rest, Z.of_nat (length (t_data bad)) mod 784 ≠ 0 →
    calibrate_loop (mkArgs true fp li) (NetPTQ.eval (NetPTQ.init w))
                   (data_loader ++ (bad, target) :: rest) g =
      (NetPTQ.eval (NetPTQ.init w), g, raise RuntimeError).
Proof.
  induction 1 as [|[image target] rest' Himg _ IH]; cbn [calibrate_loop app].
  - split; [done|]. intros bad target rest Hbad.
    unfold model_call. cbn [sparse].
    by rewrite (reshape_28_28_1_error bad Hbad).
  - destruct (image_batch_count image Himg) as [HN Hlen].
    destruct (model_call_eval_ok w image _ fp li g HN Hlen) as (out & -> & _).
    cbn [ok]. exact IH.
Qed.

End CalibrateFloat.

(** X10.  [calibrate] looks at the images only.  On the float [NetPTQ] every
    batch of at least one image of 28 * 28 scalars goes through, whatever its
    labels, and the loop completes with the model in evaluation mode and
    otherwise unchanged; the first batch whose element count is no multiple
    of 784 stops it with the RuntimeError of the reshape, and the batches
    behind it are not looked at. *)
Theorem calibrate_float_model `{Scalar} `{!RandomSource}
    (w : Weights) (data_loader : list (Tensor * list Z)) (fp : bool) (li : Z) (g : rng) :
  Forall (λ b, image_batch b.1) data_loader →
  calibrate (mkArgs true fp li) (NetPTQ.init w) data_loader g =
    (NetPTQ.eval (NetPTQ.init w), g, ok tt) ∧
  ∀ bad target rest, Z.of_nat (length (t_data bad)) mod 784 ≠ 0 →
    calibrate (mkArgs true fp li) (NetPTQ.init w) (data_loader ++ (bad, target) :: rest) g =
      (NetPTQ.eval (NetPTQ.init w), g, raise RuntimeError).
Proof. intros Hl. unfold calibrate. by apply calibrate_loop_float. Qed.

Lemma calibrate_float_model_witness :
  (@calibrate ZScalar ZRandom (mkArgs true false 10) (NetPTQ.init Examples.w0)
     [(Examples.one_pixel, [])] 0).2 = ok tt ∧
  (@calibrate ZScalar ZRandom (mkArgs true false 10) (NetPTQ.init Examples.w0)
     ([(Examples.one_pixel, [])] ++
      [(MoreExamples.large_image, [3]); (Examples.one_pixel, [3])]) 0).2 =
    raise RuntimeError.
Proof.
  assert (Forall (λ b : @Tensor ZScalar * list Z, image_batch b.1)
                 [(Examples.one_pixel, [])]) as Hl.
  { constructor; [|constructor]. split; [discriminate|reflexivity]. }
  destruct (@calibrate_float_model ZScalar ZRandom Examples.w0 [(Examples.one_pixel, [])]
              false 10 0 Hl) as [Hok Hbad].
  split.
  - rewrite Hok. reflexivity.
  - rewrite Hbad; [reflexivity|]. vm_compute. discriminate.
Defined.

Section NetGrid.
Context `{Scalar} `{!RandomSource}.

(** The sparse part of [Net] in evaluation on any grid of at least 2 x 2
    sites: the strided stage halves both extents. *)
Lemma Net_net_eval_grid (w : Weights) (x : SparseConvTensor) N Hh Ww g :
  view_sig N Hh Ww 1 x → 2 ≤ Hh → 2 ≤ Ww →
  ∃ d, module_forward false (Net.net (Net.init w)) (VSparse x) g =
         (Net.net (Net.init w), g, ok (VDense d)) ∧
       wf_Dense d ∧ d_shape d = (N, Hh / 2, Ww / 2, 64).
Proof.
  intros Hx0 HH HW. cbn [Net.net Net.init].
  assert (∀ h, conv_out_size h 2 2 ((2 - 1) / 2) = h / 2) as Hhalf.
  { intros h. unfold conv_out_size. change ((2 - 1) / 2) with 0.
    replace h with (h - 2 + 1 * 2) at 2 by lia. rewrite Z.div_add by lia.
    f_equal. f_equal. lia. }
  destruct (SubMConvBNReLU_eval_sig N Hh Ww 1 32 3 1 1 (conv_weight w 0%nat)
              (conv_bn w 0%nat) x g Hx0) as (x1 & E1 & Hx1 & _);
    [change ((3 - 1) / 2) with 1; lia..|done|].
  destruct (SubMConvBNReLU_eval_sig N Hh Ww 32 64 3 1 1 (conv_weight w 1%nat)
              (conv_bn w 1%nat) x1 g Hx1) as (x2 & E2 & Hx2 & _);
    [change ((3 - 1) / 2) with 1; lia..|done|].
  destruct (SparseConvBNReLU_eval_sig N Hh Ww 64 64 2 2 1 (conv_weight w 2%nat)
              (conv_bn w 2%nat) x2 g Hx2) as (x3 & E3 & Hx3);
    [change ((2 - 1) / 2) with 0; lia..|done|done|done|].
  rewrite !Hhalf in Hx3.
  destruct (ToDense_module_sig false N _ _ 64 x3 g Hx3) as (d & E4 & Hwf & Hshape).
  exists d. split; [|done].
  repeat (eapply SparseSequential_cons; [done|eassumption|]).
  apply SparseSequential_nil.
Qed.

End NetGrid.

(** X11.  [Net] takes the grid from the sparse tensor it is given, and its
    [fc1] fixes which grids it accepts: in evaluation mode, on a well-formed
    single-channel view over an [Hh] x [Ww] grid, the sparse stack ends in
    [Hh / 2] by [Ww / 2] sites of 64 channels, and the forward pass returns
    [[N, 10]] log-probabilities exactly when these are the 196 sites
    [fc1] was declared for ([14 * 14 * 64] inputs); on any other grid [fc1]
    raises RuntimeError.  The network is left as it was in both cases. *)
Theorem Net_grid_size `{Scalar} `{!RandomSource}
    (w : Weights) (x : SparseConvTensor) (N Hh Ww : Z) (g : rng) :
  view_sig N Hh Ww 1 x → 2 ≤ Hh → 2 ≤ Ww →
  (Hh / 2 * (Ww / 2) = 196 →
   ∃ out, Net.forward (Net.eval (Net.init w)) x g = (Net.eval (Net.init w), g, ok out) ∧
          t2_cols out = 10 ∧ length (t2_rows out) = Z.to_nat N) ∧
  (Hh / 2 * (Ww / 2) ≠ 196 →
   Net.forward (Net.eval (Net.init w)) x g =
     (Net.eval (Net.init w), g, raise RuntimeError)).
Proof.
  intros Hsig HH HW.
  pose proof (Net_forward_eval_state w x g) as Hstate.
  pose proof (Net_forward_output false w x g) as Hout.
  change (Net.set_training false (Net.init w)) with (Net.eval (Net.init w)) in Hout.
  destruct (Net.forward (Net.eval (Net.init w)) x g) as [[self' g'] r] eqn:E.
  cbn [fst snd] in Hstate, Hout. injection Hstate as -> ->.
  cbv zeta in Hout.
  destruct (Net_net_eval_grid w x N Hh Ww g Hsig HH HW) as (d & En & Hwfd & Hshd).
  rewrite En in Hout. cbn [fst snd bind ok] in Hout.
  destruct (flatten_dense_shape d N _ _ 64 Hwfd Hshd) as (t & Et & Hc & Hr & Hwt).
  rewrite Et in Hout. cbn [bind ok] in Hout. rewrite !Dropout2d_forward_eval in Hout.
  cbn [fst snd] in Hout.
  split; intros Hsize.
  - destruct (Linear_forward_shape (14 * 14 * 64) 128 (fc1_weight w) (fc1_bias w) t)
      as (y1 & E1 & Hc1 & Hr1 & Hw1); [lia|done|].
    rewrite E1 in Hout. cbn [bind ok] in Hout. rewrite !Dropout2d_forward_eval in Hout.
    cbn [fst snd] in Hout.
    destruct (Linear_forward_shape 128 10 (fc2_weight w) (fc2_bias w)
                (mkTensor2 (relu <$> t2_rows y1) (t2_cols y1)) Hc1)
      as (y2 & E2 & Hc2 & Hr2 & Hw2); [done|].
    rewrite E2 in Hout. cbn [bind ok] in Hout. subst r.
    destruct (log_softmax_shape y2) as (Hc' & Hr' & Hw').
    exists (log_softmax y2). split_and!; [done|congruence|].
    rewrite Hr', Hr2. cbn [t2_rows]. rewrite length_fmap. congruence.
  - rewrite Linear_forward_mismatch in Hout by lia. by subst r.
Qed.

Lemma Net_grid_size_witness :
  (∃ out, (@Net.forward ZScalar ZRandom (Net.eval (Net.init Examples.w0))
             (from_dense Examples.one_pixel_batch) 0).2 = ok out ∧ t2_cols out = 10) ∧
  (@Net.forward ZScalar ZRandom (Net.eval (Net.init Examples.w0))
     (from_dense Examples.small_batch) 0).2 = raise RuntimeError.
Proof.
  split.
  - assert (@wf_Dense ZScalar Examples.one_pixel_batch) as Hwf
      by (apply check_dense_spec; vm_compute; reflexivity).
    destruct (proj1 (@Net_grid_size ZScalar ZRandom Examples.w0
                       (from_dense Examples.one_pixel_batch) 1 28 28 0
                       (from_dense_sig _ 1 28 28 1 Hwf eq_refl) ltac:(lia) ltac:(lia))
                eq_refl) as (out & Hout & Hc & _).
    exists out. rewrite Hout. split; [reflexivity|exact Hc].
  - assert (@wf_Dense ZScalar Examples.small_batch) as Hwf
      by (apply check_dense_spec; vm_compute; reflexivity).
    rewrite (proj2 (@Net_grid_size ZScalar ZRandom Examples.w0
                      (from_dense Examples.small_batch) 1 4 4 0
                      (from_dense_sig _ 1 4 4 1 Hwf eq_refl) ltac:(lia) ltac:(lia)));
      [reflexivity|discriminate].
Defined.

Section TestOrder.
Context `{Scalar} `{!RandomSource} `{!ScalarOrder}.

(** One MNIST batch in the loop of [test] on the float model: it adds a loss
    and a count that depend on the batch only. *)
Lemma test_loop_cons_mnist (w : Weights) fp li data target g :
  mnist_batch (data, target) →
  ∃ loss c, 0 ≤ c ≤ Z.of_nat (length target) ∧
    ∀ rest test_loss correct,
      test_loop (mkArgs true fp li) (NetPTQ.eval (NetPTQ.init w)) ((data, target) :: rest)
                g test_loss correct =
      test_loop (mkArgs true fp li) (NetPTQ.eval (NetPTQ.init w)) rest
                g (fadd test_loss loss) (correct + c).
Proof.
  intros (Hne & Hlen & Ht). cbn [fst snd] in Hne, Hlen, Ht.
  destruct (model_call_eval_ok w data (Z.of_nat (length target)) fp li g)
    as (out & Hcall & Hc & Hr & Hwf).
  { destruct target; [done|]. cbn [length]. lia. }
  { rewrite Hlen. lia. }
  rewrite Nat2Z.id in Hr.
  destruct (nll_loss_sum_ok out target Hr) as (loss & Hloss); [by rewrite Hc|].
  destruct (count_correct_ok out target Hwf ltac:(lia) Hr) as (c & Hcount & Hcb).
  exists loss, c. split; [done|]. intros rest test_loss correct.
  cbn [test_loop]. rewrite Hcall. cbn [ok]. rewrite Hloss. cbn [ok]. by rewrite Hcount.
Qed.

(** The count does not depend on the loss accumulated so far. *)
Lemma test_loop_count_indep (w : Weights) fp li test_loader g :
  Forall mnist_batch test_loader →
  ∀ lossA lossB correct,
  ∃ lossA' lossB' correct',
    test_loop (mkArgs true fp li) (NetPTQ.eval (NetPTQ.init w)) test_loader g lossA correct =
      (NetPTQ.eval (NetPTQ.init w), g, ok (lossA', correct')) ∧
    test_loop (mkArgs true fp li) (NetPTQ.eval (NetPTQ.init w)) test_loader g lossB correct =
      (NetPTQ.eval (NetPTQ.init w), g, ok (lossB', correct')).
Proof.
  induction 1 as [|[data target] rest Hb _ IH]; intros lossA lossB correct.
  - by eexists _, _, _.
  - destruct (test_loop_cons_mnist w fp li data target g Hb) as (loss & c & _ & Hstep).
    rewrite !Hstep. apply IH.
Qed.

(** Two orders of the same MNIST batches give the same count, whatever the
    losses accumulated so far. *)
Lemma test_loop_permutation (w : Weights) fp li l1 l2 g :
  l1 ≡ₚ l2 → Forall mnist_batch l1 →
  ∀ lossA lossB correct,
  ∃ lossA' lossB' correct',
    test_loop (mkArgs true fp li) (NetPTQ.eval (NetPTQ.init w)) l1 g lossA correct =
      (NetPTQ.eval (NetPTQ.init w), g, ok (lossA', correct')) ∧
    test_loop (mkArgs true fp li) (NetPTQ.eval (NetPTQ.init w)) l2 g lossB correct =
      (NetPTQ.eval (NetPTQ.init w), g, ok (lossB', correct')).
Proof.
  induction 1 as [|[data target] l l' Hp IH|[d1 t1] [d2 t2] l|l l' l'' Hp1 IH1 Hp2 IH2];
    intros Hl lossA lossB correct.
  - by eexists _, _, _.
  - apply Forall_cons in Hl as [Hb Hl].
    destruct (test_loop_cons_mnist w fp li data target g Hb) as (loss & c & _ & Hstep).
    rewrite !Hstep. by apply IH.
  - apply Forall_cons in Hl as [Hb2 Hl]. apply Forall_cons in Hl as [Hb1 Hl].
    destruct (test_loop_cons_mnist w fp li d1 t1 g Hb1) as (loss1 & c1 & _ & Hstep1).
    destruct (test_loop_cons_mnist w fp li d2 t2 g Hb2) as (loss2 & c2 & _ & Hstep2).
    rewrite !Hstep2, !Hstep1, !Hstep2.
    replace (correct + c1 + c2) with (correct + c2 + c1) by lia.
    by apply test_loop_count_indep.
  - assert (Forall mnist_batch l') as Hl' by (by rewrite <- Hp1).
    destruct (IH1 Hl lossA lossB correct) as (lossA' & lossB' & c' & E1 & E2).
    destruct (IH2 Hl' lossB lossB correct) as (lossB'' & lossC' & c'' & E2' & E3).
    rewrite E2 in E2'. injection E2' as <- <-.
    by exists lossA', lossC', c'.
Qed.

End TestOrder.

(** X12.  The count [test] reports does not depend on the order of the
    batches (the loaders of [main] shuffle them): on the float [NetPTQ], two
    orders of the same MNIST batches complete with the same number of
    correct predictions.  The losses are floating-point sums accumulated in
    loader order, and are not claimed equal. *)
Theorem test_correct_order_independent `{Scalar} `{!RandomSource} `{!ScalarOrder}
    (w : Weights) (l1 l2 : list (Tensor * list Z)) (dataset_len : Z)
    (fp : bool) (li : Z) (g : rng) :
  Forall mnist_batch l1 → l1 ≡ₚ l2 → dataset_len ≠ 0 →
  ∃ loss1 loss2 correct,
    test (mkArgs true fp li) (NetPTQ.init w) l1 dataset_len g =
      (NetPTQ.eval (NetPTQ.init w), g, ok (loss1, correct)) ∧
    test (mkArgs true fp li) (NetPTQ.init w) l2 dataset_len g =
      (NetPTQ.eval (NetPTQ.init w), g, ok (loss2, correct)).
Proof.
  intros Hl Hp Hn. unfold test.
  destruct (test_loop_permutation w fp li l1 l2 g Hp Hl f0 f0 0)
    as (lossA & lossB & correct & -> & ->).
  cbn [ok]. destruct (Z.eqb_spec dataset_len 0) as [|_]; [done|].
  by eexists _, _, _.
Qed.

Lemma test_correct_order_independent_witness :
  ∃ loss1 loss2 correct,
    (@test ZScalar ZRandom ZOrder (mkArgs true false 10) (NetPTQ.init Examples.w0)
       [(Examples.one_pixel, [3]); (MoreExamples.two_pixels, [5])] 2 0).2 =
      ok (loss1, correct) ∧
    (@test ZScalar ZRandom ZOrder (mkArgs true false 10) (NetPTQ.init Examples.w0)
       [(MoreExamples.two_pixels, [5]); (Examples.one_pixel, [3])] 2 0).2 =
      ok (loss2, correct).
Proof.
  destruct (@test_correct_order_independent ZScalar ZRandom ZOrder Examples.w0
              [(Examples.one_pixel, [3]); (MoreExamples.two_pixels, [5])]
              [(MoreExamples.two_pixels, [5]); (Examples.one_pixel, [3])] 2 false 10 0)
    as (loss1 & loss2 & correct & E1 & E2).
  - repeat constructor; try done; cbn [snd]; lia.
  - apply perm_swap.
  - discriminate.
  - exists loss1, loss2, correct. rewrite E1, E2. split; reflexivity.
Defined.

(** X13.  [reshape(-1, 28, 28, 1)] needs no transpose on the batches the
    loaders yield: for a contiguous NCHW batch of shape [[N, 1, 28, 28]],
    site [(n, y, x)] of the reshaped channels-last batch holds exactly pixel
    [(n, 0, y, x)] of the loader's tensor, as its single channel. *)
Theorem reshape_is_channels_last `{Scalar} (data : Tensor) (N : Z) :
  1 ≤ N → length (t_data data) = Z.to_nat (784 * N) →
  ∃ d, reshape_28_28_1 data = ok d ∧ d_shape d = (N, 28, 28, 1) ∧
       ∀ n y x, 0 ≤ n < N → 0 ≤ y < 28 → 0 ≤ x < 28 →
         d_sites d !! Z.to_nat (ravel 28 28 (n, y, x)) = Some [at4 data 1 28 28 n 0 y x].
Proof.
  intros HN Hlen.
  destruct (reshape_28_28_1_ok data N HN Hlen) as (d & Hd & _ & Hshape).
  exists d. split; [done|]. split; [done|]. intros n y x Hn Hy Hx.
  unfold reshape_28_28_1 in Hd. destruct (_ =? 0); [|done]. injection Hd as <-.
  cbn [d_sites]. rewrite list_lookup_fmap. unfold at4, ravel.
  replace (((n * 1 + 0) * 28 + y) * 28 + x) with ((n * 28 + y) * 28 + x) by lia.
  destruct (lookup_lt_is_Some_2 (t_data data) (Z.to_nat ((n * 28 + y) * 28 + x)))
    as [v Hv]; [lia|].
  rewrite Hv. cbn [fmap option_fmap option_map]. do 2 f_equal.
  by rewrite (nth_lookup_Some _ _ _ _ Hv).
Qed.

Lemma reshape_is_channels_last_witness :
  ∃ d, @reshape_28_28_1 ZScalar Examples.one_pixel = ok d ∧
       d_sites d !! Z.to_nat (ravel 28 28 (0, 3, 16)) = Some [5].
Proof.
  destruct (@reshape_is_channels_last ZScalar Examples.one_pixel 1 ltac:(lia) eq_refl)
    as (d & Hd & _ & Hsite).
  exists d. split; [exact Hd|].
  exact (Hsite 0 3 16 ltac:(lia) ltac:(lia) ltac:(lia)).
Defined.
